(** * engine-liquid-shopify: the Liquid pattern engine, embedded in Rocq

    Two source files are embedded side by side:
    - variant A, the richer engine (six tags, four filters), and
    - variant B, [src/lib/engine_liquid.js], the reduced engine (two tags,
      one filter).

    JavaScript strings are sequences of UTF-16 code units; a code unit is a
    number ([N]). Numbers are IEEE 754 binary64 floats ([spec_float]).
    What the engine calls and does not define (liquidjs, [fs], [path],
    [JSON.parse], [Math.random], [sass], [toLowerCase], the printing and
    reading of numbers) is gathered in the record [Host]; the engine is a
    function of a host. The regular expressions written in the source are
    embedded as terms and run by a backtracking matcher.

    Embedded: the name extractors [findPartial] and [findPartial_new], the
    matchers, the tags form, schema, section, stylesheet, javascript and
    paginate, the four filters, [renderPattern], the setup
    [usePatternLabConfig], [spawnFile] and [spawnMeta]. The patterns of
    [util_liquid] are not among the sources: the matchers take them as
    parameters. *)

From Stdlib Require Import String Ascii.
From Stdlib Require Import List NArith ZArith Bool Lia.
From Stdlib Require Import SpecFloat DecimalString.
Import ListNotations.

Set Implicit Arguments.
Set Warnings "-register-all".

(* ===================================================================== *)
(** * Strings *)
(* ===================================================================== *)

Definition jschar := N.
Definition jsstring := list jschar.

(** A string literal of the source, as code units. *)
Definition lit (s : string) : jsstring :=
  List.map N_of_ascii (list_ascii_of_string s).

Definition ch (c : ascii) : jschar := N_of_ascii c.

(** The double quote, and the one-unit string of it. *)
Definition dq : jschar := 34%N.
Definition dquote : jsstring := [dq].

Fixpoint jseqb (a b : jsstring) : bool :=
  match a, b with
  | [], [] => true
  | x :: a', y :: b' => N.eqb x y && jseqb a' b'
  | _, _ => false
  end.

Fixpoint prefixb (p s : jsstring) : bool :=
  match p, s with
  | [], _ => true
  | x :: p', y :: s' => N.eqb x y && prefixb p' s'
  | _ :: _, [] => false
  end.

(** [s.includes(p)] *)
Fixpoint includes (p s : jsstring) : bool :=
  prefixb p s || match s with [] => false | _ :: s' => includes p s' end.

(** [s.replace(pat, repl)] with a string pattern: the first occurrence only. *)
Fixpoint replace_first (pat repl s : jsstring) : jsstring :=
  if prefixb pat s then repl ++ skipn (length pat) s
  else match s with
       | [] => []
       | c :: s' => c :: replace_first pat repl s'
       end.

(** [s.indexOf(c)] for a one-unit string: -1 when absent. *)
Fixpoint indexOf (c : jschar) (s : jsstring) : Z :=
  match s with
  | [] => (-1)%Z
  | x :: s' => if N.eqb x c then 0%Z
               else let i := indexOf c s' in
                    if (i <? 0)%Z then (-1)%Z else (i + 1)%Z
  end.

(** The clamping of [substring]'s arguments: negative gives 0, beyond the
    length gives the length. *)
Definition clamp (len : nat) (i : Z) : nat :=
  if (i <? 0)%Z then 0 else Nat.min (Z.to_nat i) len.

(** [s.substring(a, b)]: the arguments are clamped and swapped when a > b. *)
Definition substring (a b : Z) (s : jsstring) : jsstring :=
  let x := clamp (length s) a in
  let y := clamp (length s) b in
  let lo := Nat.min x y in
  let hi := Nat.max x y in
  firstn (hi - lo) (skipn lo s).

(** The relative index of [slice]: a negative one counts from the end. *)
Definition rel_index (len : nat) (i : Z) : nat :=
  if (i <? 0)%Z then Z.to_nat (Z.max (Z.of_nat len + i) 0)
  else Nat.min (Z.to_nat i) len.

(** [s.slice(a, b)] *)
Definition slice (a b : Z) (s : jsstring) : jsstring :=
  let from := rel_index (length s) a in
  let to := rel_index (length s) b in
  firstn (to - from) (skipn from s).

(** [s.split(c)] for a one-unit separator: always at least one piece. *)
Fixpoint split (c : jschar) (s : jsstring) : list jsstring :=
  match s with
  | [] => [[]]
  | x :: s' =>
      if N.eqb x c then [] :: split c s'
      else match split c s' with
           | [] => [[x]]
           | p :: ps => (x :: p) :: ps
           end
  end.

(** [a.join('')] *)
Definition join (l : list jsstring) : jsstring := List.concat l.

(* ===================================================================== *)
(** * The name extractors of the partial matchers *)
(* ===================================================================== *)

(** [findPartial]: the string-replacement extractor (the same text in both
    variants). *)
Definition findPartial (partialString : jsstring) : jsstring :=
  (* strip out the template cruft *)
  let foundPatternPartial :=
    replace_first (lit "}}") []
      (replace_first (lit "{{>") []
         (replace_first (lit " }}") []
            (replace_first (lit "{{> ") [] partialString))) in
  (* remove any potential pattern parameters *)
  let foundPatternPartial :=
    if (indexOf (ch "(") foundPatternPartial >? 0)%Z
    then substring 0 (indexOf (ch "(") foundPatternPartial) foundPatternPartial
    else foundPatternPartial in
  (* remove any potential stylemodifiers *)
  nth 0 (split (ch ":") foundPatternPartial) [].

(* ===================================================================== *)
(** * Regular expressions *)
(* ===================================================================== *)

(** The regular expressions of the source are written as terms of [regex]
    and run by a backtracking matcher that lists its successes in the order
    a JavaScript engine tries them: the left alternative first, the longest
    repetition first.  The head of the list is the match JavaScript finds. *)
Module RegExp.

Inductive regex : Type :=
| Empty                                (* the empty pattern *)
| Bol                                  (* ^ *)
| Eol                                  (* $ *)
| Cls (p : jschar -> bool)             (* one code unit of a class *)
| Seq (r1 r2 : regex)
| Alt (r1 r2 : regex)                  (* r1|r2 *)
| Star (p : jschar -> bool)            (* c*, greedy, c a class *)
| Group (n : nat) (r : regex).         (* the n-th capturing group *)

(** c+ and r? (both greedy), and a literal run of code units. *)
Definition Plus (p : jschar -> bool) : regex := Seq (Cls p) (Star p).
Definition Opt (r : regex) : regex := Alt r Empty.
Fixpoint Lit (s : jsstring) : regex :=
  match s with
  | [] => Empty
  | c :: s' => Seq (Cls (N.eqb c)) (Lit s')
  end.

(** Where the matcher stands: [pos] units consumed, [rest] still ahead. *)
Record mstate : Type := MState {
  pos : nat;
  rest : jsstring;
  caps : list (nat * jsstring)
}.

Definition advance (st : mstate) (s' : jsstring) : mstate :=
  {| pos := S (pos st); rest := s'; caps := caps st |}.

Fixpoint star_ends (p : jschar -> bool) (i : nat) (s : jsstring)
         (cs : list (nat * jsstring)) : list mstate :=
  match s with
  | c :: s' =>
      if p c then star_ends p (S i) s' cs ++ [MState i s cs]
      else [MState i s cs]
  | [] => [MState i s cs]
  end.

Fixpoint ends (r : regex) (st : mstate) : list mstate :=
  match r with
  | Empty => [st]
  | Bol => if Nat.eqb (pos st) 0 then [st] else []
  | Eol => match rest st with [] => [st] | _ :: _ => [] end
  | Cls p =>
      match rest st with
      | c :: s' => if p c then [advance st s'] else []
      | [] => []
      end
  | Seq r1 r2 => flat_map (ends r2) (ends r1 st)
  | Alt r1 r2 => ends r1 st ++ ends r2 st
  | Star p => star_ends p (pos st) (rest st) (caps st)
  | Group n r =>
      List.map
        (fun st' =>
           {| pos := pos st'; rest := rest st';
              caps := (n, firstn (pos st' - pos st) (rest st)) :: caps st' |})
        (ends r st)
  end.

(** The result of [exec]: where the match starts, its text, its groups. *)
Record jsmatch : Type := JsMatch {
  index : nat;
  matched : jsstring;
  groups : list (nat * jsstring)
}.

(** [m[n]]: [None] is [undefined], a group that took no part. *)
Fixpoint group (n : nat) (gs : list (nat * jsstring)) : option jsstring :=
  match gs with
  | [] => None
  | (k, s) :: gs' => if Nat.eqb k n then Some s else group n gs'
  end.

(** The leftmost match at or after offset [i], [s] being the text from [i]. *)
Fixpoint exec_from (r : regex) (i : nat) (s : jsstring) : option jsmatch :=
  match ends r (MState i s []) with
  | st :: _ =>
      Some {| index := i; matched := firstn (pos st - i) s; groups := caps st |}
  | [] =>
      match s with
      | [] => None
      | _ :: s' => exec_from r (S i) s'
      end
  end.

(** [r.exec(s)] and [s.match(r)] for a pattern without the g flag. *)
Definition exec (r : regex) (s : jsstring) : option jsmatch := exec_from r 0 s.

(** [r.test(s)], and the truth value of [r.exec(s)]. *)
Definition test (r : regex) (s : jsstring) : bool :=
  match exec r s with Some _ => true | None => false end.

(** [s.replace(r, repl)] for a pattern with the g flag: every match, left to
    right; after an empty match the search moves one unit on. *)
Fixpoint replace_loop (fuel : nat) (r : regex) (repl : jsmatch -> jsstring)
         (i : nat) (s : jsstring) : jsstring :=
  match fuel with
  | 0 => s
  | S fuel' =>
      match exec_from r i s with
      | None => s
      | Some m =>
          let k := index m - i in
          match matched m with
          | [] =>
              match skipn k s with
              | [] => firstn k s ++ repl m
              | c :: t =>
                  firstn k s ++ repl m ++ c :: replace_loop fuel' r repl (S (index m)) t
              end
          | _ :: _ =>
              let n := length (matched m) in
              firstn k s ++ repl m
                ++ replace_loop fuel' r repl (index m + n) (skipn (k + n) s)
          end
      end
  end.

Definition replace_g (r : regex) (repl : jsmatch -> jsstring) (s : jsstring)
  : jsstring :=
  replace_loop (S (length s)) r repl 0 s.

(** [s.replace(r, repl)] for a pattern without the g flag: the first match. *)
Definition replace_1 (r : regex) (repl : jsmatch -> jsstring) (s : jsstring)
  : jsstring :=
  match exec r s with
  | None => s
  | Some m =>
      firstn (index m) s ++ repl m ++ skipn (index m + length (matched m)) s
  end.

(** A RegExp object: the pattern and its g flag. *)
Record regexp : Type := RegExpObj { source : regex; global : bool }.

Definition replace (re : regexp) (repl : jsmatch -> jsstring) (s : jsstring)
  : jsstring :=
  if global re then replace_g (source re) repl s
  else replace_1 (source re) repl s.

(** The highest group number of a pattern: its number of groups. *)
Fixpoint group_count (r : regex) : nat :=
  match r with
  | Seq r1 r2 | Alt r1 r2 => Nat.max (group_count r1) (group_count r2)
  | Group n r' => Nat.max n (group_count r')
  | _ => 0
  end.

(** The replacement text ['$1'] for a match of the pattern [r]: group 1,
    empty when it took no part; a pattern without a group leaves the two
    units of the replacement text as they are. *)
Definition dollar1 (r : regex) (m : jsmatch) : jsstring :=
  if Nat.leb 1 (group_count r)
  then match group 1 (groups m) with Some g => g | None => [] end
  else [ch "$"; ch "1"].

(** Classes. *)
Definition any : jschar -> bool := fun _ => true.
Definition only (c : jschar) : jschar -> bool := N.eqb c.
Definition except (c : jschar) : jschar -> bool := fun x => negb (N.eqb c x).
Definition between (lo hi : N) : jschar -> bool :=
  fun x => N.leb lo x && N.leb x hi.
(** \w *)
Definition word : jschar -> bool :=
  fun x => between 65 90 x || between 97 122 x || between 48 57 x || N.eqb x 95.
(** . without the s flag: everything but the four line terminators *)
Definition dot : jschar -> bool :=
  fun x => negb (N.eqb x 10 || N.eqb x 13 || N.eqb x 8232 || N.eqb x 8233).

End RegExp.

(* ===================================================================== *)
(** * Values *)
(* ===================================================================== *)

(** A JavaScript number is an IEEE 754 binary64 float. *)
Definition number := spec_float.
Definition num_of_Z (z : Z) : number := binary_normalize 53 1024 z 0 false.
Definition num_div (x y : number) : number := SFdiv 53 1024 x y.

(** The values the engine handles: what [JSON.parse] returns, and
    [undefined]. An object is the list of its own properties in the order
    JavaScript enumerates them. *)
Inductive value : Type :=
| Undefined
| Null
| Bool (b : bool)
| Num (x : number)
| Str (s : jsstring)
| Arr (l : list value)
| Obj (fields : list (jsstring * value)).

(** ToBoolean *)
Definition truthy (v : value) : bool :=
  match v with
  | Undefined | Null => false
  | Bool b => b
  | Num (S754_zero _) | Num S754_nan => false
  | Num _ => true
  | Str [] => false
  | Str (_ :: _) => true
  | Arr _ | Obj _ => true
  end.

Fixpoint get_own (k : jsstring) (fs : list (jsstring * value)) : option value :=
  match fs with
  | [] => None
  | (k', v) :: fs' => if jseqb k' k then Some v else get_own k fs'
  end.

(** [o = { ...o, k: v }] on the own properties: an existing key keeps its
    place, a new one goes last. *)
Fixpoint set_own (k : jsstring) (v : value) (fs : list (jsstring * value))
  : list (jsstring * value) :=
  match fs with
  | [] => [(k, v)]
  | (k', v') :: fs' =>
      if jseqb k' k then (k', v) :: fs' else (k', v') :: set_own k v fs'
  end.

(** The decimal text of an array index. *)
Definition index_key (n : nat) : jsstring :=
  lit (NilZero.string_of_uint (Nat.to_uint n)).

Fixpoint indexed (A : Type) (f : A -> value) (i : nat) (l : list A)
  : list (jsstring * value) :=
  match l with
  | [] => []
  | x :: l' => (index_key i, f x) :: indexed f (S i) l'
  end.

(** The own enumerable properties [{ ...v }] copies: those of an object,
    the elements of an array, the units of a string, nothing otherwise. *)
Definition own_props (v : value) : list (jsstring * value) :=
  match v with
  | Obj fs => fs
  | Arr l => indexed (fun x => x) 0 l
  | Str s => indexed (fun c => Str [c]) 0 s
  | _ => []
  end.

(** [v.k] for a key no prototype defines ([section], [blocks], [name],
    [class], [src]) on a value that is not null or undefined. *)
Definition get (k : jsstring) (v : value) : value :=
  match v with
  | Obj fs => match get_own k fs with Some x => x | None => Undefined end
  | _ => Undefined
  end.

(* ===================================================================== *)
(** * Effects: exceptions, the random source, the trace of calls *)
(* ===================================================================== *)

Inductive exn : Type :=
| JsError (msg : jsstring)      (* new Error(msg) *)
| TypeError                     (* raised by the language itself *)
| SyntaxError                   (* raised by JSON.parse *)
| HostError (what : jsstring).  (* raised inside fs, sass or liquidjs *)

Inductive result (A : Type) : Type :=
| Ok (a : A)
| Throw (e : exn).
Arguments Ok {A} a.
Arguments Throw {A} e.

(** What leaves the engine, in order. *)
Inductive event : Type :=
| ConsoleLog (code : N) (ex : exn)                        (* console.log(code, ex) *)
| RenderFile (file : jsstring) (data : value)             (* liquid.renderFile *)
| ParseAndRender (tpl : value) (scope : value) (opts : value).

Record state : Type := State {
  random_calls : nat;       (* how often Math.random has been called *)
  trace : list event
}.

Definition M (A : Type) : Type := state -> result A * state.

Definition ret {A} (a : A) : M A := fun st => (Ok a, st).
Definition throw {A} (e : exn) : M A := fun st => (Throw e, st).
Definition bind {A B} (m : M A) (f : A -> M B) : M B :=
  fun st =>
    match m st with
    | (Ok a, st') => f a st'
    | (Throw e, st') => (Throw e, st')
    end.
Definition emit (e : event) : M unit :=
  fun st => (Ok tt, {| random_calls := random_calls st; trace := trace st ++ [e] |}).
Definition lift {A} (r : result A) : M A := fun st => (r, st).

Declare Scope js_scope.
Delimit Scope js_scope with js.
Notation "x <- m ;; k" := (bind m (fun x => k))
  (at level 61, m at next level, right associativity) : js_scope.
Notation "m ;;; k" := (bind m (fun _ => k))
  (at level 61, right associativity) : js_scope.
Open Scope js_scope.

(** A promise that has settled: [Ok] resolved, [Throw] rejected. *)
Definition settled (A : Type) : Type := result A.

(** [await m] inside an async function, and the promise an async function
    returns: its exceptions are rejections. *)
Definition promise_of {A} (m : M A) : M (settled A) :=
  fun st => let (r, st') := m st in (Ok r, st').

(** [p.then(f)] and [p.catch(h)] on a settled promise. *)
Definition then_ {A B} (p : settled A) (f : A -> M B) : M (settled B) :=
  match p with
  | Ok a => promise_of (f a)
  | Throw e => ret (Throw e)
  end.
Definition catch_ {A} (p : settled A) (h : exn -> M A) : M (settled A) :=
  match p with
  | Ok a => ret (Ok a)
  | Throw e => promise_of (h e)
  end.

(* ===================================================================== *)
(** * The host *)
(* ===================================================================== *)

(** What the engine calls and does not define: the language's own library,
    node's [fs] and [path], [sass], and liquidjs. A liquidjs render may parse
    other section tags on its way, so it sees and advances the count of
    [Math.random] calls. *)
Record Host : Type := {
  (* String.prototype.toLowerCase *)
  toLowerCase : jsstring -> jsstring;
  (* Number::toString, and parseFloat on a string *)
  numToString : number -> jsstring;
  parseFloatText : jsstring -> number;
  (* JSON.parse *)
  JSON_parse : jsstring -> result value;
  (* fs.existsSync, fs.readFileSync, path.join, process.cwd() *)
  existsSync : jsstring -> bool;
  readFileSync : jsstring -> result jsstring;
  path_join : list jsstring -> jsstring;
  process_cwd : jsstring;
  (* the n-th evaluation of Math.random().toString(36).substr(2, 9) *)
  random_id : nat -> jsstring;
  (* liquid.parseAndRender(tpl, scope, opts), liquid.renderFile(file, data) *)
  liquid_parseAndRender : value -> value -> value -> nat -> result jsstring * nat;
  liquid_renderFile : jsstring -> value -> nat -> result jsstring * nat;
  (* sass.render({ data }, callback): the css, or the error *)
  renderSass : jsstring -> result jsstring
}.

(** ToString, as a template literal applies it. *)
Fixpoint to_string (h : Host) (v : value) : jsstring :=
  match v with
  | Undefined => lit "undefined"
  | Null => lit "null"
  | Bool true => lit "true"
  | Bool false => lit "false"
  | Num x => numToString h x
  | Str s => s
  | Arr l =>
      (fix elements (l : list value) : jsstring :=
         match l with
         | [] => []
         | x :: l' =>
             let e := match x with
                      | Undefined | Null => []
                      | _ => to_string h x
                      end in
             match l' with
             | [] => e
             | _ :: _ => e ++ lit "," ++ elements l'
             end
         end) l
  | Obj _ => lit "[object Object]"
  end.

(* ===================================================================== *)
(** * The data of the engine *)
(* ===================================================================== *)

(** A liquidjs token: [name] is undefined unless the token is a tag. *)
Record token : Type := Token {
  name : option jsstring;
  args : jsstring;
  getText : jsstring
}.

(** The rendering context: [ctx.getAll()] and [ctx.opts]. *)
Record context : Type := Context { getAll : value; opts : value }.

(** What [usePatternLabConfig] leaves in the module's closure:
    [patternLabConfig.patternExtension], the directories [allPaths], and
    (variant A) [globalDataFilePath], undefined until the call is made. *)
Record config : Type := Config {
  patternExtension : value;
  allPaths : list jsstring;
  globalDataFilePath : option jsstring
}.

(** A pattern of the core: [pattern.template]. *)
Record pattern : Type := Pattern { pattern_template : jsstring }.

(** The section tag after [parse]: [this.namestr], [this.template]
    (undefined when the argument is not quoted), [this.sectionData]. *)
Record section_tag : Type := SectionTag {
  namestr : jsstring;
  template : value;
  sectionData : value
}.

(** The stylesheet tag after [parse]: [this.processor], [this.tokens]. *)
Record stylesheet_tag : Type := StylesheetTag {
  processor : jsstring;
  tokens : list token
}.

Section WithHost.

Variable h : Host.

(** [Math.random().toString(36).substr(2, 9)] *)
Definition fresh_id : M jsstring :=
  fun st =>
    (Ok (random_id h (random_calls st)),
     {| random_calls := S (random_calls st); trace := trace st |}).

Definition parseAndRender (tpl scope opts : value) : M jsstring :=
  emit (ParseAndRender tpl scope opts) ;;;
  fun st =>
    let (r, n) := liquid_parseAndRender h tpl scope opts (random_calls st) in
    (r, {| random_calls := n; trace := trace st |}).

Definition renderFile (file : jsstring) (data : value) : M jsstring :=
  emit (RenderFile file data) ;;;
  fun st =>
    let (r, n) := liquid_renderFile h file data (random_calls st) in
    (r, {| random_calls := n; trace := trace st |}).

(* ===================================================================== *)
(** * Tokens and the block scanner *)
(* ===================================================================== *)

(** [token.name === n] *)
Definition name_is (n : jsstring) (t : token) : bool :=
  match name t with
  | Some x => jseqb x n
  | None => false
  end.

(** A token that does not carry the name [n]. *)
Definition other (n : jsstring) (t : token) : bool := negb (name_is n t).

(** liquidjs's [ParseStream]: [start()] shifts tokens off the shared array
    and hands each to the 'token' handler until a handler has called
    [stop()]; when the array runs out first, the 'end' handler is called.
    A handler returns the tag's state and whether it asked to stop. *)
Section ParseStream.

Variable T : Type.
Variable on_token : token -> T -> result (T * bool).
Variable on_end : T -> result T.

Fixpoint stream_start (tokens : list token) (this : T)
  : result (T * list token) :=
  match tokens with
  | [] =>
      match on_end this with
      | Ok this' => Ok (this', [])
      | Throw e => Throw e
      end
  | t :: remain =>
      match on_token t this with
      | Throw e => Throw e
      | Ok (this', true) => Ok (this', remain)
      | Ok (this', false) => stream_start remain this'
      end
  end.

End ParseStream.

(** The two handlers every block tag of the source registers: they differ in
    the end-tag name only. *)
Definition block_on_token (endName : jsstring) (tok : token) (tokens : list token)
  : result (list token * bool) :=
  if name_is endName tok
  then Ok (tokens, true)                     (* stream.stop() *)
  else Ok (tokens ++ [tok], false).          (* this.tokens.push(token) *)

Definition block_on_end (tagToken : token) (tokens : list token)
  : result (list token) :=
  Throw (JsError (lit "tag " ++ getText tagToken ++ lit " not closed")).

(** The body of [parse] of a block tag: [this.tokens = []], the stream over
    [remainTokens], the handlers, [stream.start()]. The result is
    [this.tokens] and what is left of [remainTokens]. *)
Definition scan_block (endName : jsstring) (tagToken : token)
           (remainTokens : list token) : result (list token * list token) :=
  stream_start (block_on_token endName) (block_on_end tagToken) remainTokens [].

(** [this.tokens.map(token => token.getText()).join('')] *)
Definition content (tokens : list token) : jsstring :=
  join (List.map getText tokens).

(* ===================================================================== *)
(** * The tags *)
(* ===================================================================== *)

(** ** schema *)

Definition schema_open : jsstring :=
  lit "<script id=" ++ dquote ++ lit "schema" ++ dquote
    ++ lit " type=" ++ dquote ++ lit "application/json" ++ dquote ++ lit ">".
Definition script_close : jsstring := lit "</script>".

(** [parse] is the same text in both variants. *)
Definition schema_parse (tagToken : token) (remainTokens : list token)
  : result (list token * list token) :=
  scan_block (lit "endschema") tagToken remainTokens.

(** Variant A: [render(scope, hash)] does not use its arguments. *)
Definition schema_render_A (this_tokens : list token) (scope : context) : M value :=
  let content := content this_tokens in
  ret (Str (schema_open ++ content ++ script_close)).

(** Variant B: [return null]. *)
Definition schema_render_B (this_tokens : list token) (scope : context) : M value :=
  ret Null.

(** ** javascript and paginate (variant A) *)

Definition javascript_parse (tok : token) (remainTokens : list token)
  : result (list token * list token) :=
  scan_block (lit "endjavascript") tok remainTokens.

Definition javascript_render (this_tokens : list token) : M jsstring :=
  let text := content this_tokens in
  ret (lit "<script>" ++ text ++ script_close).

Definition paginate_parse (tagToken : token) (remainTokens : list token)
  : result (list token * list token) :=
  scan_block (lit "endpaginate") tagToken remainTokens.

Definition paginate_render (this_tokens : list token) (ctx : context) : M jsstring :=
  renderedContent <- parseAndRender (Str (content this_tokens)) (getAll ctx) (opts ctx) ;;
  ret renderedContent.

(** ** section *)

(** The pattern [/^'[^']*'|Q[^Q]*Q$/] of the source, Q standing for the
    double quote: the anchor ^ binds the left alternative only, the anchor $
    the right one only. *)
Definition quoted : RegExp.regex :=
  RegExp.Alt
    (RegExp.Seq RegExp.Bol
       (RegExp.Seq (RegExp.Cls (RegExp.only (ch "'")))
          (RegExp.Seq (RegExp.Star (RegExp.except (ch "'")))
             (RegExp.Cls (RegExp.only (ch "'"))))))
    (RegExp.Seq (RegExp.Cls (RegExp.only dq))
       (RegExp.Seq (RegExp.Star (RegExp.except dq))
          (RegExp.Seq (RegExp.Cls (RegExp.only dq)) RegExp.Eol))).

(** [if (quoted.exec(s)) { ... = s.slice(1, -1) }], on a field that is
    undefined before. *)
Definition quoted_name (s : jsstring) : value :=
  if RegExp.test quoted s then Str (slice 1 (-1) s) else Undefined.

(** The loop over [allPaths]: the first directory that holds
    [<template>.json]. *)
Fixpoint find_sidecar (dirs : list jsstring) (tpl : value) : option jsstring :=
  match dirs with
  | [] => None
  | directoryPath :: dirs' =>
      let filePath :=
        path_join h [process_cwd h; directoryPath; to_string h tpl ++ lit ".json"] in
      if existsSync h filePath then Some filePath else find_sidecar dirs' tpl
  end.

(** [{ ...block, id: Math.random().toString(36).substr(2, 9) }] *)
Definition stamp_block (block : value) : M value :=
  id <- fresh_id ;;
  ret (Obj (set_own (lit "id") (Str id) (own_props block))).

(** [a.map(f)], the calls in the order of the elements. *)
Fixpoint map_M (A B : Type) (f : A -> M B) (l : list A) : M (list B) :=
  match l with
  | [] => ret []
  | x :: l' => y <- f x ;; ys <- map_M f l' ;; ret (y :: ys)
  end.

(** [blocks ? blocks.map(...) : []]; only an array has [map]. *)
Definition stamp_blocks (blocks : value) : M value :=
  if truthy blocks then
    match blocks with
    | Arr l => bs <- map_M stamp_block l ;; ret (Arr bs)
    | _ => throw TypeError
    end
  else ret (Arr []).

(** The object literal assigned to [this.sectionData.section]. *)
Definition stamp_section (section : value) : M value :=
  id <- fresh_id ;;
  blocks <- stamp_blocks (get (lit "blocks") section) ;;
  ret (Obj (set_own (lit "blocks") blocks
              (set_own (lit "id") (Str id) (own_props section)))).

(** [o.k = v] on an object. *)
Definition assign (k : jsstring) (v : value) (o : value) : value :=
  match o with
  | Obj fs => Obj (set_own k v fs)
  | _ => o
  end.

(** What [parse] does once the sidecar has been read and parsed. *)
Definition stamp (data : value) : M value :=
  if truthy data && truthy (get (lit "section") data) then
    section <- stamp_section (get (lit "section") data) ;;
    ret (assign (lit "section") section data)
  else ret data.

(** [parse] is the same text in both variants. *)
Definition section_parse (cfg : config) (tok : token) : M section_tag :=
  let this_namestr := args tok in
  let this_template := quoted_name this_namestr in
  match find_sidecar (allPaths cfg) this_template with
  | None => ret (SectionTag this_namestr this_template (Obj []))
  | Some sectionDataFilePath =>
      text <- lift (readFileSync h sectionDataFilePath) ;;
      data <- lift (JSON_parse h text) ;;
      data' <- stamp data ;;
      ret (SectionTag this_namestr this_template data')
  end.

(** The pattern of [output.match]: the opening tag the schema tag writes,
    group 1 the longest run of any units (the s flag lets the dot match a
    line end), the closing tag. *)
Definition schemaRegex : RegExp.regex :=
  RegExp.Seq (RegExp.Lit schema_open)
    (RegExp.Seq (RegExp.Group 1 (RegExp.Star RegExp.any))
       (RegExp.Lit script_close)).

(** [/[^\w\u00C0-\u024f]+/g] and [/^-+|-+$/g] *)
Definition not_slug_char : jschar -> bool :=
  fun x => negb (RegExp.word x || RegExp.between 192 591 x).
Definition nonWordRun : RegExp.regex := RegExp.Plus not_slug_char.
Definition edgeHyphens : RegExp.regex :=
  RegExp.Alt (RegExp.Seq RegExp.Bol (RegExp.Plus (RegExp.only (ch "-"))))
             (RegExp.Seq (RegExp.Plus (RegExp.only (ch "-"))) RegExp.Eol).

(** [s.toLowerCase().replace(/[^\w\u00C0-\u024f]+/g, "-").replace(/^-+|-+$/g, '')] *)
Definition slug (s : jsstring) : jsstring :=
  RegExp.replace_g edgeHyphens (fun _ => [])
    (RegExp.replace_g nonWordRun (fun _ => lit "-") (toLowerCase h s)).

(** [schemaRegex && schemaRegex[1] ? JSON.parse(schemaRegex[1]) : null] *)
Definition embedded_schema (output : jsstring) : M value :=
  match RegExp.exec schemaRegex output with
  | Some m =>
      match RegExp.group 1 (RegExp.groups m) with
      | Some (c :: g) => lift (JSON_parse h (c :: g))
      | _ => ret Null
      end
  | None => ret Null
  end.

(** Variant A. Reading [schema.name] of null, and calling [toLowerCase] on
    what is not a string, raise a TypeError. *)
Definition section_render_A (cfg : config) (this : section_tag) (ctx : context)
  : M jsstring :=
  output <- renderFile
              (to_string h (template this) ++ lit "."
                 ++ to_string h (patternExtension cfg))
              (sectionData this) ;;
  schema <- embedded_schema output ;;
  match schema with
  | Null | Undefined => throw TypeError
  | _ =>
      match get (lit "name") schema with
      | Str n =>
          ret (lit "<div id=" ++ dquote ++ lit "shopify-section-" ++ slug n
                 ++ dquote ++ lit " class=" ++ dquote ++ lit "shopify-section"
                 ++ (if truthy (get (lit "class") schema)
                     then lit " " ++ to_string h (get (lit "class") schema)
                     else [])
                 ++ dquote ++ lit ">" ++ output ++ lit "</div>")
      | _ => throw TypeError
      end
  end.

(** Variant B. *)
Definition section_render_B (cfg : config) (this : section_tag) (ctx : context)
  : M jsstring :=
  name <- parseAndRender (template this) (getAll ctx) (opts ctx) ;;
  match name with
  | [] => throw (JsError (lit "cannot include with empty filename"))
  | _ :: _ =>
      renderFile (name ++ lit "." ++ to_string h (patternExtension cfg))
                 (sectionData this)
  end.

(** ** stylesheet (variant A) *)

Definition stylesheet_parse (tok : token) (remainTokens : list token)
  : result (stylesheet_tag * list token) :=
  let this_processor := args tok in
  match scan_block (lit "endstylesheet") tok remainTokens with
  | Ok (this_tokens, remain) => Ok (StylesheetTag this_processor this_tokens, remain)
  | Throw e => Throw e
  end.

(** The two functions the object literal [processors] holds. *)
Inductive pipeline : Type :=
| Identity          (* x => x *)
| SassProcessor.    (* sassProcessor *)

(** What [processors] inherits: the members of [Object.prototype]. *)
Inductive inherited : Type :=
| ObjectConstructor       (* constructor, the function Object *)
| ProtoToString           (* toString *)
| ProtoIsPrototypeOf      (* isPrototypeOf *)
| ProtoNeedsThis          (* a method that starts by ToObject(this) *)
| ProtoObject.            (* __proto__: Object.prototype itself, no function *)

(** [processors[key]]: an own property, an inherited one, or undefined. *)
Inductive looked_up : Type :=
| Own (p : pipeline)
| Inherited (m : inherited)
| NotThere.

Fixpoint assoc (A : Type) (k : jsstring) (l : list (jsstring * A)) : option A :=
  match l with
  | [] => None
  | (k', a) :: l' => if jseqb k' k then Some a else assoc k l'
  end.

(** [{ '': x => x, 'sass': sassProcessor, 'scss': sassProcessor }] *)
Definition processors : list (jsstring * pipeline) :=
  [ ([], Identity); (lit "sass", SassProcessor); (lit "scss", SassProcessor) ].

(** The properties of [Object.prototype], which every object literal has
    as its prototype. *)
Definition Object_prototype : list (jsstring * inherited) :=
  [ (lit "constructor", ObjectConstructor);
    (lit "__defineGetter__", ProtoNeedsThis);
    (lit "__defineSetter__", ProtoNeedsThis);
    (lit "hasOwnProperty", ProtoNeedsThis);
    (lit "__lookupGetter__", ProtoNeedsThis);
    (lit "__lookupSetter__", ProtoNeedsThis);
    (lit "isPrototypeOf", ProtoIsPrototypeOf);
    (lit "propertyIsEnumerable", ProtoNeedsThis);
    (lit "toString", ProtoToString);
    (lit "valueOf", ProtoNeedsThis);
    (lit "__proto__", ProtoObject);
    (lit "toLocaleString", ProtoNeedsThis) ].

(** Property lookup walks the prototype chain. *)
Definition processors_get (key : jsstring) : looked_up :=
  match assoc key processors with
  | Some p => Own p
  | None =>
      match assoc key Object_prototype with
      | Some m => Inherited m
      | None => NotThere
      end
  end.

(** [`${await p(text)}`] for an inherited [p], called as a plain function in
    strict code ([this] is undefined): [Object(text)] wraps the string,
    [toString] names the class of undefined, [isPrototypeOf] answers false
    for a string, the others fail on [this], and an object cannot be
    called. *)
Definition call_inherited (m : inherited) (text : jsstring) : M jsstring :=
  match m with
  | ObjectConstructor => ret text
  | ProtoToString => ret (lit "[object Undefined]")
  | ProtoIsPrototypeOf => ret (lit "false")
  | ProtoNeedsThis => throw TypeError
  | ProtoObject => throw TypeError
  end.

Definition call_pipeline (p : pipeline) (text : jsstring) : M jsstring :=
  match p with
  | Identity => ret text
  | SassProcessor => lift (renderSass h text)
  end.

Definition stylesheet_render (this : stylesheet_tag) (ctx : context) : M jsstring :=
  processor <-
    (if RegExp.test quoted (processor this)
     then let template := slice 1 (-1) (processor this) in
          parseAndRender (Str template) (getAll ctx) (opts ctx)
     else ret []) ;;
  let text := content (tokens this) in
  match processors_get processor with
  | NotThere =>
      throw (JsError (lit "processor for " ++ processor ++ lit " not found"))
  | Own p =>
      css <- call_pipeline p text ;;
      ret (lit "<style>" ++ css ++ lit "</style>")
  | Inherited m =>
      css <- call_inherited m text ;;
      ret (lit "<style>" ++ css ++ lit "</style>")
  end.

(* ===================================================================== *)
(** * The filters *)
(* ===================================================================== *)

(** [value => `/assets/${value}`] (both variants) *)
Definition asset_url (v : value) : value :=
  Str (lit "/assets/" ++ to_string h v).

(** [value => typeof value === 'object' ? value.src : value]; null is an
    object to [typeof], and has no properties to read. *)
Definition img_url (v : value) : result value :=
  match v with
  | Null => Throw TypeError
  | Arr _ | Obj _ => Ok (get (lit "src") v)
  | _ => Ok v
  end.

(** [value => value && value.toLowerCase().replace(...).replace(...)] *)
Definition handle (v : value) : result value :=
  if truthy v then
    match v with
    | Str s => Ok (Str (slug s))
    | _ => Throw TypeError
    end
  else Ok v.

(** [parseFloat(v)]: the text of [v] is parsed. *)
Definition parseFloat (v : value) : number := parseFloatText h (to_string h v).

(** [value => value && `$${parseFloat(value) / 100}`] *)
Definition money (v : value) : value :=
  if truthy v
  then Str (lit "$" ++ numToString h (num_div (parseFloat v) (num_of_Z 100)))
  else v.

(* ===================================================================== *)
(** * renderPattern *)
(* ===================================================================== *)

(** Variant A. The first statement runs before the promise exists: what it
    throws leaves [renderPattern] as an exception. *)
Definition renderPattern_A (cfg : config) (p : pattern) (data : value)
  : M (settled value) :=
  text <- match globalDataFilePath cfg with
          | Some f => lift (readFileSync h f)
          | None => throw TypeError
          end ;;
  globalData <- lift (JSON_parse h text) ;;
  let globals :=
    Obj (set_own (lit "is_patternlab") (Bool true) (own_props globalData)) in
  rendered <- promise_of
                (parseAndRender (Str (pattern_template p)) data
                   (Obj [(lit "globals", globals)])) ;;
  returned <- then_ rendered (fun html => ret (Str html)) ;;
  catch_ returned (fun ex => emit (ConsoleLog 40 ex) ;;; ret Undefined).

(** Variant B. *)
Definition renderPattern_B (p : pattern) (data : value) : M (settled value) :=
  rendered <- promise_of
                (parseAndRender (Str (pattern_template p)) data Undefined) ;;
  returned <- then_ rendered (fun html => ret (Str html)) ;;
  catch_ returned (fun ex => emit (ConsoleLog 40 ex) ;;; ret Undefined).

End WithHost.

(* ===================================================================== *)
(** * The pattern-based name extractor *)
(* ===================================================================== *)

(** [findPartial_new]: [partialString.replace(this.findPartialRE, '$1')]
    (the same text in both variants). *)
Definition findPartial_new (findPartialRE : RegExp.regexp)
           (partialString : jsstring) : jsstring :=
  RegExp.replace findPartialRE (RegExp.dollar1 (RegExp.source findPartialRE))
    partialString.

(** The units of a reference name: no blank, brace, parenthesis or colon;
    those of a style modifier: no blank, brace or parenthesis. *)
Definition name_unit : jschar -> bool :=
  fun x => negb (N.eqb x (ch " ") || N.eqb x (ch "{") || N.eqb x (ch "}")
                 || N.eqb x (ch "(") || N.eqb x (ch ":")).
Definition modifier_unit : jschar -> bool :=
  fun x => negb (N.eqb x (ch " ") || N.eqb x (ch "{") || N.eqb x (ch "}")
                 || N.eqb x (ch "(")).

(** Modelled from the spec: [utils.partialRE] of [./util_liquid], a file the
    engine requires and that is not among the sources. Section 4.1 gives the
    shape of a partial reference: include marker, reference name, optional
    style-modifier, optional parameter list, end marker; the extractor
    yields the bare reference name, here group 1. The markers are the ones
    [findPartial] strips, a colon starts the style modifier and a
    parenthesis the parameter list:
    [/{{> ?([^ {}(:]+)(?::[^ {}(]+)?(?:\(.*\))? ?}}/g]. *)
Definition partialRE : RegExp.regexp :=
  {| RegExp.source :=
       RegExp.Seq (RegExp.Lit (lit "{{>"))
      (RegExp.Seq (RegExp.Opt (RegExp.Cls (RegExp.only (ch " "))))
      (RegExp.Seq (RegExp.Group 1 (RegExp.Plus name_unit))
      (RegExp.Seq (RegExp.Opt (RegExp.Seq (RegExp.Cls (RegExp.only (ch ":")))
                                          (RegExp.Plus modifier_unit)))
      (RegExp.Seq (RegExp.Opt (RegExp.Seq (RegExp.Cls (RegExp.only (ch "(")))
                              (RegExp.Seq (RegExp.Star RegExp.dot)
                                          (RegExp.Cls (RegExp.only (ch ")"))))))
      (RegExp.Seq (RegExp.Opt (RegExp.Cls (RegExp.only (ch " "))))
                  (RegExp.Lit (lit "}}")))))));
     RegExp.global := true |}.

(** A partial reference, piece by piece, and its text. *)
Record partial_ref : Type := PartialRef {
  space_after_open : bool;
  ref_name : jsstring;
  style_modifier : option jsstring;
  parameter_list : option jsstring;
  space_before_close : bool
}.

Definition optional_space (b : bool) : jsstring := if b then lit " " else [].

Definition ref_text (r : partial_ref) : jsstring :=
  lit "{{>" ++ optional_space (space_after_open r) ++ ref_name r
    ++ match style_modifier r with Some m => lit ":" ++ m | None => [] end
    ++ match parameter_list r with Some p => lit "(" ++ p ++ lit ")" | None => [] end
    ++ optional_space (space_before_close r) ++ lit "}}".

Definition nonempty (s : jsstring) : bool :=
  match s with [] => false | _ :: _ => true end.

(** Well-formed: a name and a modifier of at least one unit each, free of
    blanks, braces and parentheses (the name free of colons too), and a
    parameter list on one line. *)
Definition well_formed (r : partial_ref) : bool :=
  nonempty (ref_name r) && forallb name_unit (ref_name r)
  && match style_modifier r with
     | Some m => nonempty m && forallb modifier_unit m
     | None => true
     end
  && match parameter_list r with
     | Some p => forallb RegExp.dot p
     | None => true
     end.

(* ===================================================================== *)
(** * A host to run the engine on *)
(* ===================================================================== *)

Module Demo.

(** Lower case for the letters A to Z. *)
Definition lower (s : jsstring) : jsstring :=
  List.map (fun c => if RegExp.between 65 90 c then (c + 32)%N else c) s.

(** The decimal text of a float that is a whole number, and back. *)
Definition show (x : number) : jsstring :=
  match x with
  | S754_zero _ => lit "0"
  | S754_finite sign m e =>
      let z := Z.shiftl (Zpos m) e in
      if Z.eqb (Z.shiftl z (- e)) (Zpos m)
      then (if sign then lit "-" else [])
             ++ lit (NilZero.string_of_uint (N.to_uint (Z.to_N z)))
      else lit "(a fraction)"
  | S754_infinity false => lit "Infinity"
  | S754_infinity true => lit "-Infinity"
  | S754_nan => lit "NaN"
  end.

Fixpoint digits (acc : Z) (seen : bool) (s : jsstring) : number :=
  match s with
  | c :: s' =>
      if RegExp.between 48 57 c
      then digits (10 * acc + Z.of_N (c - 48)) true s'
      else if seen then num_of_Z acc else S754_nan
  | [] => if seen then num_of_Z acc else S754_nan
  end.

Definition read (s : jsstring) : number := digits 0 false s.

(** The files of the demonstration: a sidecar with a section of two blocks,
    one with a section and no blocks, one whose blocks are null, and the
    global data. *)
Definition hero_blocks : list value :=
  [ Obj [ (lit "type", Str (lit "image")) ];
    Obj [ (lit "id", Str (lit "old")); (lit "type", Str (lit "text")) ] ].

Definition hero_section : list (jsstring * value) :=
  [ (lit "heading", Str (lit "Hello"));
    (lit "id", Str (lit "stale"));
    (lit "blocks", Arr hero_blocks) ].

Definition hero_fields : list (jsstring * value) :=
  [ (lit "title", Str (lit "Home")); (lit "section", Obj hero_section) ].

Definition hero : value := Obj hero_fields.

Definition plain : value :=
  Obj [ (lit "section", Obj [ (lit "heading", Str (lit "Hello")) ]) ].

Definition bare : value :=
  Obj [ (lit "section",
         Obj [ (lit "blocks", Null); (lit "heading", Str (lit "Hello")) ]) ].

Definition schema_json : value :=
  Obj [ (lit "name", Str (lit "Hero Banner")); (lit "class", Str (lit "wide")) ].

Definition files : list (jsstring * jsstring) :=
  [ (lit "/site/sections/hero.json", lit "HERO");
    (lit "/site/sections/plain.json", lit "PLAIN");
    (lit "/site/sections/bare.json", lit "BARE");
    (lit "/site/data/data.json", lit "GLOBALS") ].

Definition parse_json (text : jsstring) : result value :=
  if jseqb text (lit "HERO") then Ok hero
  else if jseqb text (lit "PLAIN") then Ok plain
  else if jseqb text (lit "BARE") then Ok bare
  else if jseqb text (lit "GLOBALS") then Ok (Obj [ (lit "shop", Str (lit "demo")) ])
  else if jseqb text (lit "{SCHEMA}") then Ok schema_json
  else Throw SyntaxError.

Definition exists_file (f : jsstring) : bool :=
  match assoc f files with Some _ => true | None => false end.

Definition read_file (f : jsstring) : result jsstring :=
  match assoc f files with
  | Some text => Ok text
  | None => Throw (HostError (lit "ENOENT"))
  end.

Fixpoint join_path (l : list jsstring) : jsstring :=
  match l with
  | [] => []
  | [x] => x
  | x :: l' => x ++ lit "/" ++ join_path l'
  end.

(** A template without tags renders to itself; [missing] does not parse. *)
Definition parse_and_render (tpl scope opts : value) (n : nat)
  : result jsstring * nat :=
  match tpl with
  | Str s => if jseqb s (lit "{% missing") then (Throw (HostError (lit "parse")), n)
             else (Ok s, n)
  | _ => (Throw TypeError, n)
  end.

(** [hero.liquid] ends with a schema block, [plain.liquid] has none. *)
Definition render_file (file : jsstring) (data : value) (n : nat)
  : result jsstring * nat :=
  if jseqb file (lit "hero.liquid")
  then (Ok (lit "<h1>Hello</h1>" ++ schema_open ++ lit "{SCHEMA}" ++ script_close), n)
  else if jseqb file (lit "plain.liquid") then (Ok (lit "<p>Hello</p>"), n)
  else (Throw (HostError (lit "ENOENT")), n).

Definition host : Host :=
  {| toLowerCase := lower;
     numToString := show;
     parseFloatText := read;
     JSON_parse := parse_json;
     existsSync := exists_file;
     readFileSync := read_file;
     path_join := join_path;
     process_cwd := lit "/site";
     random_id := fun n => lit "r" ++ index_key n;
     liquid_parseAndRender := parse_and_render;
     liquid_renderFile := render_file;
     renderSass := fun data => Ok (lit "/* css */" ++ data) |}.

Definition cfg : config :=
  {| patternExtension := Str (lit "liquid");
     allPaths := [lit "atoms"; lit "sections"];
     globalDataFilePath := Some (lit "/site/data/data.json") |}.

Definition ctx : context := Context (Obj []) Undefined.
Definition start : state := State 0 [].

Definition tag (tagName tagArgs : string) : token :=
  Token (Some (lit tagName)) (lit tagArgs) (lit "{% " ++ lit tagName ++ lit " " ++ lit tagArgs ++ lit " %}").
Definition html (text : string) : token := Token None [] (lit text).

End Demo.

(* ===================================================================== *)
(** * The vocabulary of the properties *)
(* ===================================================================== *)

(** The text begins with a complete single-quoted segment. *)
Definition single_quoted_head (s : jsstring) : Prop :=
  exists body rest,
    s = ch "'" :: body ++ ch "'" :: rest
    /\ forallb (RegExp.except (ch "'")) body = true.

(** The text ends with a complete double-quoted segment. *)
Definition double_quoted_tail (s : jsstring) : Prop :=
  exists pre body,
    s = pre ++ dq :: body ++ [dq]
    /\ forallb (RegExp.except dq) body = true.

(** The text holds a schema script block. *)
Definition has_schema_block (output : jsstring) : Prop :=
  exists pre body post,
    output = pre ++ schema_open ++ body ++ script_close ++ post.

(** The list [section.blocks ? section.blocks.map(...) : []] maps over: none
    when [blocks] is truthy and not an array. *)
Definition blocks_of (section : value) : option (list value) :=
  if truthy (get (lit "blocks") section) then
    match get (lit "blocks") section with
    | Arr l => Some l
    | _ => None
    end
  else Some [].

(** The blocks once stamped, the first with the n-th random identifier. *)
Fixpoint stamped_blocks (h : Host) (n : nat) (bl : list value) : list value :=
  match bl with
  | [] => []
  | b :: bl' =>
      Obj (set_own (lit "id") (Str (random_id h n)) (own_props b))
        :: stamped_blocks h (S n) bl'
  end.

(** [data.section.id], and the [id] of every entry of [data.section.blocks]. *)
Definition section_id (data : value) : value :=
  get (lit "id") (get (lit "section") data).
Definition block_ids (data : value) : list value :=
  match get (lit "blocks") (get (lit "section") data) with
  | Arr l => List.map (get (lit "id")) l
  | _ => []
  end.

(** The own properties [fs'] are those of the loaded [fs], whose section
    [sfs] has the blocks [bl], after stamping with the random identifiers
    from the n-th on: outside [section] nothing changes; in the section,
    [id] is the n-th identifier, [blocks] the list of stamped blocks, and
    the other properties are those of [sfs]; the i-th block has the
    (n+1+i)-th identifier for [id] and otherwise the properties of the
    loaded block. *)
Definition stamped_as (h : Host) (n : nat) (fs sfs : list (jsstring * value))
           (bl : list value) (fs' : list (jsstring * value)) : Prop :=
  exists sfs' bl',
    (forall k, k <> lit "section" -> get_own k fs' = get_own k fs)
    /\ get_own (lit "section") fs' = Some (Obj sfs')
    /\ get_own (lit "id") sfs' = Some (Str (random_id h n))
    /\ get_own (lit "blocks") sfs' = Some (Arr bl')
    /\ (forall k, k <> lit "id" -> k <> lit "blocks" ->
                  get_own k sfs' = get_own k sfs)
    /\ length bl' = length bl
    /\ (forall i b,
           nth_error bl i = Some b ->
           exists bfs',
             nth_error bl' i = Some (Obj bfs')
             /\ get_own (lit "id") bfs' = Some (Str (random_id h (n + 1 + i)))
             /\ forall k, k <> lit "id" ->
                          get_own k bfs' = get_own k (own_props b)).

(** The data the engine was asked to render files with, in order. *)
Fixpoint rendered_data (tr : list event) : list value :=
  match tr with
  | [] => []
  | RenderFile _ data :: tr' => data :: rendered_data tr'
  | _ :: tr' => rendered_data tr'
  end.

(** Two lists of own properties agree on every key outside [keys]. *)
Definition agree_off (keys : list jsstring) (a b : list (jsstring * value))
  : Prop :=
  forall k, ~ In k keys -> get_own k a = get_own k b.

(** Two blocks, then two section data, that differ at most in [id]s: the
    [id] of the section and of each entry of its [blocks]. *)
Definition same_block_but_id (b1 b2 : value) : Prop :=
  exists f1 f2, b1 = Obj f1 /\ b2 = Obj f2 /\ agree_off [lit "id"] f1 f2.

Definition same_but_ids (d1 d2 : value) : Prop :=
  exists fs1 fs2 sfs1 sfs2 bl1 bl2,
    d1 = Obj fs1 /\ d2 = Obj fs2
    /\ agree_off [lit "section"] fs1 fs2
    /\ get_own (lit "section") fs1 = Some (Obj sfs1)
    /\ get_own (lit "section") fs2 = Some (Obj sfs2)
    /\ agree_off [lit "id"; lit "blocks"] sfs1 sfs2
    /\ get_own (lit "blocks") sfs1 = Some (Arr bl1)
    /\ get_own (lit "blocks") sfs2 = Some (Arr bl2)
    /\ Forall2 same_block_but_id bl1 bl2.

(** The random identifiers from the n-th on, [count] of them. *)
Definition random_ids (h : Host) (n count : nat) : list value :=
  List.map (fun i => Str (random_id h (n + i))) (seq 0 count).

(** The data a parse of the section tag leaves in [this.sectionData]. *)
Definition parsed_data (r : result section_tag * state) : value :=
  match fst r with
  | Ok this => sectionData this
  | Throw _ => Undefined
  end.

(** The section data a parse leaves, in closed form: the loaded properties
    [fs], their section [sfs] with the n-th random identifier for [id] and
    the stamped [bl] for [blocks]. *)
Definition stamped (h : Host) (fs sfs : list (jsstring * value))
           (bl : list value) (n : nat) : value :=
  Obj (set_own (lit "section")
         (Obj (set_own (lit "blocks") (Arr (stamped_blocks h (S n) bl))
                 (set_own (lit "id") (Str (random_id h n)) sfs)))
         fs).

(** The four replacements at the head of [findPartial]. *)
Definition strip_cruft (partialString : jsstring) : jsstring :=
  replace_first (lit "}}") []
    (replace_first (lit "{{>") []
       (replace_first (lit " }}") []
          (replace_first (lit "{{> ") [] partialString))).

(** A unit that opens none of the markers: no blank, no brace. *)
Definition plain_unit : jschar -> bool :=
  fun x => negb (N.eqb x (ch " ") || N.eqb x (ch "{") || N.eqb x (ch "}")).

(** The pattern starts with the unit [x] (an empty pattern starts anywhere). *)
Definition starts (pat : jsstring) (x : jschar) : bool :=
  match pat with
  | c :: _ => N.eqb c x
  | [] => true
  end.

(** The name of a reference with its style modifier, as written. *)
Definition decorated_name (r : partial_ref) : jsstring :=
  ref_name r
    ++ match style_modifier r with Some m => lit ":" ++ m | None => [] end.

(** The rest of [findPartial]: the parameter list cut off at the first
    parenthesis, when there is one past the first unit, then the style
    modifier at the first colon. *)
Definition drop_decoration (foundPatternPartial : jsstring) : jsstring :=
  let foundPatternPartial :=
    if (indexOf (ch "(") foundPatternPartial >? 0)%Z
    then substring 0 (indexOf (ch "(") foundPatternPartial) foundPatternPartial
    else foundPatternPartial in
  nth 0 (split (ch ":") foundPatternPartial) [].

(** What follows the decorated name in the text of a reference. *)
Definition after_name (r : partial_ref) : jsstring :=
  match parameter_list r with Some p => lit "(" ++ p ++ lit ")" | None => [] end
    ++ optional_space (space_before_close r) ++ lit "}}".

(** The match JavaScript finds first for [r] on the text [s], from any
    position and with the groups [cs] so far, leaves [s'] ahead and the
    groups [cs']. *)
Definition leads (r : RegExp.regex) (s : jsstring) (cs : list (nat * jsstring))
           (s' : jsstring) (cs' : list (nat * jsstring)) : Prop :=
  forall i, exists j l,
    RegExp.ends r (RegExp.MState i s cs) = RegExp.MState j s' cs' :: l.

(** A greedy repetition of the class [p] stops in front of [s]. *)
Definition stops (p : jschar -> bool) (s : jsstring) : bool :=
  match s with
  | [] => true
  | c :: _ => negb (p c)
  end.

(** The file the section tag looks for in the directory [d]. *)
Definition sidecar_path (h : Host) (d : jsstring) (tpl : value) : jsstring :=
  path_join h [process_cwd h; d; to_string h tpl ++ lit ".json"].

(** A unit that is neither quote. *)
Definition no_quote : jschar -> bool :=
  fun x => negb (N.eqb x (ch "'")) && negb (N.eqb x dq).

(** A second host for demonstrations: the files of [Demo] and three more
    sidecars, one that is not JSON, one whose blocks are keyed by name, and
    one without a section. *)
Module Demo2.

Definition keyed : value :=
  Obj [ (lit "section",
         Obj [ (lit "blocks",
                Obj [ (lit "first", Obj [ (lit "type", Str (lit "image")) ]) ]) ]) ].

Definition settings : value := Obj [ (lit "title", Str (lit "Home")) ].

Definition files : list (jsstring * jsstring) :=
  (lit "/site/sections/broken.json", lit "{")
    :: (lit "/site/sections/keyed.json", lit "KEYED")
    :: (lit "/site/sections/settings.json", lit "SETTINGS")
    :: (lit "/site/atoms/undefined.json", lit "SETTINGS")
    :: Demo.files.

Definition parse_json (text : jsstring) : result value :=
  if jseqb text (lit "KEYED") then Ok keyed
  else if jseqb text (lit "SETTINGS") then Ok settings
  else Demo.parse_json text.

Definition host : Host :=
  {| toLowerCase := Demo.lower;
     numToString := Demo.show;
     parseFloatText := Demo.read;
     JSON_parse := parse_json;
     existsSync := fun f => match assoc f files with Some _ => true | None => false end;
     readFileSync := fun f => match assoc f files with
                              | Some text => if jseqb f (lit "/site/sections/hero.json")
                                             then Throw (HostError (lit "EACCES"))
                                             else Ok text
                              | None => Throw (HostError (lit "ENOENT"))
                              end;
     path_join := Demo.join_path;
     process_cwd := lit "/site";
     random_id := fun n => lit "r" ++ index_key n;
     liquid_parseAndRender := Demo.parse_and_render;
     liquid_renderFile := Demo.render_file;
     renderSass := fun data => Throw (HostError (lit "sass")) |}.

End Demo2.

(* ===================================================================== *)
(** * The matchers *)
(* ===================================================================== *)

(** The texts of all the matches of a pattern, left to right, as
    [s.match(r)] collects them for a pattern with the g flag; after an empty
    match the search moves one unit on. *)
Fixpoint match_loop (fuel : nat) (r : RegExp.regex) (i : nat) (s : jsstring)
  : list jsstring :=
  match fuel with
  | 0 => []
  | S fuel' =>
      match RegExp.exec_from r i s with
      | None => []
      | Some m =>
          let k := RegExp.index m - i in
          match RegExp.matched m with
          | [] =>
              match skipn k s with
              | [] => [[]]
              | _ :: t => [] :: match_loop fuel' r (S (RegExp.index m)) t
              end
          | _ :: _ =>
              let n := length (RegExp.matched m) in
              RegExp.matched m
                :: match_loop fuel' r (RegExp.index m + n) (skipn (k + n) s)
          end
      end
  end.

(** [s.match(re)]: null without a match; with the g flag the array of the
    matched texts; without it the array of [exec], the match and then each
    group, undefined when the group took no part. *)
Definition string_match (re : RegExp.regexp) (s : jsstring) : value :=
  if RegExp.global re then
    match match_loop (S (length s)) (RegExp.source re) 0 s with
    | [] => Null
    | l => Arr (List.map Str l)
    end
  else
    match RegExp.exec (RegExp.source re) s with
    | None => Null
    | Some m =>
        Arr (Str (RegExp.matched m)
               :: List.map
                    (fun k => match RegExp.group k (RegExp.groups m) with
                              | Some g => Str g
                              | None => Undefined
                              end)
                    (seq 1 (RegExp.group_count (RegExp.source re))))
    end.

(** [patternMatcher] (the same text in both variants): [typeof null] is
    ['object'], and null has no [template] to read. *)
Definition patternMatcher (p : value) (regex : RegExp.regexp) : result value :=
  match p with
  | Str s => Ok (string_match regex s)
  | Null => Throw TypeError
  | Arr _ | Obj _ =>
      match get (lit "template") p with
      | Str t => Ok (string_match regex t)
      | _ => Ok Undefined
      end
  | _ => Ok Undefined
  end.

(** The patterns the engine object holds, all from [util_liquid]. *)
Record matchers : Type := Matchers {
  findPartialsRE : RegExp.regexp;
  findPartialsWithStyleModifiersRE : RegExp.regexp;
  findPartialsWithPatternParametersRE : RegExp.regexp;
  findListItemsRE : RegExp.regexp;
  findPartialRE : RegExp.regexp
}.

Definition findPartials (this : matchers) (p : value) : result value :=
  patternMatcher p (findPartialsRE this).
Definition findPartialsWithStyleModifiers (this : matchers) (p : value)
  : result value :=
  patternMatcher p (findPartialsWithStyleModifiersRE this).
Definition findPartialsWithPatternParameters (this : matchers) (p : value)
  : result value :=
  patternMatcher p (findPartialsWithPatternParametersRE this).
Definition findListItems (this : matchers) (p : value) : result value :=
  patternMatcher p (findListItemsRE this).

(* ===================================================================== *)
(** * The setup: usePatternLabConfig, spawnMeta *)
(* ===================================================================== *)

(** What the setup reads of node's [fs] besides the host:
    [fs.readdirSync(p)] and [fs.lstatSync(p).isDirectory()]. *)
Record Disk : Type := {
  readdirSync : jsstring -> result (list jsstring);
  lstat_isDirectory : jsstring -> result bool
}.

(** The configuration object of the core: [config.paths.source.patterns],
    [.data], [.meta], and [config.patternExtension]. *)
Record core_config : Type := CoreConfig {
  paths_source_patterns : jsstring;
  paths_source_data : jsstring;
  paths_source_meta : jsstring;
  core_patternExtension : value
}.

(** What the setup leaves: the closure the tags read, the globals of the
    engine, the names of the tags and filters it registers. *)
Record setup : Type := Setup {
  closure : config;
  engine_globals : value;
  registered_tags : list jsstring;
  registered_filters : list jsstring
}.

(** [a.filter(f)], the calls in the order of the elements. *)
Fixpoint filter_R (f : jsstring -> result bool) (l : list jsstring)
  : result (list jsstring) :=
  match l with
  | [] => Ok []
  | x :: l' =>
      match f x with
      | Throw e => Throw e
      | Ok keep =>
          match filter_R f l' with
          | Throw e => Throw e
          | Ok r => Ok (if keep then x :: r else r)
          end
      end
  end.

Section Setup.

Variables (h : Host) (d : Disk).

(** [getDirectories]: the entries of [source] that are directories. *)
Definition getDirectories (source : jsstring) : result (list jsstring) :=
  match readdirSync d source with
  | Throw e => Throw e
  | Ok names =>
      filter_R (lstat_isDirectory d)
               (List.map (fun name => path_join h [source; name]) names)
  end.

(** [dirs.reduce((allDirs, dir) => [...allDirs, ...getDirectories(dir)],
    allDirs)] *)
Fixpoint reduce_dirs (allDirs dirs : list jsstring) : result (list jsstring) :=
  match dirs with
  | [] => Ok allDirs
  | dir :: dirs' =>
      match getDirectories dir with
      | Throw e => Throw e
      | Ok subs => reduce_dirs (allDirs ++ subs) dirs'
      end
  end.

(** [s.slice(a)] *)
Definition slice_from (a : Z) (s : jsstring) : jsstring :=
  slice a (Z.of_nat (length s)) s.

(** [if (patternsPath.slice(-1) === '/') patternsPath = patternsPath.slice(0, -1)] *)
Definition without_trailing_slash (patternsPath : jsstring) : jsstring :=
  if jseqb (slice_from (-1) patternsPath) (lit "/")
  then slice 0 (-1) patternsPath
  else patternsPath.

(** The directories the section tag searches. *)
Definition all_paths (patternsPath : jsstring) : result (list jsstring) :=
  match getDirectories (without_trailing_slash patternsPath) with
  | Throw e => Throw e
  | Ok rootDirectories => reduce_dirs rootDirectories rootDirectories
  end.

(** The globals handed to the engine: [{ ...globalData, is_patternlab: true }] *)
Definition globals_of (globalData : value) : value :=
  Obj (set_own (lit "is_patternlab") (Bool true) (own_props globalData)).

(** Variant A: the global data file is read before the directories. *)
Definition usePatternLabConfig_A (c : core_config) : result setup :=
  let globalDataFilePath :=
    path_join h [process_cwd h; paths_source_data c; lit "data.json"] in
  match readFileSync h globalDataFilePath with
  | Throw e => Throw e
  | Ok text =>
      match JSON_parse h text with
      | Throw e => Throw e
      | Ok globalData =>
          match all_paths (paths_source_patterns c) with
          | Throw e => Throw e
          | Ok allPaths =>
              Ok {| closure := Config (core_patternExtension c) allPaths
                                      (Some globalDataFilePath);
                    engine_globals := globals_of globalData;
                    registered_tags :=
                      [lit "form"; lit "paginate"; lit "schema"; lit "section";
                       lit "stylesheet"; lit "javascript"];
                    registered_filters :=
                      [lit "asset_url"; lit "img_url"; lit "handle"; lit "money"] |}
          end
      end
  end.

(** Variant B: the global data comes from [require], which node answers
    from its module cache once the file has been loaded; the loader is a
    parameter, not a read of the file system. *)
Definition usePatternLabConfig_B (require : jsstring -> result value)
           (c : core_config) : result setup :=
  match require (path_join h [process_cwd h; paths_source_data c;
                              lit "data.json"]) with
  | Throw e => Throw e
  | Ok globalData =>
      match all_paths (paths_source_patterns c) with
      | Throw e => Throw e
      | Ok allPaths =>
          Ok {| closure := Config (core_patternExtension c) allPaths None;
                engine_globals := globals_of globalData;
                registered_tags := [lit "schema"; lit "section"];
                registered_filters := [lit "asset_url"] |}
      end
  end.

End Setup.

(** The file system as [spawnFile] uses it: a state [F] of the files, on
    which [fs.statSync] succeeds or throws, [fs.readFileSync(p, 'utf8')]
    reads, and [fs.outputFileSync] writes; [path.resolve] and the directory
    of the module. *)
Record MetaFiles (F : Type) : Type := {
  statSync : F -> jsstring -> result unit;
  readFile_utf8 : F -> jsstring -> result jsstring;
  outputFileSync : F -> jsstring -> jsstring -> result F;
  path_resolve : list jsstring -> jsstring;
  module_dirname : jsstring
}.

Section Spawn.

Variables (F : Type) (m : MetaFiles F).

(** [spawnFile]: [try { fs.statSync(...) } catch (err) { read; write }].
    What the handler throws is not caught. *)
Definition spawnFile (c : core_config) (fileName : jsstring) (files : F)
  : result F :=
  let metaFilePath := path_resolve m [paths_source_meta c; fileName] in
  match statSync m files metaFilePath with
  | Ok _ => Ok files
  | Throw _ =>
      match readFile_utf8 m files
              (path_resolve m [module_dirname m; lit ".."; lit "_meta/"; fileName]) with
      | Throw e => Throw e
      | Ok metaFileContent => outputFileSync m files metaFilePath metaFileContent
      end
  end.

(** [spawnMeta]: the head, then the foot. *)
Definition spawnMeta (c : core_config) (files : F) : result F :=
  match spawnFile c (lit "_head.liquid") files with
  | Throw e => Throw e
  | Ok files' => spawnFile c (lit "_foot.liquid") files'
  end.

End Spawn.

(** [fs.lstatSync(p).isDirectory()] answered true. *)
Definition is_directory (d : Disk) (p : jsstring) : bool :=
  match lstat_isDirectory d p with
  | Ok true => true
  | _ => false
  end.

(** A disk and a store of files for demonstrations: [patterns] holds the
    directories [atoms] and [sections] and a file, [atoms] holds the
    directory [buttons]; the store is a list of paths with their text, a
    write adds the path. *)
Module DemoDisk.

Definition listing : list (jsstring * list jsstring) :=
  [ (lit "patterns", [lit "atoms"; lit "readme.md"; lit "sections"]);
    (lit "patterns/atoms", [lit "buttons"; lit "a.liquid"]);
    (lit "patterns/sections", [lit "hero.json"]);
    (lit "patterns/atoms/buttons", [lit "deep"]) ].

Definition directories : list jsstring :=
  [ lit "patterns"; lit "patterns/atoms"; lit "patterns/sections";
    lit "patterns/atoms/buttons"; lit "patterns/atoms/buttons/deep" ].

Definition disk : Disk :=
  {| readdirSync := fun p => match assoc p listing with
                             | Some names => Ok names
                             | None => Throw (HostError (lit "ENOENT"))
                             end;
     lstat_isDirectory := fun p => Ok (existsb (jseqb p) directories) |}.

Definition core : core_config :=
  CoreConfig (lit "patterns/") (lit "data") (lit "meta") (Str (lit "liquid")).

Definition store := list (jsstring * jsstring).

Definition meta : MetaFiles store :=
  {| statSync := fun files p => match assoc p files with
                                | Some _ => Ok tt
                                | None => Throw (HostError (lit "ENOENT"))
                                end;
     readFile_utf8 := fun files p => match assoc p files with
                                     | Some text => Ok text
                                     | None => Throw (HostError (lit "ENOENT"))
                                     end;
     outputFileSync := fun files p text => Ok ((p, text) :: files);
     path_resolve := Demo.join_path;
     module_dirname := lit "/engine/lib" |}.

Definition shipped : store :=
  [ (lit "/engine/lib/../_meta//_head.liquid", lit "<head>");
    (lit "/engine/lib/../_meta//_foot.liquid", lit "<foot>");
    (lit "meta/_foot.liquid", lit "mine") ].

End DemoDisk.

(** [s.indexOf(pat)] and [s.lastIndexOf(pat)], [None] for -1. *)
Fixpoint find_first (pat s : jsstring) : option nat :=
  if prefixb pat s then Some 0
  else match s with
       | [] => None
       | _ :: s' => option_map S (find_first pat s')
       end.

Fixpoint find_last (pat s : jsstring) : option nat :=
  match s with
  | [] => if prefixb pat [] then Some 0 else None
  | _ :: s' =>
      match find_last pat s' with
      | Some j => Some (S j)
      | None => if prefixb pat s then Some 0 else None
      end
  end.

(** ** The vocabulary of the slug's properties *)

(** The units a slug keeps, and the shape of a slug: no two hyphens in a
    row. *)
Definition slug_unit : jschar -> bool :=
  fun x => RegExp.word x || RegExp.between 192 591 x.

Definition hyphen : jschar := ch "-".

Fixpoint no_double_hyphen (s : jsstring) : bool :=
  match s with
  | c :: s' =>
      match s' with
      | d :: _ =>
          negb (RegExp.only hyphen c && RegExp.only hyphen d) && no_double_hyphen s'
      | [] => true
      end
  | [] => true
  end.

(** The longest prefix of units in a class, and what follows it. *)
Fixpoint take_while (p : jschar -> bool) (s : jsstring) : jsstring :=
  match s with
  | c :: s' => if p c then c :: take_while p s' else []
  | [] => []
  end.

Fixpoint drop_while (p : jschar -> bool) (s : jsstring) : jsstring :=
  match s with
  | c :: s' => if p c then drop_while p s' else s
  | [] => []
  end.

(* ===================================================================== *)
(** * The form tag (variant A) *)
(* ===================================================================== *)

(** The group ['|Q] of the form tag's patterns, Q the double quote. *)
Definition a_quote : RegExp.regex :=
  RegExp.Alt (RegExp.Cls (RegExp.only (ch "'"))) (RegExp.Cls (RegExp.only dq)).

(** [/(class: ?('|Q))(.+)(('|Q))/] *)
Definition formClassRE : RegExp.regex :=
  RegExp.Seq
    (RegExp.Group 1
       (RegExp.Seq (RegExp.Lit (lit "class:"))
          (RegExp.Seq (RegExp.Opt (RegExp.Cls (RegExp.only (ch " "))))
             (RegExp.Group 2 a_quote))))
    (RegExp.Seq (RegExp.Group 3 (RegExp.Plus RegExp.dot))
       (RegExp.Group 4 (RegExp.Group 5 a_quote))).

(** [/(data-(.+)): (('|Q)?(.+)?('|Q)?)/g] *)
Definition dataAttributesRE : RegExp.regex :=
  RegExp.Seq
    (RegExp.Group 1
       (RegExp.Seq (RegExp.Lit (lit "data-")) (RegExp.Group 2 (RegExp.Plus RegExp.dot))))
    (RegExp.Seq (RegExp.Lit (lit ": "))
       (RegExp.Group 3
          (RegExp.Seq (RegExp.Opt (RegExp.Group 4 a_quote))
             (RegExp.Seq (RegExp.Opt (RegExp.Group 5 (RegExp.Plus RegExp.dot)))
                (RegExp.Opt (RegExp.Group 6 a_quote)))))).

(** [/'?,$/] *)
Definition trailingComma : RegExp.regex :=
  RegExp.Seq (RegExp.Opt (RegExp.Cls (RegExp.only (ch "'"))))
    (RegExp.Seq (RegExp.Cls (RegExp.only (ch ","))) RegExp.Eol).

(** [[...s.matchAll(r)]]: every match with its groups, left to right; after
    an empty match the search moves one unit on. *)
Fixpoint matchAll_loop (fuel : nat) (r : RegExp.regex) (i : nat) (s : jsstring)
  : list RegExp.jsmatch :=
  match fuel with
  | 0 => []
  | S fuel' =>
      match RegExp.exec_from r i s with
      | None => []
      | Some m =>
          let k := RegExp.index m - i in
          match RegExp.matched m with
          | [] =>
              match skipn k s with
              | [] => [m]
              | _ :: t => m :: matchAll_loop fuel' r (S (RegExp.index m)) t
              end
          | _ :: _ =>
              let n := length (RegExp.matched m) in
              m :: matchAll_loop fuel' r (RegExp.index m + n) (skipn (k + n) s)
          end
      end
  end.

Definition matchAll (r : RegExp.regex) (s : jsstring) : list RegExp.jsmatch :=
  matchAll_loop (S (length s)) r 0 s.

(** [item[n]]: undefined when the group took no part. *)
Definition item_group (n : nat) (item : RegExp.jsmatch) : value :=
  match RegExp.group n (RegExp.groups item) with
  | Some s => Str s
  | None => Undefined
  end.

(** An entry of [this.dataAttributes]. *)
Record data_attribute : Type := DataAttribute {
  attribute : value;
  attribute_value : jsstring;
  variable : bool
}.

(** [item => ({ attribute: item[1], value: item[5].replace(/'?,$/, ''),
    variable: item[4] === undefined })]; an undefined [item[5]] has no
    [replace]. *)
Definition data_attribute_of (item : RegExp.jsmatch) : result data_attribute :=
  match RegExp.group 5 (RegExp.groups item) with
  | None => Throw TypeError
  | Some v =>
      Ok {| attribute := item_group 1 item;
            attribute_value := RegExp.replace_1 trailingComma (fun _ => []) v;
            variable := match item_group 4 item with
                        | Undefined => true
                        | _ => false
                        end |}
  end.

(** [items.map(f)] for an [f] that may throw: the first exception ends it. *)
Fixpoint map_R (A B : Type) (f : A -> result B) (l : list A) : result (list B) :=
  match l with
  | [] => Ok []
  | x :: l' =>
      match f x with
      | Throw e => Throw e
      | Ok y =>
          match map_R f l' with
          | Throw e => Throw e
          | Ok ys => Ok (y :: ys)
          end
      end
  end.

(** The form tag after [parse]: [this.formClass], [this.dataAttributes]
    (undefined when nothing assigned it), [this.tokens]. *)
Record form_tag : Type := FormTag {
  formClass : value;
  dataAttributes : option (list data_attribute);
  form_tokens : list token
}.

(** [formClassRegex && formClassRegex[3]] *)
Definition form_class (args : jsstring) : value :=
  let formClassRegex := RegExp.exec formClassRE args in
  match formClassRegex with
  | None => Null
  | Some m => item_group 3 m
  end.

(** What [parse] reads off [args], before the block is scanned. *)
Definition form_arguments (args : jsstring)
  : result (value * option (list data_attribute)) :=
  if nonempty args then
    let formClass := form_class args in
    let dataAttributesRegex := matchAll dataAttributesRE args in
    match (if 0 <? length dataAttributesRegex
           then map_R data_attribute_of dataAttributesRegex
           else Ok [])
    with
    | Throw e => Throw e
    | Ok l => Ok (formClass, Some l)
    end
  else Ok (Null, None).

Definition form_parse (tagToken : token) (remainTokens : list token)
  : result (form_tag * list token) :=
  match form_arguments (args tagToken) with
  | Throw e => Throw e
  | Ok (formClass, dataAttributes) =>
      match scan_block (lit "endform") tagToken remainTokens with
      | Throw e => Throw e
      | Ok (tokens, remain) =>
          Ok ({| formClass := formClass;
                 dataAttributes := dataAttributes;
                 form_tokens := tokens |}, remain)
      end
  end.

(** One step of the [reduce] of [render]. *)
Definition form_attribute (h : Host) (attributes : jsstring) (item : data_attribute)
  : jsstring :=
  attributes ++ lit " " ++ to_string h (attribute item)
    ++ (if nonempty (attribute_value item)
        then lit "=" ++ dquote
               ++ (if variable item
                   then lit "{{ " ++ attribute_value item ++ lit " }}"
                   else attribute_value item)
               ++ dquote
        else []).

(** [render]: the block's text goes through the engine, then the form
    element built around the result does; [this.dataAttributes.length] is
    read between the two, [this.formClass || ''] gives the class. *)
Definition form_render (h : Host) (this : form_tag) (ctx : context) : M jsstring :=
  let content := content (form_tokens this) in
  renderedContent <- parseAndRender h (Str content) (getAll ctx) (opts ctx) ;;
  formAttributes <- match dataAttributes this with
                    | None => throw TypeError
                    | Some l =>
                        ret (if 0 <? length l
                             then fold_left (form_attribute h) l []
                             else [])
                    end ;;
  parseAndRender h
    (Str (lit "<form class=" ++ dquote
            ++ (if truthy (formClass this) then to_string h (formClass this) else [])
            ++ dquote
            ++ (if nonempty formAttributes then lit " " ++ formAttributes else [])
            ++ lit ">" ++ renderedContent ++ lit "</form>"))
    (getAll ctx) (opts ctx).

(** ** The vocabulary of the form tag's properties *)

(** A unit that is a quote of either kind. *)
Definition is_quote : jschar -> bool :=
  fun x => RegExp.only (ch "'") x || RegExp.only dq x.

(** The successes of [r] on [s] hold one in front of [mid] with the groups
    [cs']; each success the matcher tries before that one stands in front of
    a text in [bad]. *)
Definition reaches (r : RegExp.regex) (s : jsstring) (cs : list (nat * jsstring))
           (mid : jsstring) (cs' : list (nat * jsstring))
           (bad : jsstring -> Prop) : Prop :=
  forall i, exists j l1 l2,
    RegExp.ends r (RegExp.MState i s cs) = l1 ++ RegExp.MState j mid cs' :: l2
    /\ forall y, In y l1 -> bad (RegExp.rest y).

(** A line of the arguments of a form tag that gives a data attribute: what
    stands before [data-], the text up to the last colon and blank of the
    line, the quote after them if there is one, and the rest of the line. *)
Record attribute_line : Type := AttributeLine {
  before : jsstring;
  attribute_name : jsstring;
  opening : jsstring;
  remainder : jsstring
}.

Definition line_match (a : attribute_line) : jsstring :=
  lit "data-" ++ attribute_name a ++ lit ": " ++ opening a ++ remainder a.

Definition line_text (a : attribute_line) : jsstring :=
  before a ++ line_match a.

Fixpoint lines_text (l : list attribute_line) (tail : jsstring) : jsstring :=
  match l with
  | [] => tail
  | a :: l' => line_text a ++ lines_text l' tail
  end.

Definition line_ok (a : attribute_line) : bool :=
  negb (includes (lit "data-") (before a))
  && nonempty (attribute_name a) && forallb RegExp.dot (attribute_name a)
  && nonempty (remainder a) && forallb RegExp.dot (opening a ++ remainder a)
  && negb (includes (lit ": ") (opening a ++ remainder a))
  && match opening a with
     | [] => stops is_quote (remainder a)
     | [c] => is_quote c
     | _ => false
     end.

(** Each line is followed by the end of the text or by a line terminator. *)
Fixpoint lines_ok (l : list attribute_line) (tail : jsstring) : bool :=
  match l with
  | [] => negb (includes (lit "data-") tail)
  | a :: l' => line_ok a && stops RegExp.dot (lines_text l' tail) && lines_ok l' tail
  end.

(** The entry of [this.dataAttributes] a line stands for. *)
Definition read_attribute (a : attribute_line) : data_attribute :=
  {| attribute := Str (lit "data-" ++ attribute_name a);
     attribute_value := RegExp.replace_1 trailingComma (fun _ => []) (remainder a);
     variable := match opening a with [] => true | _ :: _ => false end |}.

(** The groups of the match of a line: 3 the text after the colon and
    blank, 5 the rest of the line, 4 the opening quote when there is one,
    1 the attribute and 2 its name without [data-]; no group 6. *)
Definition value_groups (a : attribute_line) (cs : list (nat * jsstring))
  : list (nat * jsstring) :=
  (3, opening a ++ remainder a) :: (5, remainder a)
    :: match opening a with
       | [] => cs
       | _ :: _ => (4, opening a) :: cs
       end.

Definition line_groups (a : attribute_line) : list (nat * jsstring) :=
  value_groups a
    [(1, lit "data-" ++ attribute_name a); (2, attribute_name a)].

(** ** The vocabulary of the money filter's properties *)

(** The whole number a text of decimal digits denotes; no number for the
    empty text and for a text with any other unit. *)
Fixpoint decimal (acc : Z) (s : jsstring) : option Z :=
  match s with
  | [] => Some acc
  | c :: s' =>
      if RegExp.between 48 57 c
      then decimal (10 * acc + Z.of_N (c - 48)) s'
      else None
  end.

Definition decimal_value (s : jsstring) : option Z :=
  match s with
  | [] => None
  | _ :: _ => decimal 0 s
  end.

(** A host whose [parseFloat] reads a text of decimal digits as the number
    it denotes, rounded to the nearest float, as JavaScript's does. *)
Definition reads_decimals (h : Host) : Prop :=
  forall s z, decimal_value s = Some z -> parseFloatText h s = num_of_Z z.

(* ===================================================================== *)
(** * Properties *)
(* ===================================================================== *)

(** ** The engine on the demonstration host *)

Example handle_slug :
  handle Demo.host (Str (lit "Foo Bar!!")) = Ok (Str (lit "foo-bar"))
  /\ handle Demo.host Null = Ok Null.
Proof. split; reflexivity. Qed.

Example javascript_block :
  (match javascript_parse (Demo.tag "javascript" "")
           [Demo.html "console.log(1)"; Demo.tag "endjavascript" ""] with
   | Ok (this_tokens, _) => fst (javascript_render this_tokens Demo.start)
   | Throw e => Throw e
   end) = Ok (lit "<script>console.log(1)</script>").
Proof. reflexivity. Qed.

Example stylesheet_scss :
  fst (stylesheet_render Demo.host
         (StylesheetTag (lit "'scss'") [Demo.html "a{b:c}"]) Demo.ctx Demo.start)
  = Ok (lit "<style>/* css */a{b:c}</style>").
Proof. reflexivity. Qed.

Example stylesheet_unknown :
  fst (stylesheet_render Demo.host
         (StylesheetTag (lit "'less'") [Demo.html "a{b:c}"]) Demo.ctx Demo.start)
  = Throw (JsError (lit "processor for less not found")).
Proof. reflexivity. Qed.

Example findPartial_plain :
  findPartial (lit "{{> atoms-button }}") = lit "atoms-button"
  /\ findPartial (lit "{{>atoms-button:big(label: 'x')}}") = lit "atoms-button".
Proof. split; reflexivity. Qed.

(** ** Strings *)

Lemma jseqb_refl (a : jsstring) : jseqb a a = true.
Proof.
  induction a as [|x a IH]; simpl; [reflexivity|].
  now rewrite N.eqb_refl.
Qed.

Lemma jseqb_eq (a b : jsstring) : jseqb a b = true <-> a = b.
Proof.
  split.
  - revert b; induction a as [|x a IH]; intros [|y b]; simpl; try easy.
    intros H. apply andb_true_iff in H as [Hx Ha].
    apply N.eqb_eq in Hx. apply IH in Ha. now subst.
  - intros ->. apply jseqb_refl.
Qed.

Lemma jseqb_neq (a b : jsstring) : a <> b -> jseqb a b = false.
Proof.
  intros H. destruct (jseqb a b) eqn:E; [|reflexivity].
  apply jseqb_eq in E. contradiction.
Qed.

Lemma prefixb_app (p s : jsstring) : prefixb p (p ++ s) = true.
Proof.
  induction p as [|x p IH]; simpl; [reflexivity|].
  now rewrite N.eqb_refl.
Qed.

Lemma prefixb_true (p s : jsstring) :
  prefixb p s = true -> exists r, s = p ++ r.
Proof.
  revert s; induction p as [|x p IH]; intros s H; simpl in *.
  - now exists s.
  - destruct s as [|y s]; [discriminate|].
    apply andb_true_iff in H as [Hx Hp]. apply N.eqb_eq in Hx. subst y.
    destruct (IH _ Hp) as [r ->]. now exists r.
Qed.

Lemma includes_app (p a b : jsstring) : includes p (a ++ p ++ b) = true.
Proof.
  induction a as [|x a IH]; simpl.
  - destruct (p ++ b) eqn:E; simpl; rewrite <- E, prefixb_app; reflexivity.
  - rewrite IH. apply orb_true_r.
Qed.

(** ** The block scanner *)

Section Scanner.

Variables (endName : jsstring) (tagToken : token).

Lemma stream_buffers (pre : list token) (buffered rest : list token) :
  forallb (other endName) pre = true ->
  stream_start (block_on_token endName) (block_on_end tagToken) (pre ++ rest) buffered
  = stream_start (block_on_token endName) (block_on_end tagToken) rest (buffered ++ pre).
Proof.
  revert buffered.
  induction pre as [|t pre IH]; intros buffered Hpre; simpl.
  - now rewrite app_nil_r.
  - simpl in Hpre. apply andb_true_iff in Hpre as [Ht Hpre].
    unfold other in Ht. apply negb_true_iff in Ht.
    unfold block_on_token at 1. rewrite Ht.
    rewrite IH by assumption. now rewrite <- app_assoc.
Qed.

Lemma scan_closed (pre : list token) (endTok : token) (rest : list token) :
  forallb (other endName) pre = true ->
  name_is endName endTok = true ->
  scan_block endName tagToken (pre ++ endTok :: rest) = Ok (pre, rest).
Proof.
  intros Hpre Hend. unfold scan_block.
  rewrite stream_buffers by assumption. simpl.
  unfold block_on_token. now rewrite Hend.
Qed.

Lemma scan_unterminated (toks : list token) :
  forallb (other endName) toks = true ->
  scan_block endName tagToken toks
  = Throw (JsError (lit "tag " ++ getText tagToken ++ lit " not closed")).
Proof.
  intros H. unfold scan_block.
  rewrite <- (app_nil_r toks), stream_buffers by assumption.
  reflexivity.
Qed.

End Scanner.

(** C3. Block scanning, for the end-tag name of any block tag (the schema
    tag of both variants scans for [endschema]): a stream of tokens that do
    not carry the end-tag name, then one that does, leaves exactly the former
    in the buffer, in order, and takes the end token off the stream without
    buffering it, whatever follows it staying on the stream; a stream in
    which no token carries the end-tag name fails with the error
    [tag <text of the opening tag> not closed]. *)
Theorem block_scanner_spec (endName : jsstring) (tagToken : token) :
  schema_parse tagToken = scan_block (lit "endschema") tagToken
  /\ (forall pre endTok rest,
         forallb (other endName) pre = true ->
         name_is endName endTok = true ->
         scan_block endName tagToken (pre ++ endTok :: rest) = Ok (pre, rest))
  /\ (forall toks,
         forallb (other endName) toks = true ->
         scan_block endName tagToken toks
         = Throw (JsError (lit "tag " ++ getText tagToken ++ lit " not closed"))
         /\ includes (getText tagToken)
                     (lit "tag " ++ getText tagToken ++ lit " not closed") = true).
Proof.
  split; [reflexivity|]. split.
  - intros pre endTok rest Hpre Hend. now apply scan_closed.
  - intros toks H. split.
    + now apply scan_unterminated.
    + apply includes_app.
Qed.

(** The scanner on a schema block of two tokens, and on one left open. *)
Lemma block_scanner_witness :
  schema_parse (Demo.tag "schema" "")
    [Demo.html "{ "; Demo.html "}"; Demo.tag "endschema" ""; Demo.html "after"]
  = Ok ([Demo.html "{ "; Demo.html "}"], [Demo.html "after"])
  /\ schema_parse (Demo.tag "schema" "") [Demo.html "{ "; Demo.html "}"]
     = Throw (JsError (lit "tag {% schema  %} not closed")).
Proof.
  destruct (block_scanner_spec (lit "endschema") (Demo.tag "schema" ""))
    as [_ [Hclosed Hopen]].
  split.
  - apply (Hclosed [Demo.html "{ "; Demo.html "}"]); reflexivity.
  - apply (Hopen [Demo.html "{ "; Demo.html "}"]); reflexivity.
Defined.

(** ** The schema tag *)

(** The statement of C2 fails on variant B. *)
Lemma schema_render_B_is_not_the_script :
  fst (schema_render_B [Demo.html "{}"] Demo.ctx Demo.start)
  <> Ok (Str (schema_open ++ content [Demo.html "{}"] ++ script_close)).
Proof. discriminate. Qed.

(** C2, amended. In variant A the schema tag renders to the raw text of its
    buffered tokens, concatenated, between the opening script tag of the
    schema and the closing script tag, without a call to the engine (the
    state, trace included, is the one it started from); in variant B it
    renders to null. *)
Theorem schema_render_spec (this_tokens : list token) (scope : context) (st : state) :
  schema_render_A this_tokens scope st
  = (Ok (Str (lit "<script id=" ++ dquote ++ lit "schema" ++ dquote
                ++ lit " type=" ++ dquote ++ lit "application/json" ++ dquote
                ++ lit ">" ++ List.concat (List.map getText this_tokens)
                ++ lit "</script>")), st)
  /\ schema_render_B this_tokens scope st = (Ok Null, st).
Proof.
  split; [|reflexivity].
  unfold schema_render_A, ret, schema_open, script_close, content, join.
  now rewrite <- !app_assoc.
Qed.

(** ** The money filter *)

Lemma decimal_nonempty (s : jsstring) (z : Z) :
  decimal_value s = Some z -> truthy (Str s) = true.
Proof. destruct s; [discriminate | reflexivity]. Qed.

(** The demonstration host reads decimal digits as [parseFloat] does. *)
Lemma digits_decimal (s : jsstring) :
  forall acc seen z,
    decimal acc s = Some z -> seen = true \/ s <> [] ->
    Demo.digits acc seen s = num_of_Z z.
Proof.
  induction s as [|c s IH]; intros acc seen z Hd Hs; cbn [decimal Demo.digits] in *.
  - injection Hd as <-. destruct Hs as [-> | Hs]; [reflexivity | contradiction].
  - destruct (RegExp.between 48 57 c); [|discriminate].
    apply IH; [assumption | now left].
Qed.

Lemma Demo_reads_decimals : reads_decimals Demo.host.
Proof.
  intros s z Hs. cbn [parseFloatText Demo.host]. unfold Demo.read.
  destruct s as [|c s]; [discriminate|].
  apply digits_decimal; [exact Hs | right; discriminate].
Qed.

(** C10. A falsy input comes back as it is: null, undefined, the number 0
    (not the text $0) and the empty string among them. A truthy input gives
    the text of a dollar sign followed by the number the host's [parseFloat]
    reads in the text of the input, divided by 100: for a number that its
    own text parses back to, the number divided by 100; for a text the host
    reads as the number x, x divided by 100; and, on a host that reads
    decimal digits as JavaScript does, for a text of decimal digits the
    number it denotes divided by 100 (the text 0 is truthy and gives $0). *)
Theorem money_spec (h : Host) :
  (forall v, truthy v = false -> money h v = v)
  /\ money h Null = Null
  /\ money h Undefined = Undefined
  /\ money h (Num (num_of_Z 0)) = Num (num_of_Z 0)
  /\ money h (Str []) = Str []
  /\ (forall v, truthy v = true ->
        money h v
        = Str (lit "$"
                 ++ numToString h
                      (num_div (parseFloatText h (to_string h v)) (num_of_Z 100))))
  /\ (forall x, truthy (Num x) = true ->
        parseFloatText h (numToString h x) = x ->
        money h (Num x) = Str (lit "$" ++ numToString h (num_div x (num_of_Z 100))))
  /\ (forall s x, truthy (Str s) = true ->
        parseFloatText h s = x ->
        money h (Str s) = Str (lit "$" ++ numToString h (num_div x (num_of_Z 100))))
  /\ (reads_decimals h ->
      forall s z, decimal_value s = Some z ->
        money h (Str s)
        = Str (lit "$" ++ numToString h (num_div (num_of_Z z) (num_of_Z 100)))).
Proof.
  repeat split; try reflexivity.
  - intros v Hv. unfold money. now rewrite Hv.
  - intros v Hv. unfold money. now rewrite Hv.
  - intros x Hx Hround. unfold money. rewrite Hx.
    unfold parseFloat. cbn [to_string]. now rewrite Hround.
  - intros s x Hs Hread. unfold money. rewrite Hs.
    unfold parseFloat. cbn [to_string]. now rewrite Hread.
  - intros Hhost s z Hz. unfold money.
    rewrite (decimal_nonempty s Hz). unfold parseFloat. cbn [to_string].
    now rewrite (Hhost s z Hz).
Qed.

(** On the demonstration host: the number 0 stays 0, the number 500 and the
    text 500 give $5, the text 0 gives $0, and a text without a number gives
    $NaN. *)
Lemma money_witness :
  money Demo.host (Num (num_of_Z 0)) = Num (num_of_Z 0)
  /\ money Demo.host (Num (num_of_Z 500)) = Str (lit "$5")
  /\ money Demo.host (Str (lit "500")) = Str (lit "$5")
  /\ money Demo.host (Str (lit "0")) = Str (lit "$0")
  /\ money Demo.host (Str (lit "free")) = Str (lit "$NaN").
Proof.
  destruct (money_spec Demo.host)
    as (Hfalsy & _ & _ & _ & _ & _ & Hnum & Htext & Hdigits).
  split; [|split; [|split; [|split]]].
  - apply Hfalsy. reflexivity.
  - apply (Hnum (num_of_Z 500)); reflexivity.
  - apply (Hdigits Demo_reads_decimals (lit "500") 500%Z). reflexivity.
  - apply (Hdigits Demo_reads_decimals (lit "0") 0%Z). reflexivity.
  - apply (Htext (lit "free") S754_nan); reflexivity.
Defined.

(** ** The stylesheet tag *)

(** The key the tag looks up: the empty string unless the argument passes
    the quoted test, then what the engine renders of the argument without its
    first and last unit. *)
Lemma stylesheet_render_unquoted (h : Host) (this : stylesheet_tag)
      (ctx : context) (st : state) :
  RegExp.test quoted (processor this) = false ->
  stylesheet_render h this ctx st
  = (Ok (lit "<style>" ++ content (tokens this) ++ lit "</style>"), st).
Proof.
  intros Hq. unfold stylesheet_render. rewrite Hq. reflexivity.
Qed.

Lemma processors_get_own :
  processors_get [] = Own Identity
  /\ processors_get (lit "sass") = Own SassProcessor
  /\ processors_get (lit "scss") = Own SassProcessor.
Proof. repeat split. Qed.

Lemma assoc_none (A : Type) (k : jsstring) (l : list (jsstring * A)) :
  ~ In k (List.map fst l) -> assoc k l = None.
Proof.
  induction l as [|[k' a] l IH]; simpl; intros H; [reflexivity|].
  rewrite jseqb_neq by (intros ->; apply H; now left).
  apply IH. intros Hin. apply H. now right.
Qed.

(** A key that is neither a property of [processors] nor one of
    [Object.prototype] is not found, and the error names it. *)
Lemma stylesheet_render_unknown (h : Host) (this : stylesheet_tag)
      (ctx : context) (st : state) (key : jsstring) (n : nat) :
  RegExp.test quoted (processor this) = true ->
  liquid_parseAndRender h (Str (slice 1 (-1) (processor this)))
                        (getAll ctx) (opts ctx) (random_calls st) = (Ok key, n) ->
  ~ In key (List.map fst processors) ->
  ~ In key (List.map fst Object_prototype) ->
  fst (stylesheet_render h this ctx st)
  = Throw (JsError (lit "processor for " ++ key ++ lit " not found")).
Proof.
  intros Hq Hrender Hown Hproto.
  unfold stylesheet_render, bind, parseAndRender, emit. rewrite Hq.
  unfold bind. cbn [random_calls trace]. rewrite Hrender.
  unfold processors_get. now rewrite !assoc_none by assumption.
Qed.

(** C5, at the key [constructor]: the tag
    [{% stylesheet 'constructor' %}a{b:c}{% endstylesheet %}] renders, with
    the function [Object] for a pipeline, to the style element of the
    unprocessed text; no error names the key. *)
Theorem stylesheet_inherited_key :
  let this := StylesheetTag (lit "'constructor'") [Demo.html "a{b:c}"] in
  fst (stylesheet_render Demo.host this Demo.ctx Demo.start)
  = Ok (lit "<style>a{b:c}</style>")
  /\ fst (stylesheet_render Demo.host this Demo.ctx Demo.start)
     <> Throw (JsError (lit "processor for constructor not found")).
Proof.
  split; [reflexivity | discriminate].
Qed.

(** ** renderPattern *)

(** The statement of C8 fails on variant A: with the global data file gone,
    [renderPattern] throws to its caller and logs nothing. *)
Lemma renderPattern_A_throws :
  let cfg := {| patternExtension := Str (lit "liquid");
                allPaths := [];
                globalDataFilePath := Some (lit "/site/data/gone.json") |} in
  renderPattern_A Demo.host cfg (Pattern (lit "<p>hi</p>")) (Obj []) Demo.start
  = (Throw (HostError (lit "ENOENT")), Demo.start).
Proof. reflexivity. Qed.

(** C8, amended. A failure of the engine's [parseAndRender] is caught in
    [renderPattern], logged once by [console.log(40, ex)], and the returned
    promise resolves to undefined; a success resolves to the html and logs
    nothing. In variant B this is all [renderPattern] does; in variant A it
    is what follows once the global data file has been read and parsed at the
    head of [renderPattern]. *)
Theorem renderPattern_catches (h : Host) (cfg : config) (p : pattern)
        (data : value) (st : state) :
  (let call := ParseAndRender (Str (pattern_template p)) data Undefined in
   (forall ex n,
       liquid_parseAndRender h (Str (pattern_template p)) data Undefined
                             (random_calls st) = (Throw ex, n) ->
       renderPattern_B h p data st
       = (Ok (Ok Undefined), State n (trace st ++ [call; ConsoleLog 40 ex])))
   /\ (forall html n,
       liquid_parseAndRender h (Str (pattern_template p)) data Undefined
                             (random_calls st) = (Ok html, n) ->
       renderPattern_B h p data st
       = (Ok (Ok (Str html)), State n (trace st ++ [call]))))
  /\ (forall f text globalData,
         globalDataFilePath cfg = Some f ->
         readFileSync h f = Ok text ->
         JSON_parse h text = Ok globalData ->
         let opts := Obj [(lit "globals",
                           Obj (set_own (lit "is_patternlab") (Bool true)
                                        (own_props globalData)))] in
         let call := ParseAndRender (Str (pattern_template p)) data opts in
         (forall ex n,
             liquid_parseAndRender h (Str (pattern_template p)) data opts
                                   (random_calls st) = (Throw ex, n) ->
             renderPattern_A h cfg p data st
             = (Ok (Ok Undefined), State n (trace st ++ [call; ConsoleLog 40 ex])))
         /\ (forall html n,
             liquid_parseAndRender h (Str (pattern_template p)) data opts
                                   (random_calls st) = (Ok html, n) ->
             renderPattern_A h cfg p data st
             = (Ok (Ok (Str html)), State n (trace st ++ [call])))).
Proof.
  split.
  - intros call. split; intros r n Hengine;
      unfold renderPattern_B, bind, promise_of, parseAndRender, emit, bind;
      cbn [random_calls trace]; rewrite Hengine; cbn;
      rewrite <- ?app_assoc; reflexivity.
  - intros f text globalData Hf Hread Hparse opts call.
    split; intros r n Hengine;
      unfold renderPattern_A, bind, lift, promise_of, parseAndRender, emit, bind;
      rewrite Hf, Hread, Hparse; cbn [random_calls trace];
      fold opts; rewrite Hengine; cbn; rewrite <- ?app_assoc; reflexivity.
Qed.

(** On the demonstration host, a template that does not parse, in both
    variants. *)
Lemma renderPattern_witness :
  renderPattern_B Demo.host (Pattern (lit "{% missing")) (Obj []) Demo.start
  = (Ok (Ok Undefined),
     State 0 [ParseAndRender (Str (lit "{% missing")) (Obj []) Undefined;
              ConsoleLog 40 (HostError (lit "parse"))])
  /\ fst (renderPattern_A Demo.host Demo.cfg (Pattern (lit "{% missing")) (Obj [])
                          Demo.start)
     = Ok (Ok Undefined).
Proof.
  destruct (renderPattern_catches Demo.host Demo.cfg (Pattern (lit "{% missing"))
                                  (Obj []) Demo.start) as [[HB _] HA].
  split.
  - apply HB. reflexivity.
  - destruct (HA (lit "/site/data/data.json") (lit "GLOBALS")
                 (Obj [ (lit "shop", Str (lit "demo")) ])
                 eq_refl eq_refl eq_refl) as [Hfail _].
    rewrite (Hfail (HostError (lit "parse")) 0 eq_refl). reflexivity.
Defined.

(** ** Regular expressions: what the matcher's successes are *)

Section Matcher.

Import RegExp.

Lemma in_star_ends (p : jschar -> bool) (s : jsstring) (i : nat)
      (cs : list (nat * jsstring)) (st' : mstate) :
  In st' (star_ends p i s cs)
  <-> exists a b, s = a ++ b /\ forallb p a = true
                  /\ st' = MState (i + length a) b cs.
Proof.
  revert i. induction s as [|c s IH]; intros i; simpl.
  - split.
    + intros [<-|[]]. exists [], []. now rewrite Nat.add_0_r.
    + intros (a & b & Hs & _ & ->). symmetry in Hs.
      apply app_eq_nil in Hs as [-> ->]. left. now rewrite Nat.add_0_r.
  - destruct (p c) eqn:Hc.
    + rewrite in_app_iff, IH. simpl. split.
      * intros [(a & b & -> & Ha & ->) | [<-|[]]].
        -- exists (c :: a), b. simpl. rewrite Hc, Ha.
           now rewrite Nat.add_succ_r.
        -- exists [], (c :: s). now rewrite Nat.add_0_r.
      * intros (a & b & Hs & Ha & ->). destruct a as [|x a]; simpl in *.
        -- right. left. subst b. now rewrite Nat.add_0_r.
        -- injection Hs as <- ->. apply andb_true_iff in Ha as [_ Ha].
           left. exists a, b. now rewrite Nat.add_succ_r.
    + split.
      * intros [<-|[]]. exists [], (c :: s). now rewrite Nat.add_0_r.
      * intros (a & b & Hs & Ha & ->). destruct a as [|x a]; simpl in *.
        -- left. subst b. now rewrite Nat.add_0_r.
        -- injection Hs as <- ->. rewrite Hc in Ha. discriminate.
Qed.

Lemma in_ends_Cls (p : jschar -> bool) (st st' : mstate) :
  In st' (ends (Cls p) st)
  <-> exists c s', rest st = c :: s' /\ p c = true /\ st' = advance st s'.
Proof.
  simpl. destruct (rest st) as [|c s'].
  - split; [intros [] | intros (? & ? & ? & _); discriminate].
  - destruct (p c) eqn:Hc.
    + split.
      * intros [<-|[]]. now exists c, s'.
      * intros (c' & s'' & [= <- <-] & _ & ->). now left.
    + split; [intros [] | intros (c' & s'' & [= <- <-] & Hc' & _); congruence].
Qed.

Lemma in_ends_Lit (l : jsstring) (st st' : mstate) :
  In st' (ends (Lit l) st)
  <-> exists r, rest st = l ++ r
                /\ st' = MState (pos st + length l) r (caps st).
Proof.
  revert st. induction l as [|c l IH]; intros st.
  - simpl. split.
    + intros [<-|[]]. exists (rest st). destruct st; simpl.
      now rewrite Nat.add_0_r.
    + intros (r & Hr & ->). left. destruct st; simpl in *. subst.
      now rewrite Nat.add_0_r.
  - cbn [Lit ends]. rewrite in_flat_map. split.
    + intros (m & Hm & Hin). apply in_ends_Cls in Hm as (x & s' & Hs & Hx & ->).
      apply N.eqb_eq in Hx. subst x.
      apply IH in Hin as (r & Hr & ->). simpl in Hr. subst s'.
      exists r. split; [assumption|]. simpl. now rewrite Nat.add_succ_r.
    + intros (r & Hr & ->). exists (advance st (l ++ r)). split.
      * apply in_ends_Cls. exists c, (l ++ r). now rewrite N.eqb_refl.
      * apply IH. exists r. simpl. now rewrite Nat.add_succ_r.
Qed.

Lemma exec_from_none (r : regex) (s : jsstring) (i : nat) :
  exec_from r i s = None
  <-> forall pre suf, s = pre ++ suf ->
                      ends r (MState (i + length pre) suf []) = [].
Proof.
  revert i. induction s as [|c s IH]; intros i; simpl.
  - destruct (ends r (MState i [] [])) eqn:E.
    + split; [|reflexivity]. intros _ pre suf Hs. symmetry in Hs.
      apply app_eq_nil in Hs as [-> ->]. simpl. now rewrite Nat.add_0_r.
    + split; [discriminate|]. intros H.
      specialize (H [] [] eq_refl). simpl in H. rewrite Nat.add_0_r in H.
      congruence.
  - destruct (ends r (MState i (c :: s) [])) eqn:E.
    + rewrite IH. split.
      * intros H pre suf Hs. destruct pre as [|x pre]; simpl in *.
        -- subst suf. now rewrite Nat.add_0_r.
        -- injection Hs as <- ->. rewrite Nat.add_succ_r. now apply H.
      * intros H pre suf ->. specialize (H (c :: pre) suf eq_refl).
        simpl in H. now rewrite Nat.add_succ_r in H.
    + split; [discriminate|]. intros H.
      specialize (H [] (c :: s) eq_refl). simpl in H.
      rewrite Nat.add_0_r in H. congruence.
Qed.

Lemma test_true (r : regex) (s : jsstring) :
  test r s = true
  <-> exists pre suf st', s = pre ++ suf
                          /\ In st' (ends r (MState (length pre) suf [])).
Proof.
  unfold test, exec. split.
  - destruct (exec_from r 0 s) eqn:E; [intros _ | discriminate].
    destruct (List.Exists_dec
                (fun k => ends r (MState k (skipn k s) []) <> [])
                (seq 0 (S (length s)))) as [Hex | Hno].
    + intros k. destruct (ends r (MState k (skipn k s) [])); [right | left]; congruence.
    + apply Exists_exists in Hex as (k & Hk & Hne).
      exists (firstn k s), (skipn k s).
      destruct (ends r (MState k (skipn k s) [])) as [|st' l] eqn:Ek; [congruence|].
      exists st'. split; [now rewrite firstn_skipn|].
      apply in_seq in Hk. rewrite length_firstn, Nat.min_l by lia.
      rewrite Ek. now left.
    + exfalso. assert (exec_from r 0 s = None) as Hnone; [|congruence].
      apply exec_from_none. intros pre suf ->. simpl.
      destruct (ends r (MState (length pre) suf [])) eqn:Ek; [reflexivity|].
      exfalso. apply Hno. apply Exists_exists. exists (length pre). split.
      * apply in_seq. rewrite length_app. lia.
      * rewrite skipn_app, Nat.sub_diag, skipn_all. simpl. congruence.
  - intros (pre & suf & st' & -> & Hin).
    destruct (exec_from r 0 (pre ++ suf)) eqn:E; [reflexivity|].
    rewrite exec_from_none in E. specialize (E pre suf eq_refl).
    simpl in E. rewrite E in Hin. destruct Hin.
Qed.

End Matcher.

(** ** The quoted test of the section and stylesheet tags *)

Lemma slice_inner (a b : jschar) (mid : jsstring) :
  slice 1 (-1) (a :: mid ++ [b]) = mid.
Proof.
  unfold slice, rel_index. cbn [Z.ltb Z.compare].
  replace (length (a :: mid ++ [b])) with (S (S (length mid)))
    by (simpl; rewrite length_app; simpl; lia).
  replace (Z.to_nat (Z.max (Z.of_nat (S (S (length mid))) + -1) 0))
    with (S (length mid)) by lia.
  replace (Nat.min (Z.to_nat 1) (S (S (length mid)))) with 1 by lia.
  replace (S (length mid) - 1) with (length mid) by lia.
  simpl skipn. rewrite firstn_app, Nat.sub_diag, firstn_all. simpl.
  now rewrite app_nil_r.
Qed.

Lemma two_ends (s : jsstring) :
  2 <= length s -> exists a mid b, s = a :: mid ++ [b].
Proof.
  intros H. destruct s as [|a s]; [simpl in H; lia|].
  destruct (exists_last (l := s)) as (mid & b & ->).
  - intros ->. simpl in H. lia.
  - now exists a, mid, b.
Qed.

Lemma quoted_accepts (s : jsstring) :
  RegExp.test quoted s = true <-> single_quoted_head s \/ double_quoted_tail s.
Proof.
  rewrite test_true. unfold quoted. split.
  - intros (pre & suf & st' & -> & Hin).
    cbn [RegExp.ends] in Hin. apply in_app_iff in Hin as [Hin | Hin].
    + left. apply in_flat_map in Hin as (m0 & Hbol & Hin).
      cbn [RegExp.ends RegExp.pos] in Hbol.
      destruct (Nat.eqb (length pre) 0) eqn:Hpos; [|destruct Hbol].
      destruct Hbol as [<-|[]]. apply Nat.eqb_eq, length_zero_iff_nil in Hpos.
      subst pre.
      apply in_flat_map in Hin as (m1 & H1 & Hin).
      apply in_ends_Cls in H1 as (c & s1 & Hs & Hc & ->).
      apply in_flat_map in Hin as (m2 & H2 & Hin).
      apply (in_star_ends (RegExp.except (ch "'"))) in H2
        as (body & s2 & Hs2 & Hbody & ->).
      apply in_ends_Cls in Hin as (c' & s3 & Hs' & Hc' & _).
      cbn in Hs, Hs2, Hs'. apply N.eqb_eq in Hc, Hc'. subst.
      now exists body, s3.
    + right. apply in_flat_map in Hin as (m1 & H1 & Hin).
      apply in_ends_Cls in H1 as (c & s1 & Hs & Hc & ->).
      apply in_flat_map in Hin as (m2 & H2 & Hin).
      apply (in_star_ends (RegExp.except dq)) in H2
        as (body & s2 & Hs2 & Hbody & ->).
      apply in_flat_map in Hin as (m3 & H3 & Hin).
      apply in_ends_Cls in H3 as (c' & s3 & Hs' & Hc' & ->).
      cbn in Hs, Hs2, Hs', Hin. apply N.eqb_eq in Hc, Hc'. subst.
      destruct s3; [|destruct Hin].
      now exists pre, body.
  - intros [(body & rest & -> & Hbody) | (pre & body & -> & Hbody)].
    + exists [], (ch "'" :: body ++ ch "'" :: rest).
      eexists. split; [reflexivity|].
      cbn [RegExp.ends]. apply in_app_iff. left.
      apply in_flat_map. eexists. split; [now left|].
      apply in_flat_map. eexists. split.
      { apply in_ends_Cls. now exists (ch "'"), (body ++ ch "'" :: rest). }
      apply in_flat_map. eexists. split.
      { apply (in_star_ends (RegExp.except (ch "'"))).
        exists body, (ch "'" :: rest). now repeat split. }
      apply in_ends_Cls. now exists (ch "'"), rest.
    + exists pre, (dq :: body ++ [dq]).
      eexists. split; [reflexivity|].
      cbn [RegExp.ends]. apply in_app_iff. right.
      apply in_flat_map. eexists. split.
      { apply in_ends_Cls. now exists dq, (body ++ [dq]). }
      apply in_flat_map. eexists. split.
      { apply (in_star_ends (RegExp.except dq)).
        exists body, [dq]. now repeat split. }
      apply in_flat_map. eexists. split.
      { apply in_ends_Cls. now exists dq, []. }
      now left.
Qed.

Lemma quoted_has_two_units (s : jsstring) :
  RegExp.test quoted s = true -> 2 <= length s.
Proof.
  intros H. apply quoted_accepts in H
    as [(body & rest & -> & _) | (pre & body & -> & _)];
    simpl; rewrite ?length_app; simpl; rewrite ?length_app; simpl; lia.
Qed.

Lemma stylesheet_render_quoted (h : Host) (this : stylesheet_tag)
      (ctx : context) (st : state) :
  RegExp.test quoted (processor this) = true ->
  trace (snd (stylesheet_render h this ctx st))
  = trace st ++ [ParseAndRender (Str (slice 1 (-1) (processor this)))
                                (getAll ctx) (opts ctx)].
Proof.
  intros Hq. unfold stylesheet_render. rewrite Hq.
  unfold bind, parseAndRender, emit, bind. cbn [random_calls trace].
  destruct (liquid_parseAndRender h _ _ _ _) as [[key|e] n]; [|reflexivity].
  destruct (processors_get key) as [[|]|[| | | |]|]; cbn; try reflexivity.
  unfold lift. now destruct (renderSass h _).
Qed.

(** C9. The quoted test accepts exactly the arguments that begin with a
    complete single-quoted segment or end with a complete double-quoted
    one, whatever else they hold; when it accepts, the name the section tag
    takes, and the processor template the stylesheet tag hands to the
    engine, is the argument without its first and its last unit; so the
    argument ['foo' bar] gives the name [foo' ba]. *)
Theorem quoted_test_spec (s : jsstring) :
  (RegExp.test quoted s = true <-> single_quoted_head s \/ double_quoted_tail s)
  /\ (RegExp.test quoted s = true ->
      exists first last,
        s = first :: slice 1 (-1) s ++ [last]
        /\ quoted_name s = Str (slice 1 (-1) s)
        /\ forall h toks ctx st,
            trace (snd (stylesheet_render h (StylesheetTag s toks) ctx st))
            = trace st ++ [ParseAndRender (Str (slice 1 (-1) s))
                                          (getAll ctx) (opts ctx)])
  /\ (RegExp.test quoted s = false -> quoted_name s = Undefined)
  /\ RegExp.test quoted (lit "'foo' bar") = true
  /\ quoted_name (lit "'foo' bar") = Str (lit "foo' ba").
Proof.
  split; [apply quoted_accepts|]. split; [|split; [|split; reflexivity]].
  - intros H. pose proof H as H2.
    destruct (two_ends s (quoted_has_two_units s H)) as (a & mid & b & ->).
    exists a, b. unfold quoted_name. rewrite H, slice_inner.
    split; [reflexivity|]. split; [reflexivity|].
    intros h toks ctx st.
    rewrite (stylesheet_render_quoted h (StylesheetTag _ toks) ctx st H2).
    cbn [processor]. now rewrite slice_inner.
  - intros H. unfold quoted_name. now rewrite H.
Qed.

(** The test on three arguments: quoted, quoted and followed by more, and
    bare. *)
Lemma quoted_test_witness :
  quoted_name (lit "'hero'") = Str (lit "hero")
  /\ (exists first last,
         lit "'a' b" = first :: slice 1 (-1) (lit "'a' b") ++ [last]
         /\ quoted_name (lit "'a' b") = Str (slice 1 (-1) (lit "'a' b"))
         /\ forall h toks ctx st,
             trace (snd (stylesheet_render h (StylesheetTag (lit "'a' b") toks)
                                           ctx st))
             = trace st ++ [ParseAndRender (Str (slice 1 (-1) (lit "'a' b")))
                                           (getAll ctx) (opts ctx)])
  /\ quoted_name (lit "hero") = Undefined.
Proof.
  split; [reflexivity|]. split.
  - apply (quoted_test_spec (lit "'a' b")). reflexivity.
  - apply (quoted_test_spec (lit "hero")). reflexivity.
Defined.

(** ** The section tag, variant A: the schema block of the output *)

Lemma forallb_any (s : jsstring) : forallb RegExp.any s = true.
Proof. induction s; simpl; auto. Qed.

Lemma between_literals (o c output : jsstring) :
  RegExp.test (RegExp.Seq (RegExp.Lit o)
                 (RegExp.Seq (RegExp.Group 1 (RegExp.Star RegExp.any))
                             (RegExp.Lit c))) output = true
  <-> exists pre body post, output = pre ++ o ++ body ++ c ++ post.
Proof.
  rewrite test_true. split.
  - intros (pre & suf & st' & -> & Hin).
    cbn [RegExp.ends] in Hin.
    apply in_flat_map in Hin as (m1 & H1 & Hin).
    apply in_ends_Lit in H1 as (r1 & Hr1 & ->).
    apply in_flat_map in Hin as (m2 & H2 & Hin).
    apply in_map_iff in H2 as (m2' & <- & H2).
    apply in_star_ends in H2 as (body & r2 & Hr2 & _ & ->).
    apply in_ends_Lit in Hin as (post & Hpost & _).
    cbn [RegExp.rest] in Hr1, Hr2, Hpost. subst suf r1 r2.
    exists pre, body, post. reflexivity.
  - intros (pre & body & post & ->).
    exists pre, (o ++ body ++ c ++ post).
    eexists. split; [reflexivity|].
    cbn [RegExp.ends].
    apply in_flat_map. eexists. split.
    { apply in_ends_Lit. exists (body ++ c ++ post). split; reflexivity. }
    apply in_flat_map. eexists. split.
    { apply in_map_iff. eexists. split; [reflexivity|].
      apply in_star_ends. exists body, (c ++ post).
      split; [reflexivity|]. split; [apply forallb_any | reflexivity]. }
    apply in_ends_Lit. exists post. split; reflexivity.
Qed.

Lemma schema_block_matches (output : jsstring) :
  RegExp.test schemaRegex output = true <-> has_schema_block output.
Proof. apply between_literals. Qed.

Lemma no_schema_block_no_match (output : jsstring) :
  ~ has_schema_block output -> RegExp.exec schemaRegex output = None.
Proof.
  intros H. destruct (RegExp.exec schemaRegex output) eqn:E; [|reflexivity].
  exfalso. apply H, schema_block_matches. unfold RegExp.test. now rewrite E.
Qed.

(** What the engine is asked to render for a section tag. *)
Lemma section_render_A_call (h : Host) (cfg : config) (this : section_tag)
      (ctx : context) (st : state) :
  exists n,
    snd (section_render_A h cfg this ctx st)
    = State n (trace st
                 ++ [RenderFile (to_string h (template this) ++ lit "."
                                   ++ to_string h (patternExtension cfg))
                                (sectionData this)]).
Proof.
  unfold section_render_A, bind, renderFile, emit, bind. cbn [random_calls trace].
  destruct (liquid_renderFile h _ _ _) as [[output|e] n]; cbn [fst snd].
  - exists n. unfold embedded_schema.
    destruct (RegExp.exec schemaRegex output) as [m|]; cbn.
    + destruct (RegExp.group 1 (RegExp.groups m)) as [[|c g]|]; cbn.
      * reflexivity.
      * unfold lift. destruct (JSON_parse h (c :: g)) as [schema|e]; [|reflexivity].
        destruct schema; try reflexivity;
          match goal with
          | |- context [get ?k ?v] => destruct (get k v); reflexivity
          end.
      * reflexivity.
    + reflexivity.
  - now exists n.
Qed.

(** C4. In variant A, when the file the section tag renders comes back
    without a schema script block, the render of the tag fails: the schema is
    null and reading its name raises a TypeError; no wrapper is returned. *)
Theorem section_render_A_needs_schema (h : Host) (cfg : config)
        (this : section_tag) (ctx : context) (st : state)
        (output : jsstring) (n : nat) :
  liquid_renderFile h (to_string h (template this) ++ lit "."
                         ++ to_string h (patternExtension cfg))
                    (sectionData this) (random_calls st) = (Ok output, n) ->
  ~ has_schema_block output ->
  fst (section_render_A h cfg this ctx st) = Throw TypeError.
Proof.
  intros Hrender Hnone.
  unfold section_render_A, bind, renderFile, emit, bind. cbn [random_calls trace].
  rewrite Hrender. unfold embedded_schema.
  now rewrite (no_schema_block_no_match Hnone).
Qed.

(** On the demonstration host: [plain.liquid] has no schema block, and the
    section tag that names it fails; [hero.liquid] has one, and the tag that
    names it returns the wrapper. *)
Lemma section_render_A_witness :
  fst (section_render_A Demo.host Demo.cfg
         (SectionTag (lit "'plain'") (Str (lit "plain")) (Obj []))
         Demo.ctx Demo.start) = Throw TypeError
  /\ fst (section_render_A Demo.host Demo.cfg
            (SectionTag (lit "'hero'") (Str (lit "hero")) (Obj []))
            Demo.ctx Demo.start)
     = Ok (lit "<div id=" ++ dquote ++ lit "shopify-section-hero-banner" ++ dquote
             ++ lit " class=" ++ dquote ++ lit "shopify-section wide" ++ dquote
             ++ lit "><h1>Hello</h1>" ++ schema_open ++ lit "{SCHEMA}"
             ++ script_close ++ lit "</div>").
Proof.
  split; [|reflexivity].
  apply (section_render_A_needs_schema Demo.host Demo.cfg
           (SectionTag (lit "'plain'") (Str (lit "plain")) (Obj []))
           Demo.ctx Demo.start (output := lit "<p>Hello</p>") (n := 0)).
  - reflexivity.
  - intros Hblock. apply schema_block_matches in Hblock. discriminate.
Defined.

(** ** The section tag: stamping *)

Lemma get_own_set_own (k : jsstring) (v : value) (fs : list (jsstring * value)) :
  get_own k (set_own k v fs) = Some v.
Proof.
  induction fs as [|[k' v'] fs IH]; simpl.
  - now rewrite jseqb_refl.
  - destruct (jseqb k' k) eqn:E; simpl; now rewrite E.
Qed.

Lemma get_own_set_own_other (k k' : jsstring) (v : value)
      (fs : list (jsstring * value)) :
  k' <> k -> get_own k' (set_own k v fs) = get_own k' fs.
Proof.
  intros Hk. induction fs as [|[k0 v0] fs IH]; simpl.
  - rewrite jseqb_neq; [reflexivity | congruence].
  - destruct (jseqb k0 k) eqn:E; simpl.
    + apply jseqb_eq in E. subst k0. rewrite !jseqb_neq; congruence.
    + now rewrite IH.
Qed.

Section Stamping.

Variable h : Host.

Lemma map_M_stamp_block (bl : list value) (st : state) :
  map_M (stamp_block h) bl st
  = (Ok (stamped_blocks h (random_calls st) bl),
     State (random_calls st + length bl) (trace st)).
Proof.
  revert st. induction bl as [|b bl IH]; intros [n tr]; simpl.
  - unfold ret. now rewrite Nat.add_0_r.
  - unfold bind, stamp_block, fresh_id, bind, ret. simpl.
    rewrite IH. simpl. now rewrite Nat.add_succ_r.
Qed.

Lemma stamp_blocks_ok (section : value) (bl : list value) (st : state) :
  blocks_of section = Some bl ->
  stamp_blocks h (get (lit "blocks") section) st
  = (Ok (Arr (stamped_blocks h (random_calls st) bl)),
     State (random_calls st + length bl) (trace st)).
Proof.
  unfold blocks_of, stamp_blocks. destruct (truthy _).
  - destruct (get (lit "blocks") section); try discriminate.
    intros [= ->]. unfold bind. now rewrite map_M_stamp_block.
  - intros [= <-]. destruct st. unfold ret. simpl. now rewrite Nat.add_0_r.
Qed.

(** [stamp] in closed form. *)
Lemma stamp_ok (fs sfs : list (jsstring * value)) (bl : list value) (st : state) :
  get_own (lit "section") fs = Some (Obj sfs) ->
  blocks_of (Obj sfs) = Some bl ->
  stamp h (Obj fs) st
  = (Ok (Obj (set_own (lit "section")
                (Obj (set_own (lit "blocks")
                        (Arr (stamped_blocks h (S (random_calls st)) bl))
                        (set_own (lit "id") (Str (random_id h (random_calls st)))
                                 sfs)))
                fs)),
     State (random_calls st + 1 + length bl) (trace st)).
Proof.
  intros Hsection Hblocks. unfold stamp.
  cbn [truthy andb get]. rewrite Hsection. cbn [truthy].
  unfold bind, stamp_section, bind, fresh_id.
  rewrite (stamp_blocks_ok (Obj sfs) _ Hblocks). cbn. unfold ret.
  do 2 f_equal. lia.
Qed.

Lemma stamped_blocks_length (n : nat) (bl : list value) :
  length (stamped_blocks h n bl) = length bl.
Proof. revert n. induction bl; intros n; simpl; auto. Qed.

Lemma stamped_blocks_nth (n i : nat) (bl : list value) (b : value) :
  nth_error bl i = Some b ->
  nth_error (stamped_blocks h n bl) i
  = Some (Obj (set_own (lit "id") (Str (random_id h (n + i))) (own_props b))).
Proof.
  revert n i. induction bl as [|x bl IH]; intros n [|i]; simpl; try discriminate.
  - intros [= ->]. now rewrite Nat.add_0_r.
  - intros H. rewrite (IH (S n) i H). now rewrite Nat.add_succ_r.
Qed.

Lemma stamp_stamped_as (fs sfs : list (jsstring * value)) (bl : list value) (n : nat) :
  get_own (lit "section") fs = Some (Obj sfs) ->
  stamped_as h n fs sfs bl
    (set_own (lit "section")
       (Obj (set_own (lit "blocks") (Arr (stamped_blocks h (S n) bl))
               (set_own (lit "id") (Str (random_id h n)) sfs)))
       fs).
Proof.
  intros Hsection. unfold stamped_as. do 2 eexists.
  split; [|split; [|split; [|split; [|split; [|split]]]]].
  - intros k Hk. now apply get_own_set_own_other.
  - apply get_own_set_own.
  - rewrite get_own_set_own_other by discriminate. apply get_own_set_own.
  - apply get_own_set_own.
  - intros k Hid Hblocks. now rewrite !get_own_set_own_other.
  - apply stamped_blocks_length.
  - intros i b Hb.
    exists (set_own (lit "id") (Str (random_id h (n + 1 + i))) (own_props b)).
    split; [|split].
    + rewrite (stamped_blocks_nth (S n) i bl Hb). do 5 f_equal. lia.
    + apply get_own_set_own.
    + intros k Hk. now apply get_own_set_own_other.
Qed.

End Stamping.

Section Parsing.

Variables (h : Host) (cfg : config) (tok : token).

Lemma section_parse_no_sidecar (st : state) :
  find_sidecar h (allPaths cfg) (quoted_name (args tok)) = None ->
  section_parse h cfg tok st
  = (Ok (SectionTag (args tok) (quoted_name (args tok)) (Obj [])), st).
Proof. intros H. unfold section_parse. now rewrite H. Qed.

Lemma section_parse_stamps (file text : jsstring)
      (fs sfs : list (jsstring * value)) (bl : list value) (st : state) :
  find_sidecar h (allPaths cfg) (quoted_name (args tok)) = Some file ->
  readFileSync h file = Ok text ->
  JSON_parse h text = Ok (Obj fs) ->
  get_own (lit "section") fs = Some (Obj sfs) ->
  blocks_of (Obj sfs) = Some bl ->
  section_parse h cfg tok st
  = (Ok (SectionTag (args tok) (quoted_name (args tok))
           (Obj (set_own (lit "section")
                   (Obj (set_own (lit "blocks")
                           (Arr (stamped_blocks h (S (random_calls st)) bl))
                           (set_own (lit "id")
                                    (Str (random_id h (random_calls st))) sfs)))
                   fs))),
     State (random_calls st + 1 + length bl) (trace st)).
Proof.
  intros Hfind Hread Hparse Hsection Hblocks.
  unfold section_parse. rewrite Hfind.
  unfold bind, lift. rewrite Hread, Hparse.
  now rewrite (stamp_ok h fs st Hsection Hblocks).
Qed.

End Parsing.

(** The statement of C6 fails on a section whose [blocks] is null, which the
    parse replaces by the empty list, and on a section without [blocks],
    to which the parse adds the property. *)
Lemma section_parse_changes_blocks :
  JSON_parse Demo.host (lit "BARE")
  = Ok (Obj [ (lit "section",
               Obj [ (lit "blocks", Null); (lit "heading", Str (lit "Hello")) ]) ])
  /\ parsed_data (section_parse Demo.host Demo.cfg (Demo.tag "section" "'bare'")
                                Demo.start)
     = Obj [ (lit "section",
              Obj [ (lit "blocks", Arr []);
                    (lit "heading", Str (lit "Hello"));
                    (lit "id", Str (lit "r0")) ]) ]
  /\ JSON_parse Demo.host (lit "PLAIN")
     = Ok (Obj [ (lit "section", Obj [ (lit "heading", Str (lit "Hello")) ]) ])
  /\ parsed_data (section_parse Demo.host Demo.cfg (Demo.tag "section" "'plain'")
                                Demo.start)
     = Obj [ (lit "section",
              Obj [ (lit "heading", Str (lit "Hello"));
                    (lit "id", Str (lit "r0"));
                    (lit "blocks", Arr []) ]) ]
  /\ get (lit "blocks") (get (lit "section") Demo.bare)
     <> get (lit "blocks")
            (get (lit "section")
               (parsed_data (section_parse Demo.host Demo.cfg
                               (Demo.tag "section" "'bare'") Demo.start))).
Proof. repeat split. discriminate. Qed.

(** C6, amended. A parse of the section tag that finds no sidecar file
    leaves the empty object for section data, raises nothing and draws no
    random number. A parse that loads a sidecar holding a section object
    whose [blocks] is absent, falsy or an array gives the section a fresh
    [id], replaces [blocks] by the list of its entries, each with a fresh
    [id] (the empty list when [blocks] is absent or falsy), and leaves every
    other property of the file, of the section and of each block as
    loaded. *)
Theorem section_parse_spec (h : Host) (cfg : config) (tok : token) (st : state) :
  (find_sidecar h (allPaths cfg) (quoted_name (args tok)) = None ->
   section_parse h cfg tok st
   = (Ok (SectionTag (args tok) (quoted_name (args tok)) (Obj [])), st))
  /\ (forall file text fs sfs bl,
         find_sidecar h (allPaths cfg) (quoted_name (args tok)) = Some file ->
         readFileSync h file = Ok text ->
         JSON_parse h text = Ok (Obj fs) ->
         get_own (lit "section") fs = Some (Obj sfs) ->
         blocks_of (Obj sfs) = Some bl ->
         exists fs',
           section_parse h cfg tok st
           = (Ok (SectionTag (args tok) (quoted_name (args tok)) (Obj fs')),
              State (random_calls st + 1 + length bl) (trace st))
           /\ stamped_as h (random_calls st) fs sfs bl fs').
Proof.
  split; [apply section_parse_no_sidecar|].
  intros file text fs sfs bl Hfind Hread Hparse Hsection Hblocks.
  eexists. split.
  - eapply section_parse_stamps; eassumption.
  - now apply stamp_stamped_as.
Qed.

(** On the demonstration host: a tag without a sidecar, and the tag of
    [hero.json], whose section has a stale [id] and two blocks. *)
Lemma section_parse_witness :
  section_parse Demo.host Demo.cfg (Demo.tag "section" "'nowhere'") Demo.start
  = (Ok (SectionTag (lit "'nowhere'") (Str (lit "nowhere")) (Obj [])), Demo.start)
  /\ exists fs',
      section_parse Demo.host Demo.cfg (Demo.tag "section" "'hero'") Demo.start
      = (Ok (SectionTag (lit "'hero'") (Str (lit "hero")) (Obj fs')), State 3 [])
      /\ stamped_as Demo.host 0 Demo.hero_fields Demo.hero_section
                    Demo.hero_blocks fs'.
Proof.
  split.
  - apply (section_parse_spec Demo.host Demo.cfg
             (Demo.tag "section" "'nowhere'") Demo.start). reflexivity.
  - destruct (section_parse_spec Demo.host Demo.cfg
                (Demo.tag "section" "'hero'") Demo.start) as [_ Hloaded].
    apply (Hloaded (lit "/site/sections/hero.json") (lit "HERO")
                   Demo.hero_fields Demo.hero_section Demo.hero_blocks);
      reflexivity.
Defined.

(** ** The section tag: where the identifiers come from *)

Lemma rendered_data_app (a b : list event) :
  rendered_data (a ++ b) = rendered_data a ++ rendered_data b.
Proof.
  induction a as [|[] a IH]; simpl; auto. now rewrite IH.
Qed.

Lemma section_render_A_data (h : Host) (cfg : config) (this : section_tag)
      (ctx : context) (st : state) :
  rendered_data (trace (snd (section_render_A h cfg this ctx st)))
  = rendered_data (trace st) ++ [sectionData this].
Proof.
  destruct (section_render_A_call h cfg this ctx st) as [n ->].
  cbn [trace]. now rewrite rendered_data_app.
Qed.

Lemma stamped_blocks_ids (h : Host) (n : nat) (bl : list value) :
  List.map (get (lit "id")) (stamped_blocks h n bl) = random_ids h n (length bl).
Proof.
  unfold random_ids. revert n. induction bl as [|b bl IH]; intros n; simpl.
  - reflexivity.
  - rewrite get_own_set_own, Nat.add_0_r. f_equal.
    rewrite IH, <- seq_shift, map_map.
    apply map_ext. intros i. now rewrite Nat.add_succ_r.
Qed.

Lemma stamped_blocks_same (h : Host) (n1 n2 : nat) (bl : list value) :
  Forall2 same_block_but_id (stamped_blocks h n1 bl) (stamped_blocks h n2 bl).
Proof.
  revert n1 n2. induction bl as [|b bl IH]; intros n1 n2; simpl; constructor.
  - do 2 eexists. split; [reflexivity|]. split; [reflexivity|].
    intros k Hk.
    rewrite !get_own_set_own_other; [reflexivity | |];
      intros ->; apply Hk; now left.
  - apply IH.
Qed.

Section Closed.

Variables (h : Host) (fs sfs : list (jsstring * value)) (bl : list value).

Lemma stamped_section_id (n : nat) :
  section_id (stamped h fs sfs bl n) = Str (random_id h n).
Proof.
  unfold section_id, stamped. cbn [get].
  rewrite get_own_set_own. cbn [get].
  rewrite get_own_set_own_other by discriminate.
  now rewrite get_own_set_own.
Qed.

Lemma stamped_block_ids (n : nat) :
  block_ids (stamped h fs sfs bl n) = random_ids h (n + 1) (length bl).
Proof.
  unfold block_ids, stamped. cbn [get].
  rewrite get_own_set_own. cbn [get].
  rewrite get_own_set_own, stamped_blocks_ids.
  now rewrite Nat.add_1_r.
Qed.

Lemma stamped_same_but_ids (n1 n2 : nat) : same_but_ids (stamped h fs sfs bl n1) (stamped h fs sfs bl n2).
Proof.
  unfold same_but_ids, stamped. do 6 eexists.
  split; [reflexivity|]. split; [reflexivity|].
  split; [|split; [|split; [|split; [|split; [|split]]]]].
  - intros k Hk.
    rewrite !get_own_set_own_other; [reflexivity | |];
      intros ->; apply Hk; now left.
  - apply get_own_set_own.
  - apply get_own_set_own.
  - intros k Hk.
    rewrite !get_own_set_own_other; [reflexivity | | | |];
      intros ->; apply Hk; simpl; auto.
  - apply get_own_set_own.
  - apply get_own_set_own.
  - apply stamped_blocks_same.
Qed.

End Closed.

(** The statement of C1 fails: two successive renders of the tag of
    [hero.json] hand the engine the same section data, with the same
    [section.id] and the same [id] on each block. *)
Lemma section_render_twice_same_ids :
  let parsed := section_parse Demo.host Demo.cfg (Demo.tag "section" "'hero'")
                              Demo.start in
  match fst parsed with
  | Ok this =>
      let st1 := snd (section_render_A Demo.host Demo.cfg this Demo.ctx (snd parsed)) in
      let st2 := snd (section_render_A Demo.host Demo.cfg this Demo.ctx st1) in
      List.map section_id (rendered_data (trace st2))
      = [Str (lit "r0"); Str (lit "r0")]
      /\ List.map block_ids (rendered_data (trace st2))
         = [[Str (lit "r1"); Str (lit "r2")]; [Str (lit "r1"); Str (lit "r2")]]
  | Throw _ => False
  end.
Proof. split; reflexivity. Qed.

(** C1, amended. The identifiers are drawn when the section tag is parsed,
    not when it is rendered. A render hands the engine the section data the
    parse left: two successive renders of one parsed tag hand it the same
    data twice, identifiers included. Two parses of one tag occurrence whose
    sidecar holds a section object give [section.id] the next random draw
    and [blocks[i].id] the draws after it, so the identifiers of the two
    parses differ where those draws differ, and the two section data agree
    on every other property. *)
Theorem section_ids_come_from_parse (h : Host) (cfg : config) (tok : token)
        (ctx : context) :
  (forall this st,
      let st1 := snd (section_render_A h cfg this ctx st) in
      let st2 := snd (section_render_A h cfg this ctx st1) in
      rendered_data (trace st2)
      = rendered_data (trace st) ++ [sectionData this; sectionData this])
  /\ (forall file text fs sfs bl st1 st2,
         find_sidecar h (allPaths cfg) (quoted_name (args tok)) = Some file ->
         readFileSync h file = Ok text ->
         JSON_parse h text = Ok (Obj fs) ->
         get_own (lit "section") fs = Some (Obj sfs) ->
         blocks_of (Obj sfs) = Some bl ->
         let d1 := parsed_data (section_parse h cfg tok st1) in
         let d2 := parsed_data (section_parse h cfg tok st2) in
         section_id d1 = Str (random_id h (random_calls st1))
         /\ section_id d2 = Str (random_id h (random_calls st2))
         /\ block_ids d1 = random_ids h (random_calls st1 + 1) (length bl)
         /\ block_ids d2 = random_ids h (random_calls st2 + 1) (length bl)
         /\ same_but_ids d1 d2).
Proof.
  split.
  - intros this st st1 st2. subst st1 st2.
    rewrite !section_render_A_data, <- app_assoc. reflexivity.
  - intros file text fs sfs bl st1 st2 Hfind Hread Hparse Hsection Hblocks d1 d2.
    subst d1 d2. unfold parsed_data.
    rewrite (@section_parse_stamps h cfg tok file text fs sfs bl st1)
      by assumption.
    rewrite (@section_parse_stamps h cfg tok file text fs sfs bl st2)
      by assumption.
    cbn [fst sectionData].
    change (Obj (set_own (lit "section") _ fs))
      with (stamped h fs sfs bl (random_calls st1)) at 1 3 5.
    change (Obj (set_own (lit "section") _ fs))
      with (stamped h fs sfs bl (random_calls st2)).
    rewrite !stamped_section_id, !stamped_block_ids.
    repeat split. apply stamped_same_but_ids.
Qed.

(** On the demonstration host: two parses of the tag of [hero.json], the
    second after the first. *)
Lemma section_ids_witness :
  let d1 := parsed_data (section_parse Demo.host Demo.cfg
                           (Demo.tag "section" "'hero'") (State 0 [])) in
  let d2 := parsed_data (section_parse Demo.host Demo.cfg
                           (Demo.tag "section" "'hero'") (State 3 [])) in
  section_id d1 = Str (lit "r0")
  /\ section_id d2 = Str (lit "r3")
  /\ block_ids d1 = [Str (lit "r1"); Str (lit "r2")]
  /\ block_ids d2 = [Str (lit "r4"); Str (lit "r5")]
  /\ same_but_ids d1 d2.
Proof.
  destruct (section_ids_come_from_parse Demo.host Demo.cfg
              (Demo.tag "section" "'hero'") Demo.ctx) as [_ Hparses].
  apply (Hparses (lit "/site/sections/hero.json") (lit "HERO")
                 Demo.hero_fields Demo.hero_section Demo.hero_blocks
                 (State 0 []) (State 3 [])); reflexivity.
Defined.

(** ** The name extractors *)

Lemma replace_first_prefix (pat repl s : jsstring) :
  prefixb pat s = true ->
  replace_first pat repl s = repl ++ skipn (length pat) s.
Proof. intros H. destruct s; simpl; now rewrite H. Qed.

Lemma replace_first_step (pat repl : jsstring) (x : jschar) (s : jsstring) :
  prefixb pat (x :: s) = false ->
  replace_first pat repl (x :: s) = x :: replace_first pat repl s.
Proof. intros H. cbn [replace_first]. now rewrite H. Qed.

Lemma replace_first_skip (pat repl pre s : jsstring) :
  forallb (fun x => negb (starts pat x)) pre = true ->
  replace_first pat repl (pre ++ s) = pre ++ replace_first pat repl s.
Proof.
  intros H. induction pre as [|x pre IH]; [reflexivity|].
  simpl in H. apply andb_true_iff in H as [Hx Hpre].
  cbn [app replace_first].
  assert (prefixb pat (x :: pre ++ s) = false) as ->.
  { destruct pat as [|c pat]; [discriminate|]. simpl in *.
    apply negb_true_iff in Hx. now rewrite Hx. }
  now rewrite IH.
Qed.

Lemma forallb_weaken (p q : jschar -> bool) (s : jsstring) :
  (forall x, p x = true -> q x = true) ->
  forallb p s = true -> forallb q s = true.
Proof.
  intros Hpq. induction s as [|x s IH]; simpl; [reflexivity|].
  intros H. apply andb_true_iff in H as [Hx Hs].
  now rewrite (Hpq x Hx), IH.
Qed.

Lemma indexOf_absent (c : jschar) (s : jsstring) :
  forallb (fun x => negb (N.eqb x c)) s = true -> indexOf c s = (-1)%Z.
Proof.
  induction s as [|x s IH]; simpl; [reflexivity|].
  intros H. apply andb_true_iff in H as [Hx Hs].
  apply negb_true_iff in Hx. rewrite Hx, (IH Hs). reflexivity.
Qed.

Lemma indexOf_first (c : jschar) (a b : jsstring) :
  forallb (fun x => negb (N.eqb x c)) a = true ->
  indexOf c (a ++ c :: b) = Z.of_nat (length a).
Proof.
  induction a as [|x a IH]; simpl.
  - now rewrite N.eqb_refl.
  - intros H. apply andb_true_iff in H as [Hx Ha].
    apply negb_true_iff in Hx. rewrite Hx, (IH Ha).
    destruct (Z.ltb_spec (Z.of_nat (length a)) 0); lia.
Qed.

Lemma substring_head (a b : jsstring) :
  substring 0 (Z.of_nat (length a)) (a ++ b) = a.
Proof.
  unfold substring, clamp. cbn [Z.ltb Z.compare].
  destruct (Z.ltb_spec (Z.of_nat (length a)) 0); [lia|].
  rewrite Nat2Z.id, length_app.
  replace (Nat.min (Z.to_nat 0) (length a + length b)) with 0 by lia.
  replace (Nat.min (length a) (length a + length b)) with (length a) by lia.
  rewrite Nat.min_0_l, Nat.max_0_l, Nat.sub_0_r. cbn [skipn].
  rewrite firstn_app, Nat.sub_diag, firstn_all. simpl. apply app_nil_r.
Qed.

Lemma split_whole (c : jschar) (a : jsstring) :
  forallb (fun x => negb (N.eqb x c)) a = true -> split c a = [a].
Proof.
  induction a as [|x a IH]; simpl; [reflexivity|].
  intros H. apply andb_true_iff in H as [Hx Ha].
  apply negb_true_iff in Hx. now rewrite Hx, (IH Ha).
Qed.

Lemma split_first_piece (c : jschar) (a b : jsstring) :
  forallb (fun x => negb (N.eqb x c)) a = true ->
  nth 0 (split c (a ++ c :: b)) [] = a.
Proof.
  induction a as [|x a IH]; simpl.
  - now rewrite N.eqb_refl.
  - intros H. apply andb_true_iff in H as [Hx Ha].
    apply negb_true_iff in Hx. rewrite Hx. specialize (IH Ha).
    destruct (split c (a ++ c :: b)); simpl in *; now subst.
Qed.

Lemma plain_starts_no_marker (pat : jsstring) (s : jsstring) :
  In pat [lit "{{> "; lit " }}"; lit "{{>"; lit "}}"] ->
  forallb plain_unit s = true ->
  forallb (fun x => negb (starts pat x)) s = true.
Proof.
  intros Hpat. apply forallb_weaken. intros x Hx.
  unfold plain_unit in Hx. apply negb_true_iff in Hx.
  apply orb_false_iff in Hx as [Hx Hclose].
  apply orb_false_iff in Hx as [Hblank Hopen].
  rewrite N.eqb_sym in Hblank, Hopen, Hclose.
  destruct Hpat as [<-|[<-|[<-|[<-|[]]]]]; cbn [starts lit List.map list_ascii_of_string];
    apply negb_true_iff; assumption.
Qed.

(** The markers off a reference that opens with a blank. *)
Lemma strip_spaced (H Y : jsstring) :
  forallb plain_unit H = true ->
  strip_cruft (lit "{{> " ++ H ++ Y)
  = H ++ replace_first (lit "}}") []
           (replace_first (lit "{{>") [] (replace_first (lit " }}") [] Y)).
Proof.
  intros Hplain. unfold strip_cruft.
  rewrite (replace_first_prefix (lit "{{> ") [] (lit "{{> " ++ H ++ Y))
    by apply prefixb_app.
  replace (skipn (length (lit "{{> ")) (lit "{{> " ++ H ++ Y)) with (H ++ Y)
    by reflexivity.
  cbn [app].
  rewrite !replace_first_skip; [reflexivity | | |];
    apply plain_starts_no_marker; simpl; auto.
Qed.

(** The markers off a reference that opens without a blank. *)
Lemma strip_tight (H Y : jsstring) :
  nonempty H = true ->
  forallb plain_unit H = true ->
  strip_cruft (lit "{{>" ++ H ++ Y)
  = H ++ replace_first (lit "}}") []
           (replace_first (lit " }}") [] (replace_first (lit "{{> ") [] Y)).
Proof.
  intros Hne Hplain. unfold strip_cruft.
  assert (replace_first (lit "{{> ") [] (lit "{{>" ++ H ++ Y)
          = lit "{{>" ++ H ++ replace_first (lit "{{> ") [] Y) as ->.
  { destruct H as [|c H']; [discriminate|].
    pose proof Hplain as Hc. simpl in Hc. apply andb_true_iff in Hc as [Hc _].
    unfold plain_unit in Hc. apply negb_true_iff in Hc.
    apply orb_false_iff in Hc as [Hc _]. apply orb_false_iff in Hc as [Hc _].
    rewrite N.eqb_sym in Hc. change (ch " ") with 32%N in Hc.
    change (lit "{{>" ++ (c :: H') ++ Y)
      with (123 :: 123 :: 62 :: (c :: H') ++ Y)%N.
    change (lit "{{> ") with [123; 123; 62; 32]%N.
    assert (forall s, prefixb [123; 123; 62; 32]%N (123 :: 123 :: 62 :: c :: s)%N = false)
      as H0 by (intros s; cbn [prefixb]; rewrite Hc, !N.eqb_refl; reflexivity).
    assert (forall s, prefixb [123; 123; 62; 32]%N (123 :: 62 :: s)%N = false)
      as H1 by reflexivity.
    assert (forall s, prefixb [123; 123; 62; 32]%N (62 :: s)%N = false)
      as H2 by reflexivity.
    cbn [app].
    rewrite (replace_first_step _ [] _ _ (H0 _)).
    rewrite (replace_first_step _ [] _ _ (H1 _)).
    rewrite (replace_first_step _ [] _ _ (H2 _)).
    change (c :: H' ++ Y) with ((c :: H') ++ Y).
    rewrite (replace_first_skip [123; 123; 62; 32]%N [] (c :: H') Y).
    - reflexivity.
    - apply plain_starts_no_marker; [now left | assumption]. }
  assert (replace_first (lit " }}") [] (lit "{{>" ++ H ++ replace_first (lit "{{> ") [] Y)
          = lit "{{>" ++ H ++ replace_first (lit " }}") [] (replace_first (lit "{{> ") [] Y))
    as ->.
  { rewrite !app_assoc, replace_first_skip; [reflexivity|].
    rewrite forallb_app. apply andb_true_iff. split; [reflexivity|].
    apply plain_starts_no_marker; simpl; auto. }
  rewrite (replace_first_prefix (lit "{{>") []) by apply prefixb_app.
  match goal with
  | |- context [skipn ?n (lit "{{>" ++ ?X)] =>
      replace (skipn n (lit "{{>" ++ X)) with X by reflexivity
  end.
  cbn [app].
  rewrite replace_first_skip; [reflexivity|].
  apply plain_starts_no_marker; simpl; auto.
Qed.

Lemma findPartial_steps (s : jsstring) :
  findPartial s = drop_decoration (strip_cruft s).
Proof. reflexivity. Qed.

Lemma ref_text_parts (r : partial_ref) :
  ref_text r
  = lit "{{>" ++ optional_space (space_after_open r)
      ++ decorated_name r ++ after_name r.
Proof.
  unfold ref_text, decorated_name, after_name. now rewrite <- !app_assoc.
Qed.

Section WellFormed.

Variable r : partial_ref.
Hypothesis Hwf : well_formed r = true.

Lemma wf_name : nonempty (ref_name r) = true /\ forallb name_unit (ref_name r) = true.
Proof.
  unfold well_formed in Hwf. apply andb_true_iff in Hwf as [H _].
  apply andb_true_iff in H as [H _]. now apply andb_true_iff in H.
Qed.

Lemma wf_modifier (m : jsstring) :
  style_modifier r = Some m ->
  nonempty m = true /\ forallb modifier_unit m = true.
Proof.
  intros Hm. unfold well_formed in Hwf. rewrite Hm in Hwf.
  apply andb_true_iff in Hwf as [H _]. apply andb_true_iff in H as [_ H].
  now apply andb_true_iff in H.
Qed.

Lemma wf_parameters (p : jsstring) :
  parameter_list r = Some p -> forallb RegExp.dot p = true.
Proof.
  intros Hp. unfold well_formed in Hwf. rewrite Hp in Hwf.
  now apply andb_true_iff in Hwf as [_ H].
Qed.

Lemma name_unit_cases (x : jschar) :
  name_unit x = true ->
  modifier_unit x = true /\ negb (N.eqb x (ch ":")) = true.
Proof.
  unfold name_unit, modifier_unit. intros H. apply negb_true_iff in H.
  apply orb_false_iff in H as [H ->]. now rewrite H.
Qed.

Lemma modifier_unit_cases (x : jschar) :
  modifier_unit x = true ->
  plain_unit x = true /\ negb (N.eqb x (ch "(")) = true.
Proof.
  unfold modifier_unit, plain_unit. intros H. apply negb_true_iff in H.
  apply orb_false_iff in H as [H ->]. now rewrite H.
Qed.

Lemma decorated_modifier_units : forallb modifier_unit (decorated_name r) = true.
Proof.
  unfold decorated_name. rewrite forallb_app. apply andb_true_iff. split.
  - apply (forallb_weaken name_unit); [apply name_unit_cases | apply wf_name].
  - destruct (style_modifier r) as [m|] eqn:Hm; [|reflexivity].
    simpl. now apply wf_modifier.
Qed.

Lemma decorated_plain : forallb plain_unit (decorated_name r) = true.
Proof.
  apply (forallb_weaken modifier_unit); [apply modifier_unit_cases|].
  apply decorated_modifier_units.
Qed.

Lemma decorated_no_paren :
  forallb (fun x => negb (N.eqb x (ch "("))) (decorated_name r) = true.
Proof.
  apply (forallb_weaken modifier_unit); [apply modifier_unit_cases|].
  apply decorated_modifier_units.
Qed.

Lemma decorated_nonempty : nonempty (decorated_name r) = true.
Proof.
  unfold decorated_name. destruct (ref_name r) eqn:E; [|reflexivity].
  pose proof wf_name as [H _]. now rewrite E in H.
Qed.

Lemma name_no_colon :
  forallb (fun x => negb (N.eqb x (ch ":"))) (ref_name r) = true.
Proof.
  apply (forallb_weaken name_unit); [apply name_unit_cases | apply wf_name].
Qed.

Lemma drop_decoration_decorated (Z : jsstring) :
  Z = [] \/ (exists Z', Z = ch "(" :: Z') ->
  drop_decoration (decorated_name r ++ Z) = ref_name r.
Proof.
  intros HZ. unfold drop_decoration.
  assert ((if (indexOf (ch "(") (decorated_name r ++ Z) >? 0)%Z
           then substring 0 (indexOf (ch "(") (decorated_name r ++ Z))
                          (decorated_name r ++ Z)
           else decorated_name r ++ Z) = decorated_name r) as ->.
  { destruct HZ as [-> | [Z' ->]].
    - rewrite app_nil_r, (indexOf_absent _ _ decorated_no_paren). reflexivity.
    - rewrite (indexOf_first _ _ Z' decorated_no_paren).
      pose proof decorated_nonempty as Hne.
      destruct (decorated_name r) as [|c H'] eqn:E; [discriminate|].
      rewrite <- E at 2 3. rewrite <- E in Hne.
      replace (Z.of_nat (length (c :: H')) >? 0)%Z with true
        by (symmetry; apply Z.gtb_lt; simpl; lia).
      rewrite <- E. apply substring_head. }
  unfold decorated_name. destruct (style_modifier r) as [m|].
  - apply (split_first_piece (ch ":") (ref_name r) m name_no_colon).
  - rewrite app_nil_r, (split_whole _ _ name_no_colon). reflexivity.
Qed.

End WellFormed.

Lemma marker_skips_paren (pat X : jsstring) :
  In pat [lit "{{> "; lit " }}"; lit "{{>"; lit "}}"] ->
  replace_first pat [] (ch "(" :: X) = ch "(" :: replace_first pat [] X.
Proof.
  intros Hpat. apply replace_first_step.
  destruct Hpat as [<-|[<-|[<-|[<-|[]]]]]; reflexivity.
Qed.

Lemma after_name_cases (r : partial_ref) :
  (parameter_list r = None
   /\ (after_name r = lit "}}" \/ after_name r = lit " }}"))
  \/ (exists X, after_name r = ch "(" :: X).
Proof.
  unfold after_name. destruct (parameter_list r) as [p|].
  - right. eexists. reflexivity.
  - left. split; [reflexivity|].
    destruct (space_before_close r); [right | left]; reflexivity.
Qed.

Lemma strip_ref (r : partial_ref) :
  well_formed r = true ->
  exists Z, strip_cruft (ref_text r) = decorated_name r ++ Z
            /\ (Z = [] \/ exists Z', Z = ch "(" :: Z').
Proof.
  intros Hwf. rewrite ref_text_parts.
  destruct (space_after_open r).
  - change (lit "{{>" ++ optional_space true ++ decorated_name r ++ after_name r)
      with (lit "{{> " ++ decorated_name r ++ after_name r).
    rewrite (strip_spaced _ _ (decorated_plain r Hwf)).
    eexists. split; [reflexivity|].
    destruct (after_name_cases r) as [[_ [-> | ->]] | [X ->]].
    + left. reflexivity.
    + left. reflexivity.
    + right. rewrite !marker_skips_paren by (simpl; auto). eexists. reflexivity.
  - change (lit "{{>" ++ optional_space false ++ decorated_name r ++ after_name r)
      with (lit "{{>" ++ decorated_name r ++ after_name r).
    rewrite (strip_tight _ _ (decorated_nonempty r Hwf) (decorated_plain r Hwf)).
    eexists. split; [reflexivity|].
    destruct (after_name_cases r) as [[_ [-> | ->]] | [X ->]].
    + left. reflexivity.
    + left. reflexivity.
    + right. rewrite !marker_skips_paren by (simpl; auto). eexists. reflexivity.
Qed.

(** The string-replacement extractor on a well-formed reference. *)
Lemma findPartial_well_formed (r : partial_ref) :
  well_formed r = true -> findPartial (ref_text r) = ref_name r.
Proof.
  intros Hwf. rewrite findPartial_steps.
  destruct (strip_ref r Hwf) as (Z & -> & HZ).
  now apply drop_decoration_decorated.
Qed.

(** ** The matcher's first success *)

Section FirstSuccess.

Import RegExp.

(** Every success has consumed a prefix of what was ahead. *)
Lemma ends_consumes (r : regex) (st st' : mstate) :
  In st' (ends r st) ->
  exists consumed, rest st = consumed ++ rest st'
                   /\ pos st' = pos st + length consumed.
Proof.
  revert st st'. induction r as [| | |p|r1 IH1 r2 IH2|r1 IH1 r2 IH2|p|n r IH];
    intros st st' Hin.
  - destruct Hin as [<-|[]]. exists []. simpl. auto.
  - simpl in Hin. destruct (Nat.eqb (pos st) 0); [|destruct Hin].
    destruct Hin as [<-|[]]. exists []. simpl. auto.
  - simpl in Hin. destruct (rest st) eqn:E; [|destruct Hin].
    destruct Hin as [<-|[]]. exists []. simpl. auto.
  - apply in_ends_Cls in Hin as (c & s' & Hs & _ & ->).
    exists [c]. simpl. split; [assumption | lia].
  - cbn [ends] in Hin. apply in_flat_map in Hin as (m & Hm & Hin).
    apply IH1 in Hm as (c1 & E1 & P1). apply IH2 in Hin as (c2 & E2 & P2).
    exists (c1 ++ c2). rewrite <- app_assoc, <- E2, length_app. split; [assumption | lia].
  - cbn [ends] in Hin. apply in_app_iff in Hin as [Hin | Hin]; auto.
  - cbn [ends] in Hin. apply in_star_ends in Hin as (a & b & Hs & _ & ->).
    exists a. simpl. auto.
  - cbn [ends] in Hin. apply in_map_iff in Hin as (m & <- & Hm).
    apply IH in Hm as (c & E & P). exists c. simpl. auto.
Qed.

Lemma star_ends_app (p : jschar -> bool) (a b : jsstring) (i : nat)
      (cs : list (nat * jsstring)) :
  forallb p a = true ->
  exists l, star_ends p i (a ++ b) cs = star_ends p (i + length a) b cs ++ l.
Proof.
  revert i. induction a as [|c a IH]; intros i Ha; simpl.
  - exists []. now rewrite Nat.add_0_r, app_nil_r.
  - simpl in Ha. apply andb_true_iff in Ha as [Hc Ha]. rewrite Hc.
    destruct (IH (S i) Ha) as [l ->]. eexists.
    rewrite <- app_assoc, Nat.add_succ_r. reflexivity.
Qed.

Lemma star_ends_stop (p : jschar -> bool) (s : jsstring) (i : nat)
      (cs : list (nat * jsstring)) :
  stops p s = true -> star_ends p i s cs = [MState i s cs].
Proof.
  destruct s as [|c s]; simpl; [reflexivity|].
  intros H. apply negb_true_iff in H. now rewrite H.
Qed.

Lemma leads_Empty (s : jsstring) (cs : list (nat * jsstring)) :
  leads Empty s cs s cs.
Proof. intros i. now exists i, []. Qed.

Lemma leads_Seq (r1 r2 : regex) (s s1 s2 : jsstring)
      (cs cs1 cs2 : list (nat * jsstring)) :
  leads r1 s cs s1 cs1 -> leads r2 s1 cs1 s2 cs2 ->
  leads (Seq r1 r2) s cs s2 cs2.
Proof.
  intros H1 H2 i. destruct (H1 i) as (j & l & E1).
  destruct (H2 j) as (k & l' & E2).
  exists k. cbn [ends]. rewrite E1. cbn [flat_map]. rewrite E2.
  eexists. reflexivity.
Qed.

Lemma leads_Lit (l s : jsstring) (cs : list (nat * jsstring)) :
  leads (Lit l) (l ++ s) cs s cs.
Proof.
  revert s. induction l as [|c l IH]; intros s.
  - apply leads_Empty.
  - apply (leads_Seq (s1 := l ++ s) (cs1 := cs)); [|apply IH].
    intros i. exists (S i), []. cbn. now rewrite N.eqb_refl.
Qed.

Lemma leads_Star (p : jschar -> bool) (a b : jsstring) (cs : list (nat * jsstring)) :
  forallb p a = true -> stops p b = true ->
  leads (Star p) (a ++ b) cs b cs.
Proof.
  intros Ha Hb i. cbn [ends pos rest caps].
  destruct (star_ends_app p a b i cs Ha) as [l ->].
  rewrite (star_ends_stop p b _ cs Hb). now eexists _, _.
Qed.

Lemma leads_Plus (p : jschar -> bool) (a b : jsstring) (cs : list (nat * jsstring)) :
  nonempty a = true -> forallb p a = true -> stops p b = true ->
  leads (Plus p) (a ++ b) cs b cs.
Proof.
  intros Hne Ha Hb. destruct a as [|c a]; [discriminate|].
  simpl in Ha. apply andb_true_iff in Ha as [Hc Ha].
  apply (leads_Seq (s1 := a ++ b) (cs1 := cs)).
  - intros i. exists (S i), []. cbn. now rewrite Hc.
  - now apply leads_Star.
Qed.

Lemma leads_take (r : regex) (s s' : jsstring) (cs cs' : list (nat * jsstring)) :
  leads r s cs s' cs' -> leads (Opt r) s cs s' cs'.
Proof.
  intros H i. destruct (H i) as (j & l & E). unfold Opt. cbn [ends].
  rewrite E. now eexists _, _.
Qed.

Lemma leads_skip (r : regex) (s : jsstring) (cs : list (nat * jsstring)) :
  (forall i, ends r (MState i s cs) = []) -> leads (Opt r) s cs s cs.
Proof.
  intros H i. unfold Opt. cbn [ends]. rewrite H. now exists i, [].
Qed.

Lemma leads_Group (n : nat) (r : regex) (consumed s' : jsstring)
      (cs cs' : list (nat * jsstring)) :
  leads r (consumed ++ s') cs s' cs' ->
  leads (Group n r) (consumed ++ s') cs s' ((n, consumed) :: cs').
Proof.
  intros H i. destruct (H i) as (j & l & E).
  assert (j = i + length consumed) as ->.
  { assert (In (MState j s' cs') (ends r (MState i (consumed ++ s') cs))) as Hin
      by (rewrite E; now left).
    apply ends_consumes in Hin as (c & Hc & Hj). cbn [pos rest] in Hc, Hj.
    apply app_inv_tail in Hc. now subst c. }
  cbn [ends]. rewrite E. cbn [List.map pos rest caps].
  replace (i + length consumed - i) with (length consumed) by lia.
  rewrite firstn_app, Nat.sub_diag, firstn_all. cbn [firstn].
  rewrite app_nil_r. now eexists _, _.
Qed.

(** A class that the text ahead does not start with fails, and so does any
    sequence that begins with it. *)
Lemma Cls_fails (p : jschar -> bool) (r : regex) (s : jsstring) (i : nat)
      (cs : list (nat * jsstring)) :
  stops p s = true -> ends (Seq (Cls p) r) (MState i s cs) = [].
Proof.
  intros H. cbn. destruct s as [|c s]; [reflexivity|].
  simpl in H. apply negb_true_iff in H. now rewrite H.
Qed.

End FirstSuccess.

Section FirstSuccessOfPartialRE.

Import RegExp.

Lemma leads_Cls (p : jschar -> bool) (c : jschar) (s : jsstring)
      (cs : list (nat * jsstring)) :
  p c = true -> leads (Cls p) (c :: s) cs s cs.
Proof. intros Hc i. exists (S i), []. cbn. now rewrite Hc. Qed.

Lemma Cls_alone_fails (p : jschar -> bool) (s : jsstring) (i : nat)
      (cs : list (nat * jsstring)) :
  stops p s = true -> ends (Cls p) (MState i s cs) = [].
Proof.
  intros H. cbn. destruct s as [|c s]; [reflexivity|].
  simpl in H. apply negb_true_iff in H. now rewrite H.
Qed.

Lemma ends_Seq (r1 r2 : regex) (st : mstate) :
  ends (Seq r1 r2) st = flat_map (ends r2) (ends r1 st).
Proof. reflexivity. Qed.

Lemma ends_Star (p : jschar -> bool) (i : nat) (s : jsstring)
      (cs : list (nat * jsstring)) :
  ends (Star p) (MState i s cs) = star_ends p i s cs.
Proof. reflexivity. Qed.

Lemma leads_Cls_only (c : jschar) (s : jsstring) (i : nat)
      (cs : list (nat * jsstring)) :
  leads (Cls (only c)) (c :: s) cs s cs
  /\ ends (Cls (only c)) (MState i (c :: s) cs) = [MState (S i) s cs].
Proof.
  split.
  - apply leads_Cls. apply N.eqb_refl.
  - cbn. unfold only. now rewrite N.eqb_refl.
Qed.

Lemma no_unit_ahead (p : jschar -> bool) (c : jschar) (t : jsstring) (j : nat)
      (cs : list (nat * jsstring)) :
  forallb (fun x => negb (N.eqb x c)) t = true ->
  flat_map (ends (Cls (only c))) (star_ends p j t cs) = [].
Proof.
  intros Ht. destruct (flat_map _ _) as [|y l] eqn:E; [reflexivity|].
  exfalso.
  assert (In y (flat_map (ends (Cls (only c))) (star_ends p j t cs))) as Hin
      by (rewrite E; now left).
  apply in_flat_map in Hin as (x & Hx & Hy).
  apply in_star_ends in Hx as (a & b & -> & _ & ->).
  apply in_ends_Cls in Hy as (c' & s' & Hs & Hc & _). cbn [rest] in Hs. subst b.
  rewrite forallb_app in Ht. apply andb_true_iff in Ht as [_ Ht].
  simpl in Ht. apply andb_true_iff in Ht as [Ht _].
  unfold only in Hc. apply N.eqb_eq in Hc. subst c'.
  now rewrite N.eqb_refl in Ht.
Qed.

(** The parameter list: the greedy dot runs to the end of the text and
    gives back units until the last closing parenthesis. *)
Lemma leads_parenthesised (p t : jsstring) (cs : list (nat * jsstring)) :
  forallb dot p = true ->
  forallb (fun x => negb (N.eqb x (ch ")"))) t = true ->
  leads (Seq (Cls (only (ch "(")))
             (Seq (Star dot) (Cls (only (ch ")")))))
        (ch "(" :: p ++ ch ")" :: t) cs t cs.
Proof.
  intros Hp Ht.
  apply (leads_Seq (s1 := p ++ ch ")" :: t) (cs1 := cs)); [now apply leads_Cls|].
  intros i. rewrite ends_Seq, ends_Star.
  destruct (star_ends_app dot p (ch ")" :: t) i cs Hp) as [l ->].
  cbn [star_ends]. change (dot (ch ")")) with true. cbn iota.
  rewrite !flat_map_app, no_unit_ahead by assumption.
  cbn [flat_map app]. rewrite (proj2 (leads_Cls_only (ch ")") t _ cs)).
  now eexists _, _.
Qed.

Variable r : partial_ref.
Hypothesis Hwf : well_formed r = true.

Lemma after_name_stops :
  stops name_unit (after_name r) = true
  /\ stops modifier_unit (after_name r) = true
  /\ stops (only (ch ":")) (after_name r) = true.
Proof.
  destruct (after_name_cases r) as [[_ [-> | ->]] | [X ->]]; repeat split.
Qed.

Lemma leads_after_name (cs : list (nat * jsstring)) :
  leads (Seq (Opt (Seq (Cls (only (ch "(")))
                       (Seq (Star dot) (Cls (only (ch ")"))))))
             (Seq (Opt (Cls (only (ch " ")))) (Lit (lit "}}"))))
        (after_name r) cs [] cs.
Proof.
  unfold after_name.
  assert (forall b, leads (Seq (Opt (Cls (only (ch " ")))) (Lit (lit "}}")))
                          (optional_space b ++ lit "}}") cs [] cs) as Htail.
  { intros [|].
    - apply (leads_Seq (s1 := lit "}}") (cs1 := cs)).
      + apply leads_take. now apply leads_Cls.
      + rewrite <- (app_nil_r (lit "}}")) at 2. apply leads_Lit.
    - apply (leads_Seq (s1 := lit "}}") (cs1 := cs)).
      + apply leads_skip. intros i. now apply Cls_alone_fails.
      + rewrite <- (app_nil_r (lit "}}")) at 2. apply leads_Lit. }
  destruct (parameter_list r) as [p|] eqn:Hp.
  - apply (leads_Seq (s1 := optional_space (space_before_close r) ++ lit "}}")
                     (cs1 := cs)); [|apply Htail].
    apply leads_take.
    replace ((lit "(" ++ p ++ lit ")") ++ optional_space (space_before_close r) ++ lit "}}")
      with (ch "(" :: p ++ ch ")" :: optional_space (space_before_close r) ++ lit "}}")
      by (cbn; now rewrite <- app_assoc).
    apply leads_parenthesised.
    + now apply (wf_parameters r Hwf).
    + now destruct (space_before_close r).
  - apply (leads_Seq (s1 := optional_space (space_before_close r) ++ lit "}}")
                     (cs1 := cs)); [|apply Htail].
    apply leads_skip. intros i. apply Cls_fails.
    now destruct (space_before_close r).
Qed.

Lemma leads_after_modifier (cs : list (nat * jsstring)) :
  leads (Seq (Opt (Seq (Cls (only (ch ":"))) (Plus modifier_unit)))
             (Seq (Opt (Seq (Cls (only (ch "(")))
                            (Seq (Star dot) (Cls (only (ch ")"))))))
                  (Seq (Opt (Cls (only (ch " ")))) (Lit (lit "}}")))))
        (match style_modifier r with Some m => lit ":" ++ m | None => [] end
           ++ after_name r) cs [] cs.
Proof.
  apply (leads_Seq (s1 := after_name r) (cs1 := cs)); [|apply leads_after_name].
  destruct (style_modifier r) as [m|] eqn:Hm.
  - apply leads_take.
    apply (leads_Seq (s1 := m ++ after_name r) (cs1 := cs)).
    + now apply leads_Cls.
    + destruct (wf_modifier r Hwf Hm) as [Hne Hunits].
      apply leads_Plus; try assumption. apply after_name_stops.
  - apply leads_skip. intros i. apply Cls_fails. apply after_name_stops.
Qed.

Lemma name_stops :
  stops name_unit
        (match style_modifier r with Some m => lit ":" ++ m | None => [] end
           ++ after_name r) = true.
Proof.
  destruct (style_modifier r); [reflexivity | apply after_name_stops].
Qed.

(** The pattern on a well-formed reference: the first success is the whole
    text, with the name in group 1. *)
Lemma partialRE_leads :
  leads (source partialRE) (ref_text r) [] [] [(1, ref_name r)].
Proof.
  rewrite ref_text_parts. unfold decorated_name. rewrite <- !app_assoc.
  cbn [source partialRE].
  set (decor := match style_modifier r with
                | Some m => lit ":" ++ m
                | None => []
                end ++ after_name r).
  apply (leads_Seq (s1 := optional_space (space_after_open r) ++ ref_name r ++ decor)
                   (cs1 := [])); [apply leads_Lit|].
  apply (leads_Seq (s1 := ref_name r ++ decor) (cs1 := [])).
  { destruct (space_after_open r).
    - apply leads_take. now apply leads_Cls.
    - apply leads_skip. intros i. apply Cls_alone_fails.
      destruct (wf_name r Hwf) as [Hne Hunits].
      destruct (ref_name r) as [|c n]; [discriminate|].
      simpl in Hunits. apply andb_true_iff in Hunits as [Hc _].
      cbn [optional_space app stops]. unfold name_unit in Hc.
      apply negb_true_iff in Hc. apply orb_false_iff in Hc as [Hc _].
      apply orb_false_iff in Hc as [Hc _]. apply orb_false_iff in Hc as [Hc _].
      apply orb_false_iff in Hc as [Hc _].
      unfold only. rewrite N.eqb_sym, Hc. reflexivity. }
  apply (leads_Seq (cs1 := [(1, ref_name r)]) (s1 := decor)).
  { destruct (wf_name r Hwf) as [Hne Hunits].
    apply leads_Group. apply leads_Plus; try assumption. apply name_stops. }
  apply leads_after_modifier.
Qed.

End FirstSuccessOfPartialRE.

(** A pattern whose first success is the whole text, and which fails on the
    empty text, is replaced once. *)
Lemma replace_g_whole (re : RegExp.regex) (repl : RegExp.jsmatch -> jsstring)
      (s : jsstring) (gs : list (nat * jsstring)) :
  nonempty s = true ->
  leads re s [] [] gs ->
  (forall i, RegExp.ends re (RegExp.MState i [] []) = []) ->
  RegExp.replace_g re repl s = repl (RegExp.JsMatch 0 s gs).
Proof.
  intros Hne Hleads Hempty. unfold RegExp.replace_g.
  destruct (Hleads 0) as (j & l & E).
  assert (j = length s) as ->.
  { assert (In (RegExp.MState j [] gs) (RegExp.ends re (RegExp.MState 0 s [])))
      as Hin by (rewrite E; now left).
    apply ends_consumes in Hin as (c & Hc & Hj). cbn in Hc, Hj.
    rewrite app_nil_r in Hc. now subst c. }
  destruct s as [|c s']; [discriminate|].
  cbn [RegExp.replace_loop RegExp.exec_from]. rewrite E.
  cbn [RegExp.index RegExp.matched RegExp.groups RegExp.pos RegExp.caps].
  rewrite Nat.sub_0_r, firstn_all. cbn [Nat.sub firstn app Nat.add].
  rewrite skipn_all. cbn [length RegExp.replace_loop RegExp.exec_from].
  rewrite Hempty. now rewrite app_nil_r.
Qed.

(** The pattern-based extractor on a well-formed reference. *)
Lemma findPartial_new_well_formed (r : partial_ref) :
  well_formed r = true -> findPartial_new partialRE (ref_text r) = ref_name r.
Proof.
  intros Hwf. unfold findPartial_new, RegExp.replace.
  cbn [RegExp.global partialRE].
  change (RegExp.source _) with (RegExp.source partialRE).
  rewrite (@replace_g_whole (RegExp.source partialRE)
             (RegExp.dollar1 (RegExp.source partialRE))
             (ref_text r) [(1, ref_name r)]).
  - reflexivity.
  - rewrite ref_text_parts. reflexivity.
  - now apply partialRE_leads.
  - intros i. reflexivity.
Qed.

(** C7. On every well-formed partial reference (the include marker, an
    optional blank, a name, an optional colon and style modifier, an
    optional parenthesised parameter list, an optional blank, the end
    marker) the string-replacement extractor and the pattern-based one both
    return the bare name, and so return the same. *)
Theorem name_extractors_agree (r : partial_ref) :
  well_formed r = true ->
  findPartial (ref_text r) = ref_name r
  /\ findPartial_new partialRE (ref_text r) = ref_name r
  /\ findPartial_new partialRE (ref_text r) = findPartial (ref_text r).
Proof.
  intros Hwf.
  rewrite (findPartial_well_formed r Hwf), (findPartial_new_well_formed r Hwf).
  auto.
Qed.

(** A reference with a modifier and a parameter list that holds markers. *)
Lemma name_extractors_witness :
  let r := PartialRef true (lit "atoms-button") (Some (lit "big|red"))
                      (Some (lit "label: 'x }}') }}(")) false in
  ref_text r = lit "{{> atoms-button:big|red(label: 'x }}') }}()}}"
  /\ findPartial (ref_text r) = lit "atoms-button"
  /\ findPartial_new partialRE (ref_text r) = lit "atoms-button"
  /\ findPartial_new partialRE (ref_text r) = findPartial (ref_text r).
Proof.
  split; [reflexivity|].
  apply (name_extractors_agree
           (PartialRef true (lit "atoms-button") (Some (lit "big|red"))
                       (Some (lit "label: 'x }}') }}(")) false)).
  reflexivity.
Defined.

(* ===================================================================== *)
(** * Further properties of the engine *)
(* ===================================================================== *)

(** ** The block scanner, read backwards *)

Lemma stream_start_inversion (endName : jsstring) (tagToken : token)
      (toks buffered : list token) :
  match stream_start (block_on_token endName) (block_on_end tagToken) toks buffered with
  | Ok (buf, rem) =>
      exists pre e,
        buf = buffered ++ pre /\ toks = pre ++ e :: rem
        /\ forallb (other endName) pre = true /\ name_is endName e = true
  | Throw err =>
      forallb (other endName) toks = true
      /\ err = JsError (lit "tag " ++ getText tagToken ++ lit " not closed")
  end.
Proof.
  revert buffered. induction toks as [|t toks IH]; intros buffered.
  - simpl. split; reflexivity.
  - cbn [stream_start]. unfold block_on_token at 1.
    destruct (name_is endName t) eqn:Ht.
    + exists [], t. rewrite app_nil_r. repeat split; assumption.
    + specialize (IH (buffered ++ [t])).
      destruct (stream_start _ _ toks (buffered ++ [t])) as [[buf rem]|err].
      * destruct IH as (pre & e & -> & -> & Hpre & He).
        exists (t :: pre), e. rewrite <- app_assoc. repeat split; try assumption.
        simpl. unfold other at 1. now rewrite Ht.
      * destruct IH as [Hall ->]. split; [|reflexivity].
        simpl. unfold other at 1. now rewrite Ht.
Qed.

(** X1. Whatever the stream, a scan that succeeds has split it at the first
    token that carries the end-tag name: the buffer, that token and what is
    left on the stream make up the stream again, and no buffered token
    carries the end-tag name (an inner block of the same name is cut at its
    own end tag); a scan that fails has met no such token, and fails with
    the one error [tag ... not closed]. *)
Theorem scan_block_splits_at_first_end (endName : jsstring) (tagToken : token)
        (toks : list token) :
  match scan_block endName tagToken toks with
  | Ok (buf, rem) =>
      exists e, toks = buf ++ e :: rem
                /\ forallb (other endName) buf = true
                /\ name_is endName e = true
  | Throw err =>
      forallb (other endName) toks = true
      /\ err = JsError (lit "tag " ++ getText tagToken ++ lit " not closed")
  end.
Proof.
  unfold scan_block.
  pose proof (stream_start_inversion endName tagToken toks []) as H.
  destruct (stream_start _ _ toks []) as [[buf rem]|err]; [|exact H].
  destruct H as (pre & e & -> & -> & Hpre & He). now exists e.
Qed.

(** ** The search for the sidecar file *)

(** X2. The section tag takes the sidecar of the first directory of
    [allPaths], in order, that holds [<template>.json]; it finds none only
    when no directory holds one. *)
Theorem find_sidecar_first (h : Host) (dirs : list jsstring) (tpl : value) :
  match find_sidecar h dirs tpl with
  | Some f =>
      exists before d after,
        dirs = before ++ d :: after
        /\ f = sidecar_path h d tpl
        /\ existsSync h f = true
        /\ Forall (fun d' => existsSync h (sidecar_path h d' tpl) = false) before
  | None => Forall (fun d => existsSync h (sidecar_path h d tpl) = false) dirs
  end.
Proof.
  induction dirs as [|d dirs IH]; cbn [find_sidecar]; [constructor|].
  fold (sidecar_path h d tpl).
  destruct (existsSync h (sidecar_path h d tpl)) eqn:E.
  - exists [], d, dirs. repeat split; [assumption | constructor].
  - destruct (find_sidecar h dirs tpl) as [f|].
    + destruct IH as (before & d' & after & -> & -> & Hf & Hbefore).
      exists (d :: before), d', after. repeat split; [assumption|].
      now constructor.
    + now constructor.
Qed.

(** ** The section tag: the other outcomes of a parse *)

(** X3. When the section tag finds a sidecar file, a failure to read it or
    to parse it as JSON is raised by the parse of the tag (the data does not
    fall back to the empty object) and no identifier is drawn; data without
    a truthy [section] is kept as loaded, again without a draw; and a section
    object whose [blocks] is truthy and not an array (an object keyed by
    block name, say) makes the parse raise a TypeError, after the draw for
    the section's own [id]. *)
Theorem section_parse_other_outcomes (h : Host) (cfg : config) (tok : token)
        (st : state) (file : jsstring) :
  find_sidecar h (allPaths cfg) (quoted_name (args tok)) = Some file ->
  (forall e, readFileSync h file = Throw e ->
             section_parse h cfg tok st = (Throw e, st))
  /\ (forall text e,
         readFileSync h file = Ok text -> JSON_parse h text = Throw e ->
         section_parse h cfg tok st = (Throw e, st))
  /\ (forall text data,
         readFileSync h file = Ok text -> JSON_parse h text = Ok data ->
         truthy data && truthy (get (lit "section") data) = false ->
         section_parse h cfg tok st
         = (Ok (SectionTag (args tok) (quoted_name (args tok)) data), st))
  /\ (forall text fs sfs,
         readFileSync h file = Ok text -> JSON_parse h text = Ok (Obj fs) ->
         get_own (lit "section") fs = Some (Obj sfs) ->
         truthy (get (lit "blocks") (Obj sfs)) = true ->
         (forall l, get (lit "blocks") (Obj sfs) <> Arr l) ->
         section_parse h cfg tok st
         = (Throw TypeError, State (S (random_calls st)) (trace st))).
Proof.
  intros Hfind. unfold section_parse. rewrite Hfind. unfold bind, lift.
  split; [|split; [|split]].
  - intros e ->. reflexivity.
  - intros text e -> ->. reflexivity.
  - intros text data -> -> Hsection. unfold stamp. rewrite Hsection.
    destruct st. reflexivity.
  - intros text fs sfs -> -> Hsection Htruthy Hnot. unfold stamp.
    cbn [truthy andb get]. rewrite Hsection. cbn [truthy].
    unfold bind, stamp_section, bind, fresh_id, stamp_blocks.
    rewrite Htruthy.
    destruct (get (lit "blocks") (Obj sfs)) eqn:E; try reflexivity.
    now destruct (Hnot l).
Qed.

(** On the second demonstration host: a sidecar that cannot be read, one
    that is not JSON, one without a section, one with keyed blocks. *)
Lemma section_parse_other_outcomes_witness :
  section_parse Demo2.host Demo.cfg (Demo.tag "section" "'hero'") Demo.start
  = (Throw (HostError (lit "EACCES")), Demo.start)
  /\ section_parse Demo2.host Demo.cfg (Demo.tag "section" "'broken'") Demo.start
     = (Throw SyntaxError, Demo.start)
  /\ section_parse Demo2.host Demo.cfg (Demo.tag "section" "'settings'") Demo.start
     = (Ok (SectionTag (lit "'settings'") (Str (lit "settings")) Demo2.settings),
        Demo.start)
  /\ section_parse Demo2.host Demo.cfg (Demo.tag "section" "'keyed'") Demo.start
     = (Throw TypeError, State 1 []).
Proof.
  split; [|split; [|split]].
  - apply (section_parse_other_outcomes Demo2.host Demo.cfg
             (Demo.tag "section" "'hero'") Demo.start
             (file := lit "/site/sections/hero.json") eq_refl).
    reflexivity.
  - apply (section_parse_other_outcomes Demo2.host Demo.cfg
             (Demo.tag "section" "'broken'") Demo.start
             (file := lit "/site/sections/broken.json") eq_refl)
      with (text := lit "{"); reflexivity.
  - apply (section_parse_other_outcomes Demo2.host Demo.cfg
             (Demo.tag "section" "'settings'") Demo.start
             (file := lit "/site/sections/settings.json") eq_refl)
      with (text := lit "SETTINGS"); reflexivity.
  - apply (section_parse_other_outcomes Demo2.host Demo.cfg
             (Demo.tag "section" "'keyed'") Demo.start
             (file := lit "/site/sections/keyed.json") eq_refl)
      with (text := lit "KEYED") (fs := [ (lit "section", get (lit "section") Demo2.keyed) ])
           (sfs := [ (lit "blocks",
                      Obj [ (lit "first", Obj [ (lit "type", Str (lit "image")) ]) ]) ]);
      try reflexivity. discriminate.
Defined.

(** ** Arguments without quotes *)

Lemma no_quote_not_quoted (s : jsstring) :
  forallb no_quote s = true -> RegExp.test quoted s = false.
Proof.
  intros Hs. destruct (RegExp.test quoted s) eqn:E; [|reflexivity].
  exfalso. apply quoted_accepts in E
    as [(body & rest & -> & _) | (pre & body & -> & _)].
  - simpl in Hs. discriminate.
  - rewrite forallb_app in Hs. apply andb_true_iff in Hs as [_ Hs].
    simpl in Hs. discriminate.
Qed.

Lemma section_parse_template (h : Host) (cfg : config) (tok : token)
      (st st' : state) (this : section_tag) :
  section_parse h cfg tok st = (Ok this, st') ->
  template this = quoted_name (args tok) /\ namestr this = args tok.
Proof.
  unfold section_parse.
  destruct (find_sidecar h (allPaths cfg) (quoted_name (args tok))).
  - unfold bind, lift.
    destruct (readFileSync h j) as [text|]; [|discriminate].
    destruct (JSON_parse h text) as [data|]; [|discriminate].
    destruct (stamp h data st) as [[data'|] st1]; [|discriminate].
    unfold ret. intros [= <- _]. now split.
  - unfold ret. intros [= <- _]. now split.
Qed.

(** X4. A section tag whose argument holds no quote at all (as in
    [{% section hero %}]) has no template name: the parse looks for the
    sidecar [undefined.json], and the render of variant A asks the engine for
    the file [undefined.<extension>]. *)
Theorem section_unquoted_argument (h : Host) (cfg : config) (tok : token)
        (ctx : context) (st : state) :
  forallb no_quote (args tok) = true ->
  quoted_name (args tok) = Undefined
  /\ (forall d, sidecar_path h d (quoted_name (args tok))
                = path_join h [process_cwd h; d; lit "undefined.json"])
  /\ (forall this st',
         section_parse h cfg tok st = (Ok this, st') ->
         exists n,
           snd (section_render_A h cfg this ctx st')
           = State n (trace st'
                        ++ [RenderFile (lit "undefined."
                                          ++ to_string h (patternExtension cfg))
                                       (sectionData this)])).
Proof.
  intros Hargs.
  assert (quoted_name (args tok) = Undefined) as Hname
      by (unfold quoted_name; now rewrite (no_quote_not_quoted _ Hargs)).
  split; [assumption|]. split.
  - intros d. now rewrite Hname.
  - intros this st' Hparse.
    destruct (section_parse_template h cfg tok st Hparse) as [Htpl _].
    destruct (section_render_A_call h cfg this ctx st') as [n ->].
    exists n. rewrite Htpl, Hname. reflexivity.
Qed.

(** On the second demonstration host, which holds [atoms/undefined.json]. *)
Lemma section_unquoted_argument_witness :
  quoted_name (lit "hero") = Undefined
  /\ fst (section_parse Demo2.host Demo.cfg (Demo.tag "section" "hero") Demo.start)
     = Ok (SectionTag (lit "hero") Undefined Demo2.settings).
Proof.
  split.
  - apply (section_unquoted_argument Demo2.host Demo.cfg
             (Demo.tag "section" "hero") Demo.ctx Demo.start). reflexivity.
  - reflexivity.
Defined.

(** X5. A stylesheet tag whose argument holds no quote at all (as in
    [{% stylesheet scss %}]) runs no processor: the render returns the raw
    text of the block in a style element, and calls neither the engine nor
    sass (the state and its trace stay as they were, and a sass that fails
    does not matter). *)
Theorem stylesheet_unquoted_argument (h : Host) (this : stylesheet_tag)
        (ctx : context) (st : state) :
  forallb no_quote (processor this) = true ->
  stylesheet_render h this ctx st
  = (Ok (lit "<style>" ++ List.concat (List.map getText (tokens this))
           ++ lit "</style>"), st).
Proof.
  intros Hargs.
  apply stylesheet_render_unquoted. now apply no_quote_not_quoted.
Qed.

(** On the second demonstration host, whose sass always fails. *)
Lemma stylesheet_unquoted_argument_witness :
  stylesheet_render Demo2.host (StylesheetTag (lit "scss") [Demo.html "a{b:c}"])
                    Demo.ctx Demo.start
  = (Ok (lit "<style>a{b:c}</style>"), Demo.start)
  /\ fst (stylesheet_render Demo2.host
            (StylesheetTag (lit "'scss'") [Demo.html "a{b:c}"]) Demo.ctx Demo.start)
     = Throw (HostError (lit "sass")).
Proof.
  split; [|reflexivity].
  apply (stylesheet_unquoted_argument Demo2.host
           (StylesheetTag (lit "scss") [Demo.html "a{b:c}"]) Demo.ctx Demo.start).
  reflexivity.
Defined.

(** ** The name extractors on any text *)

Lemma replace_first_shrinks (pat s : jsstring) :
  length (replace_first pat [] s) <= length s.
Proof.
  induction s as [|c s IH]; cbn [replace_first].
  - destruct (prefixb pat []); simpl; [rewrite skipn_nil|]; simpl; lia.
  - destruct (prefixb pat (c :: s)).
    + cbn [app]. rewrite length_skipn. lia.
    + simpl. lia.
Qed.

Lemma substring_shrinks (a b : Z) (s : jsstring) :
  length (substring a b s) <= length s.
Proof.
  unfold substring. rewrite length_firstn, length_skipn. lia.
Qed.

Lemma split_first_shrinks (c : jschar) (s : jsstring) :
  length (nth 0 (split c s) []) <= length s.
Proof.
  induction s as [|x s IH]; simpl; [lia|].
  destruct (N.eqb x c); simpl; [lia|].
  destruct (split c s); simpl in *; lia.
Qed.

Lemma split_first_no_separator (c : jschar) (s : jsstring) :
  forallb (fun x => negb (N.eqb x c)) (nth 0 (split c s) []) = true.
Proof.
  induction s as [|x s IH]; simpl; [reflexivity|].
  destruct (N.eqb x c) eqn:E; simpl; [reflexivity|].
  destruct (split c s); simpl in *; rewrite E; simpl; [reflexivity | assumption].
Qed.

(** X6. Whatever text it is given, [findPartial] returns a text without a
    colon, and never a longer one. *)
Theorem findPartial_never (s : jsstring) :
  forallb (fun x => negb (N.eqb x (ch ":"))) (findPartial s) = true
  /\ length (findPartial s) <= length s.
Proof.
  rewrite findPartial_steps. unfold drop_decoration. split.
  - apply split_first_no_separator.
  - etransitivity; [apply split_first_shrinks|].
    assert (length (strip_cruft s) <= length s) as Hstrip.
    { unfold strip_cruft.
      repeat (etransitivity; [apply replace_first_shrinks|]). lia. }
    destruct (indexOf _ _ >? 0)%Z; [|assumption].
    etransitivity; [apply substring_shrinks | assumption].
Qed.

(** X7. Whatever pattern [findPartialRE] is, with or without the g flag,
    [findPartial_new] returns a text in which the pattern finds no match as
    it is. *)
Theorem findPartial_new_no_match (findPartialRE : RegExp.regexp) (s : jsstring) :
  RegExp.test (RegExp.source findPartialRE) s = false ->
  findPartial_new findPartialRE s = s.
Proof.
  unfold findPartial_new, RegExp.test, RegExp.exec, RegExp.replace,
    RegExp.replace_g, RegExp.replace_1, RegExp.exec.
  destruct (RegExp.exec_from (RegExp.source findPartialRE) 0 s) eqn:E;
    [discriminate|].
  intros _. destruct (RegExp.global findPartialRE); [|reflexivity].
  cbn [RegExp.replace_loop]. now rewrite E.
Qed.

(** A text without a reference, which [findPartial] still cuts at the
    colon. *)
Lemma findPartial_new_no_match_witness :
  findPartial_new (RegExp.RegExpObj (RegExp.Lit (lit "{{>")) true)
    (lit "atoms: button")
  = lit "atoms: button"
  /\ findPartial (lit "atoms: button") = lit "atoms".
Proof.
  split; [|reflexivity].
  apply (findPartial_new_no_match
           (RegExp.RegExpObj (RegExp.Lit (lit "{{>")) true) (lit "atoms: button")).
  reflexivity.
Defined.

(** A pattern without a group: the replacement text stays as it is written. *)
Example findPartial_new_without_group :
  findPartial_new (RegExp.RegExpObj (RegExp.Lit (lit "b")) false) (lit "abcb")
  = lit "a$1cb".
Proof. reflexivity. Qed.

(** ** The matchers *)

Lemma string_match_null (re : RegExp.regexp) (s : jsstring) :
  string_match re s = Null <-> RegExp.test (RegExp.source re) s = false.
Proof.
  unfold string_match, RegExp.test, RegExp.exec.
  destruct (RegExp.global re); cbn [match_loop];
    destruct (RegExp.exec_from (RegExp.source re) 0 s) as [m|] eqn:E.
  - split; [|discriminate].
    destruct (RegExp.matched m); [destruct (skipn _ s)|]; discriminate.
  - split; reflexivity.
  - split; discriminate.
  - split; reflexivity.
Qed.

Lemma string_match_found (re : RegExp.regexp) (s : jsstring) (m : RegExp.jsmatch) :
  RegExp.exec (RegExp.source re) s = Some m ->
  exists rest, string_match re s = Arr (Str (RegExp.matched m) :: rest).
Proof.
  unfold string_match, RegExp.exec. intros E.
  destruct (RegExp.global re); cbn [match_loop]; rewrite E.
  - destruct (RegExp.matched m) eqn:Em; [destruct (skipn _ s)|];
      cbn [List.map]; eexists; reflexivity.
  - eexists. reflexivity.
Qed.

(** X8. Whatever the pattern, [patternMatcher] gives for a template text,
    and for an object whose [template] is that text, the same answer: null
    exactly when the pattern finds no match in the text, and otherwise an
    array that starts with the text of the first match, never an empty
    array. For null it raises a TypeError; for any other value, and for an
    object whose [template] is not a text, it returns undefined. *)
Theorem patternMatcher_answers (regex : RegExp.regexp) (s : jsstring) :
  (patternMatcher (Str s) regex = Ok Null
   <-> RegExp.test (RegExp.source regex) s = false)
  /\ (forall m, RegExp.exec (RegExp.source regex) s = Some m ->
                exists rest,
                  patternMatcher (Str s) regex
                  = Ok (Arr (Str (RegExp.matched m) :: rest)))
  /\ (forall fs, get_own (lit "template") fs = Some (Str s) ->
                 patternMatcher (Obj fs) regex = patternMatcher (Str s) regex)
  /\ patternMatcher Null regex = Throw TypeError
  /\ (forall v, (forall t, v <> Str t) -> v <> Null ->
                (forall t, get (lit "template") v <> Str t) ->
                patternMatcher v regex = Ok Undefined).
Proof.
  split; [|split; [|split; [|split]]].
  - cbn [patternMatcher]. rewrite <- string_match_null.
    split; [now intros [= ->] | now intros ->].
  - intros m Hm. destruct (string_match_found regex s Hm) as [rest E].
    exists rest. cbn [patternMatcher]. now rewrite E.
  - intros fs Hfs. cbn [patternMatcher get]. now rewrite Hfs.
  - reflexivity.
  - intros v Hstr Hnull Htpl.
    destruct v as [| | | |t|l|fs]; cbn [patternMatcher]; try reflexivity.
    + now destruct Hnull.
    + now destruct (Hstr t).
    + destruct (get (lit "template") (Obj fs)) as [| | | |t| |] eqn:E;
        try reflexivity.
      now destruct (Htpl t).
Qed.

(** The matchers of an engine whose patterns all look for the include
    marker. *)
Lemma patternMatcher_witness :
  findPartials
    (Matchers (RegExp.RegExpObj (RegExp.Lit (lit "{{>")) true)
              (RegExp.RegExpObj (RegExp.Lit (lit "{{>")) true)
              (RegExp.RegExpObj (RegExp.Lit (lit "{{>")) true)
              (RegExp.RegExpObj (RegExp.Lit (lit "{{>")) true)
              (RegExp.RegExpObj (RegExp.Lit (lit "{{>")) false))
    (Str (lit "<p>{{> atoms-a }}</p>{{> atoms-b:big }}"))
  = Ok (Arr [Str (lit "{{>"); Str (lit "{{>")])
  /\ patternMatcher (Obj [(lit "template", Str (lit "<p>none</p>"))])
       (RegExp.RegExpObj (RegExp.Lit (lit "{{>")) true)
     = Ok Null
  /\ patternMatcher (Obj [(lit "template", Num (num_of_Z 1))])
       (RegExp.RegExpObj (RegExp.Lit (lit "{{>")) true)
     = Ok Undefined.
Proof.
  split; [reflexivity|]. split.
  - destruct (patternMatcher_answers
                (RegExp.RegExpObj (RegExp.Lit (lit "{{>")) true)
                (lit "<p>none</p>"))
      as (Hnull & _ & Hobj & _).
    rewrite (Hobj [(lit "template", Str (lit "<p>none</p>"))] eq_refl).
    now apply Hnull.
  - apply (patternMatcher_answers
             (RegExp.RegExpObj (RegExp.Lit (lit "{{>")) true) []);
      discriminate.
Defined.

(** ** The setup *)

Lemma filter_R_ok (f : jsstring -> result bool) (l r : list jsstring) :
  filter_R f l = Ok r ->
  r = filter (fun x => match f x with Ok true => true | _ => false end) l.
Proof.
  revert r. induction l as [|x l IH]; intros r; simpl.
  - now intros [= <-].
  - destruct (f x) as [keep|]; [|discriminate].
    destruct (filter_R f l) as [r'|]; [|discriminate].
    intros [= <-]. rewrite (IH r' eq_refl). now destruct keep.
Qed.

(** X9. When [getDirectories] returns, it returns the entries of the
    directory listing that are directories, each joined to the path of the
    listed directory, in the order of the listing, and nothing else. *)
Theorem getDirectories_lists (h : Host) (d : Disk) (source : jsstring)
        (l : list jsstring) :
  getDirectories h d source = Ok l ->
  exists names,
    readdirSync d source = Ok names
    /\ l = filter (is_directory d)
                  (List.map (fun name => path_join h [source; name]) names).
Proof.
  unfold getDirectories. destruct (readdirSync d source) as [names|]; [|discriminate].
  intros H. exists names. split; [reflexivity|]. now apply filter_R_ok.
Qed.

Lemma getDirectories_witness :
  exists names,
    readdirSync DemoDisk.disk (lit "patterns") = Ok names
    /\ [lit "patterns/atoms"; lit "patterns/sections"]
       = filter (is_directory DemoDisk.disk)
                (List.map (fun name => path_join Demo.host [lit "patterns"; name])
                          names).
Proof.
  apply (getDirectories_lists Demo.host DemoDisk.disk (lit "patterns")).
  reflexivity.
Defined.

Lemma reduce_dirs_ok (h : Host) (d : Disk) (dirs allDirs l : list jsstring) :
  reduce_dirs h d allDirs dirs = Ok l ->
  exists subss,
    Forall2 (fun dir subs => getDirectories h d dir = Ok subs) dirs subss
    /\ l = allDirs ++ List.concat subss.
Proof.
  revert allDirs. induction dirs as [|dir dirs IH]; intros allDirs; simpl.
  - intros [= <-]. exists []. split; [constructor | now rewrite app_nil_r].
  - destruct (getDirectories h d dir) as [subs|] eqn:E; [|discriminate].
    intros H. destruct (IH _ H) as (subss & Hall & ->).
    exists (subs :: subss). split; [now constructor|].
    simpl. now rewrite app_assoc.
Qed.

Lemma slice_last (p : jsstring) (c : jschar) :
  slice_from (-1) (p ++ [c]) = [c] /\ slice 0 (-1) (p ++ [c]) = p.
Proof.
  unfold slice_from, slice, rel_index. rewrite length_app. cbn [length].
  cbn [Z.ltb Z.compare].
  destruct (Z.ltb_spec (Z.of_nat (length p + 1)) 0); [lia|].
  replace (Z.to_nat (Z.max (Z.of_nat (length p + 1) + -1) 0)) with (length p) by lia.
  replace (Nat.min (Z.to_nat (Z.of_nat (length p + 1))) (length p + 1))
    with (length p + 1) by lia.
  replace (Nat.min (Z.to_nat 0) (length p + 1)) with 0 by lia.
  split.
  - replace (length p + 1 - length p) with 1 by lia.
    rewrite skipn_app, Nat.sub_diag, skipn_all. reflexivity.
  - rewrite Nat.sub_0_r. cbn [skipn].
    rewrite firstn_app, Nat.sub_diag, firstn_all. simpl. apply app_nil_r.
Qed.

(** X10. The directories the section tag searches are, when the setup
    computes them, the directories right under the patterns path, in listing
    order, followed by the directories right under each of those, root by
    root: two levels and no deeper. One slash at the end of the patterns path
    makes no difference. *)
Theorem all_paths_two_levels (h : Host) (d : Disk) (patternsPath : jsstring) :
  (forall l,
      all_paths h d patternsPath = Ok l ->
      exists roots subss,
        getDirectories h d (without_trailing_slash patternsPath) = Ok roots
        /\ Forall2 (fun root subs => getDirectories h d root = Ok subs) roots subss
        /\ l = roots ++ List.concat subss)
  /\ (jseqb (slice_from (-1) patternsPath) (lit "/") = false ->
      all_paths h d (patternsPath ++ lit "/") = all_paths h d patternsPath).
Proof.
  split.
  - intros l. unfold all_paths.
    destruct (getDirectories h d (without_trailing_slash patternsPath))
      as [roots|]; [|discriminate].
    intros H. destruct (reduce_dirs_ok h d _ _ H) as (subss & Hall & ->).
    now exists roots, subss.
  - intros Hlast. unfold all_paths, without_trailing_slash.
    rewrite Hlast.
    change (patternsPath ++ lit "/") with (patternsPath ++ [ch "/"]).
    destruct (slice_last patternsPath (ch "/")) as [-> ->].
    reflexivity.
Qed.

Lemma all_paths_witness :
  all_paths Demo.host DemoDisk.disk (lit "patterns/")
  = Ok [lit "patterns/atoms"; lit "patterns/sections"; lit "patterns/atoms/buttons"]
  /\ all_paths Demo.host DemoDisk.disk (lit "patterns/")
     = all_paths Demo.host DemoDisk.disk (lit "patterns").
Proof.
  split; [reflexivity|].
  apply (all_paths_two_levels Demo.host DemoDisk.disk (lit "patterns")).
  reflexivity.
Defined.

(** X11. Once the setup of variant A has succeeded, [renderPattern] does not
    throw (the files being the ones the setup read): it returns a promise
    that resolves, to the html or, after a logged failure, to undefined. *)
Theorem renderPattern_A_after_setup (h : Host) (d : Disk) (c : core_config)
        (s : setup) (p : pattern) (data : value) (st : state) :
  usePatternLabConfig_A h d c = Ok s ->
  exists v st',
    renderPattern_A h (closure s) p data st = (Ok (Ok v), st')
    /\ (v = Undefined \/ exists html, v = Str html).
Proof.
  unfold usePatternLabConfig_A.
  destruct (readFileSync h _) as [text|] eqn:Hread; [|discriminate].
  destruct (JSON_parse h text) as [globalData|] eqn:Hparse; [|discriminate].
  destruct (all_paths h d _) as [allPaths|]; [|discriminate].
  intros [= <-]. cbn [closure].
  unfold renderPattern_A, bind, lift, promise_of, parseAndRender, emit, bind.
  cbn [globalDataFilePath]. rewrite Hread, Hparse. cbn [random_calls trace].
  destruct (liquid_parseAndRender h _ _ _ _) as [[html|e] n]; cbn.
  - eexists _, _. split; [reflexivity|]. right. now exists html.
  - eexists _, _. split; [reflexivity|]. now left.
Qed.

Lemma renderPattern_A_after_setup_witness :
  exists v st',
    renderPattern_A Demo.host
      (Config (Str (lit "liquid"))
              [lit "patterns/atoms"; lit "patterns/sections"; lit "patterns/atoms/buttons"]
              (Some (lit "/site/data/data.json")))
      (Pattern (lit "{% missing")) (Obj []) Demo.start
    = (Ok (Ok v), st')
    /\ (v = Undefined \/ exists html, v = Str html).
Proof.
  apply (renderPattern_A_after_setup Demo.host DemoDisk.disk DemoDisk.core
           (s := Setup (Config (Str (lit "liquid"))
                               [lit "patterns/atoms"; lit "patterns/sections";
                                lit "patterns/atoms/buttons"]
                               (Some (lit "/site/data/data.json")))
                       (globals_of (Obj [ (lit "shop", Str (lit "demo")) ]))
                       [lit "form"; lit "paginate"; lit "schema"; lit "section";
                        lit "stylesheet"; lit "javascript"]
                       [lit "asset_url"; lit "img_url"; lit "handle"; lit "money"])).
  reflexivity.
Defined.

(** ** spawnMeta *)

Section SpawnProperties.

Variables (F : Type) (m : MetaFiles F) (c : core_config).

(** What a write promises: the path written can be stat'ed afterwards, and
    so can every path that could before. *)
Hypothesis written :
  forall files p text files',
    outputFileSync m files p text = Ok files' ->
    statSync m files' p = Ok tt
    /\ forall q, statSync m files q = Ok tt -> statSync m files' q = Ok tt.

Lemma spawnFile_leaves (fileName : jsstring) (files files' : F) :
  spawnFile m c fileName files = Ok files' ->
  statSync m files' (path_resolve m [paths_source_meta c; fileName]) = Ok tt
  /\ forall q, statSync m files q = Ok tt -> statSync m files' q = Ok tt.
Proof.
  unfold spawnFile.
  destruct (statSync m files _) as [[]|] eqn:Hstat.
  - intros [= <-]. now split.
  - destruct (readFile_utf8 m files _) as [text|]; [|discriminate].
    apply written.
Qed.

Lemma spawnFile_present (fileName : jsstring) (files : F) :
  statSync m files (path_resolve m [paths_source_meta c; fileName]) = Ok tt ->
  spawnFile m c fileName files = Ok files.
Proof. intros H. unfold spawnFile. now rewrite H. Qed.

Lemma spawnMeta_again (files files' : F) :
  spawnMeta m c files = Ok files' -> spawnMeta m c files' = Ok files'.
Proof.
  unfold spawnMeta.
  destruct (spawnFile m c (lit "_head.liquid") files) as [files1|] eqn:Hhead;
    [|discriminate].
  intros Hfoot.
  destruct (spawnFile_leaves _ _ Hhead) as [Hh _].
  destruct (spawnFile_leaves _ _ Hfoot) as [Hf Hkeep].
  rewrite (spawnFile_present _ _ (Hkeep _ Hh)).
  now apply spawnFile_present.
Qed.

End SpawnProperties.

(** X12. [spawnMeta] writes a meta file only where [fs.statSync] fails: with
    both files in place it changes nothing. On a file system where a path
    that was written, and every path that was there before, can be stat'ed
    afterwards, running [spawnMeta] a second time changes nothing. *)
Theorem spawnMeta_idempotent (F : Type) (m : MetaFiles F) (c : core_config)
        (files : F) :
  (statSync m files (path_resolve m [paths_source_meta c; lit "_head.liquid"]) = Ok tt ->
   statSync m files (path_resolve m [paths_source_meta c; lit "_foot.liquid"]) = Ok tt ->
   spawnMeta m c files = Ok files)
  /\ ((forall fs p text fs',
          outputFileSync m fs p text = Ok fs' ->
          statSync m fs' p = Ok tt
          /\ forall q, statSync m fs q = Ok tt -> statSync m fs' q = Ok tt) ->
      forall files',
        spawnMeta m c files = Ok files' -> spawnMeta m c files' = Ok files').
Proof.
  split.
  - intros Hhead Hfoot. unfold spawnMeta.
    rewrite (spawnFile_present m c _ _ Hhead).
    now apply spawnFile_present.
  - intros Hwritten files'. now apply spawnMeta_again.
Qed.

(** On the demonstration store: the head is spawned from the shipped file,
    the foot that is already there is kept. *)
Lemma spawnMeta_witness :
  spawnMeta DemoDisk.meta DemoDisk.core DemoDisk.shipped
  = Ok ((lit "meta/_head.liquid", lit "<head>") :: DemoDisk.shipped)
  /\ spawnMeta DemoDisk.meta DemoDisk.core
               ((lit "meta/_head.liquid", lit "<head>") :: DemoDisk.shipped)
     = Ok ((lit "meta/_head.liquid", lit "<head>") :: DemoDisk.shipped).
Proof.
  split; [reflexivity|].
  destruct (spawnMeta_idempotent DemoDisk.meta DemoDisk.core DemoDisk.shipped)
    as [_ Hagain].
  apply Hagain; [|reflexivity].
  intros fs p text fs' [= <-]. split.
  - cbn. now rewrite jseqb_refl.
  - intros q. cbn. destruct (jseqb p q); [reflexivity | auto].
Defined.

(** ** First and last occurrences, and the matcher *)

Lemma find_first_none_before (pat : jsstring) (u v : jsstring) (n : nat) :
  find_first pat (u ++ v) = Some n -> length u < n -> prefixb pat v = false.
Proof.
  revert n. induction u as [|c u IH]; intros n H Hlt; cbn [app find_first] in H.
  - destruct (prefixb pat v) eqn:E; [|reflexivity].
    cbn [app] in H. destruct v; cbn [find_first] in H; rewrite E in H;
      injection H as <-; simpl in Hlt; lia.
  - cbn [find_first] in H. destruct (prefixb pat (c :: u ++ v)).
    + injection H as <-. lia.
    + destruct (find_first pat (u ++ v)) as [k|] eqn:E; [|discriminate].
      injection H as <-. apply (IH k eq_refl). simpl in Hlt. lia.
Qed.

Lemma find_last_none_after (pat : jsstring) (u v : jsstring) (n : nat) :
  find_last pat (u ++ v) = Some n -> n < length u -> prefixb pat v = false.
Proof.
  revert n. induction u as [|c u IH]; intros n H Hlt; [simpl in Hlt; lia|].
  cbn [app find_last] in H.
  destruct (find_last pat (u ++ v)) as [k|] eqn:E.
  - injection H as <-. destruct u as [|c' u'].
    + clear IH. cbn [app] in E. simpl in Hlt.
      destruct (prefixb pat v) eqn:Ev; [|reflexivity]. exfalso.
      assert (k = 0) by lia. subst k.
      destruct v as [|x v].
      * cbn in E. lia.
      * cbn [find_last] in E. destruct (find_last pat v); [discriminate|].
        lia.
    + apply (IH k eq_refl). simpl in *. lia.
  - assert (forall w, find_last pat w = None -> prefixb pat w = false) as Hnone.
    { clear. intros w. destruct w as [|x w]; cbn [find_last].
      - now destruct (prefixb pat []).
      - destruct (find_last pat w); [discriminate|].
        now destruct (prefixb pat (x :: w)). }
    assert (forall a b, find_last pat (a ++ b) = None -> find_last pat b = None)
      as Hsuffix.
    { clear. intros a b. induction a as [|x a IHa]; [auto|].
      cbn [app find_last]. destruct (find_last pat (a ++ b)); [discriminate|].
      intros _. now apply IHa. }
    apply Hnone. now apply (Hsuffix u v).
Qed.

Section Backtracking.

Import RegExp.

Lemma exec_from_unfold (r : regex) (i : nat) (s : jsstring) :
  exec_from r i s
  = match ends r (MState i s []) with
    | st :: _ =>
        Some {| index := i; matched := firstn (pos st - i) s; groups := caps st |}
    | [] => match s with [] => None | _ :: s' => exec_from r (S i) s' end
    end.
Proof. destruct s; reflexivity. Qed.

Lemma exec_from_skips (r : regex) (u v : jsstring) (i : nat) :
  (forall u1 u2, u = u1 ++ u2 -> u2 <> [] ->
                 ends r (MState (i + length u1) (u2 ++ v) []) = []) ->
  exec_from r i (u ++ v) = exec_from r (i + length u) v.
Proof.
  revert i. induction u as [|c u IH]; intros i H.
  - simpl. now rewrite Nat.add_0_r.
  - cbn [app]. rewrite exec_from_unfold.
    specialize (H [] (c :: u) eq_refl) as H0. cbn [length app] in H0.
    rewrite Nat.add_0_r in H0. rewrite H0 by discriminate.
    rewrite IH.
    + cbn [length]. f_equal. lia.
    + intros u1 u2 -> Hne.
      specialize (H (c :: u1) u2 eq_refl Hne). cbn [length] in H.
      now rewrite Nat.add_succ_r in H.
Qed.

Lemma exec_from_leads (r : regex) (s : jsstring) (gs : list (nat * jsstring))
      (t : jsstring) (i : nat) (consumed : jsstring) :
  s = consumed ++ t ->
  leads r s [] t gs ->
  exec_from r i s = Some {| index := i; matched := consumed; groups := gs |}.
Proof.
  intros -> Hleads. rewrite exec_from_unfold.
  destruct (Hleads i) as (j & l & E). rewrite E.
  assert (In (MState j t gs) (ends r (MState i (consumed ++ t) []))) as Hin
      by (rewrite E; now left).
  apply ends_consumes in Hin as (c & Hc & Hj). cbn [pos rest] in Hc, Hj.
  apply app_inv_tail in Hc. subst c j. cbn [pos caps].
  replace (i + length consumed - i) with (length consumed) by lia.
  rewrite firstn_app, Nat.sub_diag, firstn_all. cbn [firstn].
  now rewrite app_nil_r.
Qed.

Lemma Lit_fails (L : jsstring) (st : mstate) :
  prefixb L (rest st) = false -> ends (Lit L) st = [].
Proof.
  intros H. destruct (ends (Lit L) st) as [|y l] eqn:E; [reflexivity|].
  assert (In y (ends (Lit L) st)) as Hin by (rewrite E; now left).
  apply in_ends_Lit in Hin as (r & Hr & _).
  rewrite Hr, prefixb_app in H. discriminate.
Qed.

Lemma flat_map_skip (f : mstate -> list mstate) (l1 l2 : list mstate) (x : mstate) :
  (forall y, In y l1 -> f y = []) ->
  flat_map f (l1 ++ x :: l2) = f x ++ flat_map f l2.
Proof.
  intros H. rewrite flat_map_app. cbn [flat_map].
  replace (flat_map f l1) with (@nil mstate); [reflexivity|].
  symmetry. induction l1 as [|y l1 IH]; [reflexivity|].
  cbn [flat_map]. rewrite (H y) by now left.
  apply IH. intros z Hz. apply H. now right.
Qed.

(** The successes of a greedy repetition on [a ++ b], [a] in the class: the
    one that stops in front of [b], before it those that run into [b]. *)
Lemma star_ends_split (p : jschar -> bool) (a b : jsstring) (i : nat)
      (cs : list (nat * jsstring)) :
  forallb p a = true ->
  exists l1 l2,
    star_ends p i (a ++ b) cs = l1 ++ MState (i + length a) b cs :: l2
    /\ forall y, In y l1 ->
                 exists u v, b = u ++ v /\ u <> [] /\ rest y = v /\ caps y = cs
                             /\ forallb p u = true.
Proof.
  intros Ha. destruct (star_ends_app p a b i cs Ha) as [l ->].
  destruct b as [|c b'].
  - exists [], l. split; [reflexivity|]. intros y [].
  - cbn [star_ends]. destruct (p c) eqn:Hc.
    + exists (star_ends p (S (i + length a)) b' cs), l.
      split; [now rewrite <- app_assoc|].
      intros y Hy. apply in_star_ends in Hy as (u & v & -> & Hu & ->).
      exists (c :: u), v. repeat split; [discriminate|].
      cbn [forallb]. now rewrite Hc.
    + exists [], l. split; [reflexivity|]. intros y [].
Qed.

(** A group of a greedy repetition, then a literal: the repetition gives
    back units down to the last place where the literal stands. *)
Lemma leads_group_star_literal (n : nat) (p : jschar -> bool)
      (L body t : jsstring) (cs : list (nat * jsstring)) :
  forallb p body = true ->
  (forall u v, L ++ t = u ++ v -> u <> [] -> prefixb L v = false) ->
  leads (Seq (Group n (Star p)) (Lit L)) (body ++ L ++ t) cs t ((n, body) :: cs).
Proof.
  intros Hbody Hlast i. rewrite ends_Seq. cbn [ends pos rest caps].
  destruct (star_ends_split p body (L ++ t) i cs Hbody) as (l1 & l2 & -> & Hl1).
  rewrite map_app. cbn [List.map pos rest caps].
  rewrite flat_map_skip.
  - replace (i + length body - i) with (length body) by lia.
    rewrite firstn_app, Nat.sub_diag, firstn_all. cbn [firstn]. rewrite app_nil_r.
    destruct (leads_Lit L t ((n, body) :: cs) (i + length body)) as (j & l & E).
    exists j. eexists.
    match goal with
    | |- _ ++ ?X = _ => apply (f_equal (fun z => z ++ X)) in E
    end.
    exact E.
  - intros y Hy. apply in_map_iff in Hy as (y0 & <- & Hy0).
    destruct (Hl1 y0 Hy0) as (u & v & Huv & Hu & Hrest & _).
    apply Lit_fails. cbn [rest]. rewrite Hrest. now apply (Hlast u v).
Qed.

End Backtracking.

(** ** The schema text of a rendered section *)

Lemma greedy_between (o c pre body post : jsstring) :
  find_first o (pre ++ o ++ body ++ c ++ post) = Some (length pre) ->
  find_last c (pre ++ o ++ body ++ c ++ post)
  = Some (length pre + length o + length body) ->
  RegExp.exec (RegExp.Seq (RegExp.Lit o)
                 (RegExp.Seq (RegExp.Group 1 (RegExp.Star RegExp.any))
                             (RegExp.Lit c)))
              (pre ++ o ++ body ++ c ++ post)
  = Some {| RegExp.index := length pre;
            RegExp.matched := o ++ body ++ c;
            RegExp.groups := [(1, body)] |}.
Proof.
  intros Hfirst Hlast. unfold RegExp.exec.
  rewrite exec_from_skips.
  - cbn [Nat.add]. apply exec_from_leads with (t := post);
      [now rewrite <- !app_assoc|].
    apply (leads_Seq (s1 := body ++ c ++ post) (cs1 := [])); [apply leads_Lit|].
    apply leads_group_star_literal; [apply forallb_any|].
    intros u v Huv Hu.
    apply (find_last_none_after c (pre ++ o ++ body ++ u) v
             (n := length pre + length o + length body)).
    + rewrite <- Hlast. f_equal. rewrite <- !app_assoc. now rewrite <- Huv.
    + rewrite !length_app. destruct u; [contradiction | simpl; lia].
  - intros u1 u2 -> Hu2. rewrite ends_Seq, Lit_fails; [reflexivity|].
    cbn [RegExp.rest].
    apply (find_first_none_before o u1 (u2 ++ o ++ body ++ c ++ post)
             (n := length (u1 ++ u2))).
    + rewrite <- Hfirst. now rewrite <- app_assoc.
    + rewrite length_app. destruct u2; [contradiction | simpl; lia].
Qed.

(** X13. In variant A the schema of a rendered section is read from the
    first opening schema tag of the output to its last closing script tag,
    whatever stands between them, a closing script tag included: that text
    is what [JSON.parse] is given, and when it is empty the schema is null
    without a call to [JSON.parse]. *)
Theorem schema_text_is_greedy (h : Host) (pre body post : jsstring) (st : state) :
  find_first schema_open (pre ++ schema_open ++ body ++ script_close ++ post)
  = Some (length pre) ->
  find_last script_close (pre ++ schema_open ++ body ++ script_close ++ post)
  = Some (length pre + length schema_open + length body) ->
  RegExp.exec schemaRegex (pre ++ schema_open ++ body ++ script_close ++ post)
  = Some {| RegExp.index := length pre;
            RegExp.matched := schema_open ++ body ++ script_close;
            RegExp.groups := [(1, body)] |}
  /\ embedded_schema h (pre ++ schema_open ++ body ++ script_close ++ post) st
     = match body with
       | [] => (Ok Null, st)
       | _ :: _ => (JSON_parse h body, st)
       end.
Proof.
  intros Hfirst Hlast.
  pose proof (greedy_between schema_open script_close pre body post Hfirst Hlast)
    as Hexec.
  split; [exact Hexec|].
  unfold embedded_schema.
  change schemaRegex with
    (RegExp.Seq (RegExp.Lit schema_open)
       (RegExp.Seq (RegExp.Group 1 (RegExp.Star RegExp.any))
                   (RegExp.Lit script_close))).
  rewrite Hexec. cbn [RegExp.groups RegExp.group Nat.eqb].
  now destruct body.
Qed.

(** A section that writes its schema before a javascript block: the text
    handed to [JSON.parse] runs on to the end of that block, and the render
    fails on it. *)
Lemma schema_text_witness :
  RegExp.exec schemaRegex
    (lit "<h1>x</h1>" ++ schema_open
       ++ (lit "{SCHEMA}" ++ script_close ++ lit "<script>f()") ++ script_close ++ [])
  = Some {| RegExp.index := 10;
            RegExp.matched :=
              schema_open ++ (lit "{SCHEMA}" ++ script_close ++ lit "<script>f()")
                ++ script_close;
            RegExp.groups := [(1, lit "{SCHEMA}" ++ script_close ++ lit "<script>f()")] |}
  /\ embedded_schema Demo.host
       (lit "<h1>x</h1>" ++ schema_open
          ++ (lit "{SCHEMA}" ++ script_close ++ lit "<script>f()") ++ script_close ++ [])
       Demo.start
     = (Throw SyntaxError, Demo.start).
Proof.
  apply (schema_text_is_greedy Demo.host (lit "<h1>x</h1>")
           (lit "{SCHEMA}" ++ script_close ++ lit "<script>f()") [] Demo.start);
    reflexivity.
Defined.

(** ** The slug of the handle filter and of the section wrapper *)

Lemma take_drop (p : jschar -> bool) (s : jsstring) : s = take_while p s ++ drop_while p s.
Proof.
  induction s as [|c s IH]; simpl; [reflexivity|].
  destruct (p c); simpl; [now rewrite <- IH | reflexivity].
Qed.

Lemma take_while_all (p : jschar -> bool) (s : jsstring) : forallb p (take_while p s) = true.
Proof.
  induction s as [|c s IH]; simpl; [reflexivity|].
  destruct (p c) eqn:E; simpl; [now rewrite E | reflexivity].
Qed.

Lemma drop_while_stops (p : jschar -> bool) (s : jsstring) : stops p (drop_while p s) = true.
Proof.
  induction s as [|c s IH]; simpl; [reflexivity|].
  destruct (p c) eqn:E; simpl; [assumption | now rewrite E].
Qed.

Section Runs.

Import RegExp.

Variable p : jschar -> bool.

(** Where [p+] matches first: past the units outside the class, for the
    whole run of units in it. *)
Lemma exec_from_Plus (a run t : jsstring) (i : nat) :
  forallb (fun x => negb (p x)) a = true ->
  nonempty run = true -> forallb p run = true -> stops p t = true ->
  exec_from (Plus p) i (a ++ run ++ t)
  = Some {| index := i + length a; matched := run; groups := [] |}.
Proof.
  intros Ha Hne Hrun Ht. rewrite exec_from_skips.
  - apply exec_from_leads with (t := t); [reflexivity|]. now apply leads_Plus.
  - intros u1 u2 -> Hu2. apply Cls_fails.
    rewrite forallb_app in Ha. apply andb_true_iff in Ha as [_ Ha].
    destruct u2 as [|c u2]; [contradiction|]. simpl in *.
    now apply andb_true_iff in Ha as [-> _].
Qed.

Lemma exec_from_Plus_none (a : jsstring) (i : nat) :
  forallb (fun x => negb (p x)) a = true -> exec_from (Plus p) i a = None.
Proof.
  intros Ha. rewrite <- (app_nil_r a), exec_from_skips.
  - reflexivity.
  - intros u1 u2 -> Hu2. apply Cls_fails.
    rewrite forallb_app in Ha. apply andb_true_iff in Ha as [_ Ha].
    destruct u2 as [|c u2]; [contradiction|]. simpl in *.
    now apply andb_true_iff in Ha as [-> _].
Qed.

(** One turn of the replacement of every run of the class by one unit. *)
Lemma replace_loop_Plus (fuel : nat) (h : jschar) (a run t : jsstring) (i : nat) :
  forallb (fun x => negb (p x)) a = true ->
  nonempty run = true -> forallb p run = true -> stops p t = true ->
  replace_loop (S fuel) (Plus p) (fun _ => [h]) i (a ++ run ++ t)
  = a ++ h :: replace_loop fuel (Plus p) (fun _ => [h])
                (i + length a + length run) t.
Proof.
  intros Ha Hne Hrun Ht. cbn [replace_loop].
  rewrite (exec_from_Plus a run t i Ha Hne Hrun Ht). cbn [index matched].
  destruct run as [|r0 run]; [discriminate|].
  replace (i + length a - i) with (length a) by lia.
  rewrite firstn_app, Nat.sub_diag, firstn_all. cbn [firstn].
  rewrite app_nil_r. f_equal. cbn [app]. f_equal. f_equal.
  rewrite skipn_app, skipn_all2 by lia.
  replace (length a + length (r0 :: run) - length a)
    with (length (r0 :: run)) by lia.
  cbn [app]. change (r0 :: run ++ t) with ((r0 :: run) ++ t).
  rewrite skipn_app, Nat.sub_diag, skipn_all. reflexivity.
Qed.

Lemma replace_loop_Plus_none (fuel : nat) (h : jschar) (a : jsstring) (i : nat) :
  forallb (fun x => negb (p x)) a = true ->
  replace_loop (S fuel) (Plus p) (fun _ => [h]) i a = a.
Proof.
  intros Ha. cbn [replace_loop]. now rewrite exec_from_Plus_none.
Qed.

(** A text is free of the class, or splits at its first run. *)
Lemma first_run (s : jsstring) :
  forallb (fun x => negb (p x)) s = true
  \/ exists a run t,
       s = a ++ run ++ t
       /\ forallb (fun x => negb (p x)) a = true
       /\ nonempty run = true /\ forallb p run = true /\ stops p t = true.
Proof.
  set (q := fun x => negb (p x)).
  pose proof (take_drop q s) as Hs.
  pose proof (take_while_all q s) as Ha.
  pose proof (drop_while_stops q s) as Hb.
  destruct (drop_while q s) as [|c b'] eqn:Eb.
  - left. rewrite app_nil_r in Hs. now rewrite Hs.
  - right. exists (take_while q s), (take_while p (c :: b')), (drop_while p (c :: b')).
    rewrite <- take_drop. repeat split; try assumption.
    + simpl in Hb. unfold q in Hb.
      apply negb_true_iff, negb_false_iff in Hb. simpl. now rewrite Hb.
    + apply take_while_all.
    + apply drop_while_stops.
Qed.

End Runs.

Section Hyphens.

Import RegExp.

Local Abbreviation hy := (only hyphen).

Lemma hy_eq (x : jschar) : hy x = true -> x = hyphen.
Proof. unfold only. intros H. apply N.eqb_eq in H. now symmetry. Qed.

Lemma hyphen_not_slug_char : not_slug_char hyphen = true.
Proof. reflexivity. Qed.

Lemma slug_char_not_hyphen (x : jschar) : not_slug_char x = false -> hy x = false.
Proof.
  intros H. destruct (hy x) eqn:E; [|reflexivity].
  apply hy_eq in E. subst x. now rewrite hyphen_not_slug_char in H.
Qed.

Lemma all_hyphens_last (s : jsstring) :
  nonempty s = true -> forallb hy s = true -> exists t, s = t ++ [hyphen].
Proof.
  destruct s as [|c s] using rev_ind; [discriminate|].
  intros _ H. rewrite forallb_app in H. apply andb_true_iff in H as [_ H].
  simpl in H. rewrite andb_true_r in H. apply hy_eq in H. subst c. now exists s.
Qed.

(** A text splits into a part that does not end in a hyphen and the hyphens
    after it. *)
Lemma trailing_hyphens (s : jsstring) :
  exists c0 tl, s = c0 ++ tl /\ forallb hy tl = true
                /\ forall t, c0 <> t ++ [hyphen].
Proof.
  induction s as [|x s IH] using rev_ind.
  - exists [], []. repeat split. intros t H. now destruct t.
  - destruct (hy x) eqn:E.
    + destruct IH as (c0 & tl & -> & Htl & Hc0).
      exists c0, (tl ++ [x]). rewrite app_assoc. repeat split; [|assumption].
      rewrite forallb_app, Htl. cbn [forallb andb]. now rewrite E.
    + exists (s ++ [x]), []. rewrite app_nil_r. repeat split.
      intros t H. apply app_inj_tail in H as [_ ->].
      unfold only in E. now rewrite N.eqb_refl in E.
Qed.

(** The first success of a pattern at an offset is the match [exec] reports
    there. *)
Lemma exec_from_first (r : regex) (consumed t : jsstring) (i j : nat)
      (gs : list (nat * jsstring)) (l : list mstate) :
  ends r (MState i (consumed ++ t) []) = MState j t gs :: l ->
  exec_from r i (consumed ++ t)
  = Some {| index := i; matched := consumed; groups := gs |}.
Proof.
  intros E. rewrite exec_from_unfold, E. cbn [pos caps].
  assert (In (MState j t gs) (ends r (MState i (consumed ++ t) []))) as Hin
      by (rewrite E; now left).
  apply ends_consumes in Hin as (c' & Hc & Hj). cbn [rest pos] in Hc, Hj.
  apply app_inv_tail in Hc. subst c' j.
  replace (i + length consumed - i) with (length consumed) by lia.
  now rewrite firstn_app, Nat.sub_diag, firstn_all, app_nil_r.
Qed.

(** [-+$] succeeds only on a text of hyphens. *)
Lemma ends_hyphens_to_end (j : nat) (s : jsstring) (cs : list (nat * jsstring))
      (st' : mstate) :
  In st' (ends (Seq (Plus hy) Eol) (MState j s cs)) ->
  nonempty s = true /\ forallb hy s = true.
Proof.
  cbn [ends]. intros H.
  apply in_flat_map in H as (st1 & H1 & H).
  apply in_flat_map in H1 as (st2 & H2 & H1).
  apply in_ends_Cls in H2 as (c & s' & Hs & Hc & ->).
  cbn [rest] in Hs. subst s.
  cbn [ends advance pos rest caps] in H1.
  apply in_star_ends in H1 as (a & b & -> & Ha & ->).
  cbn [ends rest] in H. destruct b; [|destruct H].
  split; [reflexivity|]. cbn [forallb]. now rewrite Hc, app_nil_r.
Qed.

(** The two alternatives of the pattern of the edge hyphens. *)
Lemma ends_edge (j : nat) (s : jsstring) (cs : list (nat * jsstring)) :
  ends edgeHyphens (MState j s cs)
  = (if Nat.eqb j 0 then ends (Plus hy) (MState j s cs) else [])
      ++ ends (Seq (Plus hy) Eol) (MState j s cs).
Proof.
  unfold edgeHyphens. cbn [ends pos].
  destruct (Nat.eqb j 0); cbn [flat_map]; rewrite ?app_nil_r; reflexivity.
Qed.

(** Where the pattern of the edge hyphens fails. *)
Lemma edge_none (j : nat) (s : jsstring) :
  0 < j \/ stops hy s = true ->
  ~ (nonempty s = true /\ forallb hy s = true) ->
  ends edgeHyphens (MState j s []) = [].
Proof.
  intros Hj Hs. rewrite ends_edge.
  assert ((if Nat.eqb j 0 then ends (Plus hy) (MState j s []) else []) = []) as ->.
  { destruct (Nat.eqb j 0) eqn:E; [|reflexivity].
    apply Nat.eqb_eq in E. destruct Hj as [Hj|Hj]; [lia|].
    unfold Plus. now apply Cls_fails. }
  cbn [app].
  destruct (ends (Seq (Plus hy) Eol) (MState j s [])) as [|st' l] eqn:E;
    [reflexivity|].
  exfalso. apply Hs. apply (@ends_hyphens_to_end j s [] st').
  rewrite E. now left.
Qed.

(** The hyphens at the start are the first match. *)
Lemma edge_lead_match (lead u1 : jsstring) :
  nonempty lead = true -> forallb hy lead = true -> stops hy u1 = true ->
  exec_from edgeHyphens 0 (lead ++ u1)
  = Some {| index := 0; matched := lead; groups := [] |}.
Proof.
  intros Hne Hl Hu.
  destruct (@leads_Plus hy lead u1 [] Hne Hl Hu 0) as (j & l & E).
  apply exec_from_first with (j := j) (l := l ++ ends (Seq (Plus hy) Eol)
                                                (MState 0 (lead ++ u1) [])).
  rewrite ends_edge. cbn [Nat.eqb]. now rewrite E.
Qed.

(** The hyphens at the end are a match of the second alternative. *)
Lemma edge_tail_match (tl : jsstring) (j : nat) :
  0 < j -> nonempty tl = true -> forallb hy tl = true ->
  exec_from edgeHyphens j tl
  = Some {| index := j; matched := tl; groups := [] |}.
Proof.
  intros Hj Hne Htl.
  assert (leads (Seq (Plus hy) Eol) (tl ++ []) [] [] []) as Hl.
  { apply (leads_Seq (s1 := []) (cs1 := [])).
    - now apply leads_Plus.
    - intros i. now exists i, []. }
  destruct (Hl j) as (k & l & E).
  rewrite <- (app_nil_r tl) at 1.
  apply exec_from_first with (j := k) (l := l).
  rewrite ends_edge.
  destruct (Nat.eqb_neq j 0) as [_ ->]; [|lia].
  exact E.
Qed.

Lemma replace_edge_nil (fuel i : nat) :
  replace_loop fuel edgeHyphens (fun _ => []) i [] = [].
Proof. destruct fuel; [reflexivity|]. cbn. now destruct (Nat.eqb i 0). Qed.

(** Once the start is dealt with, the replacement removes the hyphens at the
    end and nothing else. *)
Lemma trim_tail (fuel : nat) (c0 tl : jsstring) (i : nat) :
  (forall t, c0 <> t ++ [hyphen]) -> forallb hy tl = true ->
  0 < i \/ stops hy (c0 ++ tl) = true ->
  replace_loop (S fuel) edgeHyphens (fun _ => []) i (c0 ++ tl) = c0.
Proof.
  intros Hc0 Htl Hi.
  assert (forall u1 u2 v, c0 = u1 ++ u2 -> u2 <> [] -> forallb hy v = true ->
                          (v = [] \/ v = tl) ->
                          ends edgeHyphens (MState (i + length u1) (u2 ++ v) []) = [])
    as Hskip.
  { intros u1 u2 v Hc Hu2 Hv Hvv. apply edge_none.
    - destruct u1 as [|x u1]; [|left; simpl; lia].
      cbn [app] in Hc. subst u2. destruct Hi as [Hi|Hi]; [left; simpl; lia|].
      right. destruct c0 as [|c c0]; [contradiction|]. exact Hi.
    - intros [_ Hall]. rewrite forallb_app in Hall.
      apply andb_true_iff in Hall as [Hall _].
      destruct (@all_hyphens_last u2) as [t Ht]; [now destruct u2|assumption|].
      apply (Hc0 (u1 ++ t)). now rewrite Hc, Ht, app_assoc. }
  destruct tl as [|x tl].
  - rewrite app_nil_r. cbn [replace_loop].
    assert (exec_from edgeHyphens i c0 = None) as ->; [|reflexivity].
    apply exec_from_none. intros pre suf Hc.
    destruct suf as [|y suf].
    + apply edge_none; [right; reflexivity | now intros [? _]].
    + rewrite <- (app_nil_r (y :: suf)).
      apply Hskip with (v := []); auto. discriminate.
  - cbn [replace_loop]. rewrite exec_from_skips.
    2:{ intros u1 u2 Hc Hu2. apply Hskip; auto. }
    rewrite edge_tail_match; [| |reflexivity|assumption].
    2:{ destruct Hi as [Hi|Hi]; [lia|]. destruct c0 as [|c c0]; [|simpl; lia].
        exfalso. simpl in Hi, Htl. apply andb_true_iff in Htl as [Hx _].
        now rewrite Hx in Hi. }
    cbn [index matched].
    replace (i + length c0 - i) with (length c0) by lia.
    rewrite firstn_app, Nat.sub_diag, firstn_all. cbn [firstn app].
    rewrite skipn_all2 by (rewrite length_app; lia).
    now rewrite replace_edge_nil, !app_nil_r.
Qed.

(** The second replacement of the slug: the hyphens at both ends go, the text
    between them stays. *)
Lemma replace_edge_hyphens (u : jsstring) :
  exists lead c0 tl,
    u = lead ++ c0 ++ tl
    /\ forallb hy lead = true /\ forallb hy tl = true
    /\ stops hy c0 = true /\ (forall t, c0 <> t ++ [hyphen])
    /\ replace_g edgeHyphens (fun _ => []) u = c0.
Proof.
  pose proof (take_drop hy u) as Hu.
  pose proof (take_while_all hy u) as Hlead.
  pose proof (drop_while_stops hy u) as Hstop.
  destruct (trailing_hyphens (drop_while hy u)) as (c0 & tl & Hu1 & Htl & Hc0).
  rewrite Hu1 in Hu, Hstop.
  assert (stops hy c0 = true) as Hc.
  { destruct c0 as [|c c0]; [reflexivity | exact Hstop]. }
  exists (take_while hy u), c0, tl. repeat split; try assumption.
  unfold replace_g. rewrite Hu at 2.
  destruct (take_while hy u) as [|x lead] eqn:El.
  - cbn [app]. apply trim_tail; auto.
  - cbn [replace_loop]. rewrite edge_lead_match; [|reflexivity|assumption|assumption].
    cbn [index matched Nat.sub firstn app Nat.add].
    change (x :: lead ++ c0 ++ tl) with ((x :: lead) ++ c0 ++ tl).
    rewrite skipn_app, Nat.sub_diag, skipn_all. cbn [skipn app].
    rewrite Hu. cbn [length app]. apply trim_tail; auto.
Qed.

End Hyphens.

Section SlugShape.

Import RegExp.

Local Abbreviation hy := (only hyphen).
Local Abbreviation kept := (fun x => slug_unit x || only hyphen x).

Lemma no_double_free (s : jsstring) :
  forallb (fun x => negb (hy x)) s = true -> no_double_hyphen s = true.
Proof.
  induction s as [|c s IH]; [reflexivity|]. cbn [forallb no_double_hyphen].
  intros H. apply andb_true_iff in H as [Hc Hs].
  destruct s as [|d s]; [reflexivity|].
  apply negb_true_iff in Hc. rewrite Hc. cbn [andb negb]. now apply IH.
Qed.

Lemma no_double_join (a r : jsstring) :
  forallb (fun x => negb (hy x)) a = true ->
  stops hy r = true -> no_double_hyphen r = true ->
  no_double_hyphen (a ++ hyphen :: r) = true.
Proof.
  intros Ha Hr Hnd. induction a as [|c a IH].
  - cbn [app no_double_hyphen]. destruct r as [|d r]; [reflexivity|].
    cbn [stops] in Hr. apply negb_true_iff in Hr. rewrite Hr, andb_false_r.
    exact Hnd.
  - cbn [forallb] in Ha. apply andb_true_iff in Ha as [Hc Ha].
    specialize (IH Ha). cbn [app no_double_hyphen].
    destruct (a ++ hyphen :: r) as [|d t] eqn:E; [reflexivity|].
    apply negb_true_iff in Hc. rewrite Hc. exact IH.
Qed.

Lemma no_double_tail (a b : jsstring) :
  no_double_hyphen (a ++ b) = true -> no_double_hyphen b = true.
Proof.
  induction a as [|c a IH]; [trivial|]. cbn [app no_double_hyphen].
  destruct (a ++ b) as [|d t] eqn:E.
  - apply app_eq_nil in E as [_ ->]. reflexivity.
  - intros H. apply andb_true_iff in H as [_ H]. now apply IH.
Qed.

Lemma no_double_head (a b : jsstring) :
  no_double_hyphen (a ++ b) = true -> no_double_hyphen a = true.
Proof.
  induction a as [|c a IH]; [reflexivity|]. cbn [app no_double_hyphen].
  destruct a as [|d a]; [reflexivity|]. cbn [app].
  intros H. apply andb_true_iff in H as [-> H]. now apply IH.
Qed.

Lemma slug_units_not_hyphen (a : jsstring) :
  forallb (fun x => negb (not_slug_char x)) a = true ->
  forallb (fun x => negb (hy x)) a = true /\ forallb kept a = true.
Proof.
  induction a as [|c a IH]; [now split|]. cbn [forallb]. intros H.
  apply andb_true_iff in H as [Hc Ha]. destruct (IH Ha) as [-> ->].
  apply negb_true_iff in Hc.
  unfold slug_unit. rewrite (slug_char_not_hyphen _ Hc).
  unfold not_slug_char in Hc. apply negb_false_iff in Hc. now rewrite Hc.
Qed.

(** The first replacement of the slug leaves slug units and single hyphens;
    its result starts with a hyphen only where the text started outside the
    slug units. *)
Lemma collapse_shape (fuel : nat) (s : jsstring) (i : nat) :
  length s < fuel ->
  forallb kept (replace_loop fuel nonWordRun (fun _ => [hyphen]) i s) = true
  /\ no_double_hyphen (replace_loop fuel nonWordRun (fun _ => [hyphen]) i s) = true
  /\ (stops not_slug_char s = true ->
      stops hy (replace_loop fuel nonWordRun (fun _ => [hyphen]) i s) = true).
Proof.
  revert s i. induction fuel as [|fuel IH]; intros s i Hlen; [lia|].
  unfold nonWordRun.
  destruct (first_run not_slug_char s)
    as [Hfree | (a & run & t & -> & Ha & Hne & Hrun & Ht)].
  - rewrite replace_loop_Plus_none by assumption.
    destruct (slug_units_not_hyphen _ Hfree) as [Hnh Hk].
    repeat split; [assumption | now apply no_double_free |].
    intros _. destruct s as [|c s]; [reflexivity|].
    cbn [forallb stops] in Hnh |- *. now apply andb_true_iff in Hnh as [-> _].
  - rewrite replace_loop_Plus by assumption.
    destruct (slug_units_not_hyphen _ Ha) as [Hnh Hk].
    destruct (IH t (i + length a + length run)) as (Hk' & Hnd & Hst).
    { rewrite !length_app in Hlen. destruct run; [discriminate|]. simpl in Hlen. lia. }
    fold nonWordRun. specialize (Hst Ht).
    repeat split.
    + rewrite forallb_app, Hk. cbn [forallb andb]. rewrite Hk'.
      unfold only. now rewrite N.eqb_refl, orb_true_r.
    + now apply no_double_join.
    + destruct a as [|c a].
      * destruct run as [|r0 run]; [discriminate|]. cbn [forallb app stops] in Hrun |- *.
        apply andb_true_iff in Hrun as [-> _]. discriminate.
      * intros _. cbn [forallb app stops] in Hnh |- *.
        now apply andb_true_iff in Hnh as [-> _].
Qed.

End SlugShape.

(** X14. Whatever the text and whatever the host's lower-casing gives, the
    slug computed for the handle filter and for the id of a section wrapper
    holds only word units, units from U+00C0 to U+024F and hyphens, has no
    two hyphens in a row, and neither starts nor ends with a hyphen. *)
Theorem slug_shape (h : Host) (s : jsstring) :
  forallb (fun x => slug_unit x || RegExp.only hyphen x) (slug h s) = true
  /\ no_double_hyphen (slug h s) = true
  /\ (forall t, slug h s <> hyphen :: t)
  /\ (forall t, slug h s <> t ++ [hyphen]).
Proof.
  unfold slug.
  destruct (@collapse_shape (S (length (toLowerCase h s))) (toLowerCase h s) 0)
    as (Hk & Hnd & _); [lia|].
  change (RegExp.replace_loop (S (length (toLowerCase h s))) nonWordRun
            (fun _ => [hyphen]) 0 (toLowerCase h s))
    with (RegExp.replace_g nonWordRun (fun _ => lit "-") (toLowerCase h s))
    in Hk, Hnd.
  destruct (replace_edge_hyphens
              (RegExp.replace_g nonWordRun (fun _ => lit "-") (toLowerCase h s)))
    as (lead & c0 & tl & Hu & _ & _ & Hc & Hc0 & ->).
  rewrite Hu in Hk, Hnd.
  rewrite !forallb_app in Hk.
  apply andb_true_iff in Hk as [_ Hk]. apply andb_true_iff in Hk as [Hk _].
  apply no_double_tail, no_double_head in Hnd.
  repeat split; try assumption.
  intros t ->. cbn [stops] in Hc. unfold RegExp.only in Hc.
  now rewrite N.eqb_refl in Hc.
Qed.

(** ** The form tag *)

Lemma includes_false (L pre suf : jsstring) :
  includes L (pre ++ suf) = false -> prefixb L suf = false.
Proof.
  induction pre as [|c pre IH]; cbn [app].
  - destruct suf; cbn [includes]; intros H; now apply orb_false_iff in H as [H _].
  - cbn [includes]. intros H. apply orb_false_iff in H as [_ H]. now apply IH.
Qed.

(** A pattern that opens with a group opening with a literal matches nowhere
    in a text that does not hold the literal. *)
Lemma literal_absent (n : nat) (L : jsstring) (r1 r2 : RegExp.regex)
      (s : jsstring) (i : nat) :
  includes L s = false ->
  RegExp.exec_from
    (RegExp.Seq (RegExp.Group n (RegExp.Seq (RegExp.Lit L) r1)) r2) i s = None.
Proof.
  intros H. apply exec_from_none. intros pre suf ->.
  cbn [RegExp.ends]. rewrite Lit_fails; [reflexivity|].
  cbn [RegExp.rest]. now apply includes_false with (pre := pre).
Qed.

Lemma form_arguments_plain (a : jsstring) :
  nonempty a = true ->
  includes (lit "class:") a = false -> includes (lit "data-") a = false ->
  form_arguments a = Ok (Null, Some []).
Proof.
  intros Hne Hc Hd. unfold form_arguments. rewrite Hne.
  unfold form_class, RegExp.exec, formClassRE.
  rewrite (@literal_absent _ _ _ _ _ _ Hc).
  unfold matchAll. cbn [matchAll_loop]. unfold dataAttributesRE.
  rewrite (@literal_absent _ _ _ _ _ _ Hd). reflexivity.
Qed.

(** X15. A form tag without arguments is parsed, its block scanned up to
    endform, and then never renders: [this.dataAttributes] was not assigned,
    so once the engine has rendered the block's text the render routine
    raises a TypeError (or the engine's own failure, when it has one). *)
Theorem form_without_arguments (h : Host) (tagToken : token)
        (remainTokens rest : list token) (this : form_tag) (ctx : context)
        (st : state) :
  args tagToken = [] ->
  form_parse tagToken remainTokens = Ok (this, rest) ->
  scan_block (lit "endform") tagToken remainTokens = Ok (form_tokens this, rest)
  /\ form_render h this ctx st
     = match parseAndRender h (Str (content (form_tokens this)))
               (getAll ctx) (opts ctx) st with
       | (Ok _, st') => (Throw TypeError, st')
       | (Throw e, st') => (Throw e, st')
       end.
Proof.
  intros Hargs Hparse. unfold form_parse in Hparse. rewrite Hargs in Hparse.
  cbn [form_arguments nonempty] in Hparse.
  destruct (scan_block (lit "endform") tagToken remainTokens) as [[toks rem]|e];
    [|discriminate].
  injection Hparse as <- <-. split; [reflexivity|].
  unfold form_render. cbn [form_tokens dataAttributes]. unfold bind at 1.
  destruct (parseAndRender h (Str (content toks)) (getAll ctx) (opts ctx) st)
    as [[html|e] st']; reflexivity.
Qed.

Lemma form_without_arguments_witness :
  form_parse (Demo.tag "form" "") [Demo.html "<input>"; Demo.tag "endform" ""]
  = Ok (FormTag Null None [Demo.html "<input>"], [])
  /\ fst (form_render Demo.host (FormTag Null None [Demo.html "<input>"])
            Demo.ctx Demo.start)
     = Throw TypeError.
Proof.
  split; [reflexivity|].
  destruct (@form_without_arguments Demo.host (Demo.tag "form" "")
              [Demo.html "<input>"; Demo.tag "endform" ""] []
              (FormTag Null None [Demo.html "<input>"]) Demo.ctx Demo.start
              eq_refl eq_refl) as [_ ->].
  reflexivity.
Defined.

(** X16. A form tag whose arguments are not empty and hold neither
    [class:] nor [data-] (the usual [{% form 'contact' %}]) renders the
    block's text with the engine and hands the engine the result between
    a form start tag with an empty class and the form end tag. *)
Theorem form_plain (h : Host) (tagToken : token)
        (remainTokens rest : list token) (this : form_tag) (ctx : context)
        (st : state) :
  nonempty (args tagToken) = true ->
  includes (lit "class:") (args tagToken) = false ->
  includes (lit "data-") (args tagToken) = false ->
  form_parse tagToken remainTokens = Ok (this, rest) ->
  scan_block (lit "endform") tagToken remainTokens = Ok (form_tokens this, rest)
  /\ form_render h this ctx st
     = (inner <- parseAndRender h (Str (content (form_tokens this)))
                   (getAll ctx) (opts ctx) ;;
        parseAndRender h
          (Str (lit "<form class=" ++ dquote ++ dquote ++ lit ">"
                  ++ inner ++ lit "</form>"))
          (getAll ctx) (opts ctx))%js st.
Proof.
  intros Hne Hc Hd Hparse. unfold form_parse in Hparse.
  rewrite (@form_arguments_plain _ Hne Hc Hd) in Hparse.
  destruct (scan_block (lit "endform") tagToken remainTokens) as [[toks rem]|e];
    [|discriminate].
  injection Hparse as <- <-. split; [reflexivity|].
  unfold form_render. cbn [form_tokens dataAttributes formClass truthy].
  unfold bind.
  destruct (parseAndRender h (Str (content toks)) (getAll ctx) (opts ctx) st)
    as [[html|e] st']; reflexivity.
Qed.

Lemma form_plain_witness :
  form_parse (Demo.tag "form" "'contact'")
    [Demo.html "<input>"; Demo.tag "endform" ""]
  = Ok (FormTag Null (Some []) [Demo.html "<input>"], [])
  /\ fst (form_render Demo.host
            (FormTag Null (Some []) [Demo.html "<input>"]) Demo.ctx Demo.start)
     = Ok (lit "<form class=" ++ dquote ++ dquote ++ lit "><input></form>").
Proof.
  split; [reflexivity|].
  destruct (@form_plain Demo.host (Demo.tag "form" "'contact'")
              [Demo.html "<input>"; Demo.tag "endform" ""] []
              (FormTag Null (Some []) [Demo.html "<input>"]) Demo.ctx Demo.start
              eq_refl eq_refl eq_refl eq_refl) as [_ ->].
  reflexivity.
Defined.

(** ** Successes tried and given up *)

Section Reaching.

Import RegExp.

Lemma reaches_Plus (p : jschar -> bool) (a b : jsstring) (cs : list (nat * jsstring)) :
  nonempty a = true -> forallb p a = true ->
  reaches (Plus p) (a ++ b) cs b cs
          (fun w => exists u, b = u ++ w /\ u <> [] /\ forallb p u = true).
Proof.
  intros Hne Ha i. destruct a as [|c a]; [discriminate|].
  cbn [forallb] in Ha. apply andb_true_iff in Ha as [Hc Ha].
  unfold Plus. rewrite ends_Seq. cbn [app ends rest]. rewrite Hc.
  cbn [flat_map advance pos caps ends rest]. rewrite app_nil_r.
  destruct (star_ends_split p a b (S i) cs Ha) as (l1 & l2 & -> & Hl1).
  exists (S i + length a), l1, l2. split; [reflexivity|].
  intros y Hy. destruct (Hl1 y Hy) as (u & v & -> & Hu & <- & _ & Hpu).
  now exists u.
Qed.

Lemma reaches_Group (n : nat) (r : regex) (consumed mid : jsstring)
      (cs cs' : list (nat * jsstring)) (bad : jsstring -> Prop) :
  reaches r (consumed ++ mid) cs mid cs' bad ->
  reaches (Group n r) (consumed ++ mid) cs mid ((n, consumed) :: cs') bad.
Proof.
  intros H i. destruct (H i) as (j & l1 & l2 & E & Hbad).
  assert (j = i + length consumed) as ->.
  { assert (In (MState j mid cs') (ends r (MState i (consumed ++ mid) cs))) as Hin
      by (rewrite E; apply in_elt).
    apply ends_consumes in Hin as (c & Hc & Hj). cbn [pos rest] in Hc, Hj.
    apply app_inv_tail in Hc. now subst c. }
  cbn [ends]. rewrite E, map_app. cbn [List.map pos rest caps].
  replace (i + length consumed - i) with (length consumed) by lia.
  rewrite firstn_app, Nat.sub_diag, firstn_all. cbn [firstn]. rewrite app_nil_r.
  eexists _, _, _. split; [reflexivity|].
  intros y Hy. apply in_map_iff in Hy as (y0 & <- & Hy0). cbn [rest]. auto.
Qed.

Lemma reaches_after (r0 r : regex) (s s0 mid : jsstring)
      (cs cs0 cs' : list (nat * jsstring)) (bad : jsstring -> Prop) :
  leads r0 s cs s0 cs0 -> reaches r s0 cs0 mid cs' bad ->
  reaches (Seq r0 r) s cs mid cs' bad.
Proof.
  intros H0 H i. destruct (H0 i) as (j0 & l0 & E0).
  destruct (H j0) as (j & l1 & l2 & E & Hbad).
  rewrite ends_Seq, E0. cbn [flat_map]. rewrite E, <- app_assoc. cbn [app].
  eexists _, _, _. split; [reflexivity | assumption].
Qed.

(** The first success of a sequence, when the successes of its first part
    tried before the good one all fail in the second part. *)
Lemma leads_backtrack (r k : regex) (s mid t : jsstring)
      (cs cs' gs : list (nat * jsstring)) (bad : jsstring -> Prop) :
  reaches r s cs mid cs' bad ->
  (forall y, bad (rest y) -> ends k y = []) ->
  leads k mid cs' t gs ->
  leads (Seq r k) s cs t gs.
Proof.
  intros Hr Hbad Hk i. destruct (Hr i) as (j & l1 & l2 & E & Hl1).
  destruct (Hk j) as (j' & l & Ek).
  rewrite ends_Seq, E, flat_map_skip, Ek; [now eexists _, _|].
  intros y Hy. apply Hbad. now apply Hl1.
Qed.

End Reaching.

(** ** The data attributes of a form tag *)

Section DataLines.

Import RegExp.

Lemma leads_a_quote (c : jschar) (s : jsstring) (cs : list (nat * jsstring)) :
  is_quote c = true -> leads a_quote (c :: s) cs s cs.
Proof.
  intros H i. unfold a_quote. cbn [ends rest]. unfold is_quote in H.
  destruct (only (ch "'") c) eqn:E1.
  - now eexists _, _.
  - cbn [orb] in H. rewrite H. now eexists _, _.
Qed.

Lemma a_quote_fails (s : jsstring) (i : nat) (cs : list (nat * jsstring)) :
  stops is_quote s = true -> ends a_quote (MState i s cs) = [].
Proof.
  destruct s as [|c s]; [reflexivity|]. cbn [stops]. unfold is_quote.
  intros H. apply negb_true_iff, orb_false_iff in H as [H1 H2].
  unfold a_quote. cbn [ends rest]. now rewrite H1, H2.
Qed.

Lemma stops_dot_unit (c : jschar) (s : jsstring) :
  dot c = true -> stops dot s = true -> prefixb [c] s = false.
Proof.
  intros Hc Hs. destruct s as [|d s]; [reflexivity|]. cbn [stops] in Hs.
  cbn [prefixb]. destruct (N.eqb c d) eqn:E; [|reflexivity].
  apply N.eqb_eq in E. subst d. now rewrite Hc in Hs.
Qed.

Lemma stops_dot_quote (s : jsstring) :
  stops dot s = true -> stops is_quote s = true.
Proof.
  destruct s as [|c s]; [reflexivity|]. cbn [stops]. intros H.
  apply negb_true_iff in H. apply negb_true_iff. unfold is_quote, only.
  apply orb_false_iff. split.
  - destruct (N.eqb (ch "'") c) eqn:E; [|reflexivity].
    apply N.eqb_eq in E. subst c. discriminate.
  - destruct (N.eqb dq c) eqn:E; [|reflexivity].
    apply N.eqb_eq in E. subst c. discriminate.
Qed.

(** After the last colon and blank of a line none follows, as far as a run
    of units of the line goes. *)
Lemma last_separator (body rest u w : jsstring) :
  includes (lit ": ") body = false -> stops dot rest = true ->
  lit ": " ++ body ++ rest = u ++ w -> u <> [] -> forallb dot u = true ->
  prefixb (lit ": ") w = false.
Proof.
  intros Hbody Hrest Huw Hu Hdot.
  assert (prefixb (lit ": ") rest = false) as Hr0.
  { destruct rest as [|d rest]; [reflexivity|]. cbn [stops] in Hrest.
    change (lit ": ") with [58; 32]%N. cbn [prefixb].
    destruct (N.eqb 58 d) eqn:E; [|reflexivity].
    apply N.eqb_eq in E. subst d. discriminate. }
  destruct u as [|c1 u']; [contradiction|].
  change (lit ": ") with [58; 32]%N in *. cbn [app] in Huw.
  injection Huw as _ Huw. cbn [forallb] in Hdot.
  apply andb_true_iff in Hdot as [_ Hdot].
  change (32%N :: body ++ rest) with ((32%N :: body) ++ rest) in Huw.
  assert (includes [58; 32]%N (32%N :: body) = false) as HX.
  { cbn [includes prefixb]. cbn. exact Hbody. }
  apply app_eq_app in Huw as [l [[HXl Hw] | [Hu' Hr]]].
  - subst w. destruct l as [|c [|d l']].
    + exact Hr0.
    + cbn [app]. change (prefixb [58; 32]%N (c :: rest))
        with (N.eqb 58 c && prefixb [32%N] rest).
      apply andb_false_iff. right.
      exact (@stops_dot_unit 32%N rest eq_refl Hrest).
    + rewrite HXl in HX. apply includes_false in HX.
      cbn [app prefixb] in HX |- *. exact HX.
  - destruct l as [|d l'].
    + cbn [app] in Hr. now subst w.
    + exfalso. subst rest u'. cbn [app stops] in Hrest.
      rewrite !forallb_app in Hdot. cbn [forallb] in Hdot.
      apply andb_true_iff in Hdot as [_ Hdot].
      apply andb_true_iff in Hdot as [Hd _]. now rewrite Hd in Hrest.
Qed.

(** A group of [data-] and a greedy name, then a literal: the name gives
    back units down to the last place where the literal stands. *)
Lemma leads_attribute (D C nm tl t : jsstring) (k : regex)
      (gs : list (nat * jsstring)) :
  nonempty nm = true -> forallb dot nm = true ->
  (forall u w, C ++ tl = u ++ w -> u <> [] -> forallb dot u = true ->
               prefixb C w = false) ->
  leads k tl [(1, D ++ nm); (2, nm)] t gs ->
  leads (Seq (Group 1 (Seq (Lit D) (Group 2 (Plus dot)))) (Seq (Lit C) k))
        (D ++ nm ++ C ++ tl) [] t gs.
Proof.
  intros Hne Hnm Hlast Hk.
  apply leads_backtrack
    with (mid := C ++ tl) (cs' := [(1, D ++ nm); (2, nm)])
         (bad := fun w => exists u, C ++ tl = u ++ w /\ u <> []
                                    /\ forallb dot u = true).
  - rewrite app_assoc. apply reaches_Group. rewrite <- app_assoc.
    apply reaches_after with (s0 := nm ++ C ++ tl) (cs0 := []); [apply leads_Lit|].
    apply reaches_Group. now apply reaches_Plus.
  - intros y (u & Huw & Hu & Hdot). rewrite ends_Seq, Lit_fails; [reflexivity|].
    now apply (Hlast u).
  - apply (leads_Seq (s1 := tl) (cs1 := [(1, D ++ nm); (2, nm)])); [apply leads_Lit|].
    exact Hk.
Qed.

(** The third group: the quote if one stands there, the rest of the line,
    and no closing quote, the rest of the line having taken it. *)
Lemma leads_value (a : attribute_line) (rest : jsstring)
      (cs : list (nat * jsstring)) :
  line_ok a = true -> stops dot rest = true ->
  leads (Group 3 (Seq (Opt (Group 4 a_quote))
                    (Seq (Opt (Group 5 (Plus dot))) (Opt (Group 6 a_quote)))))
        (opening a ++ remainder a ++ rest) cs rest (value_groups a cs).
Proof.
  intros Hok Hrest. unfold line_ok in Hok.
  repeat (apply andb_true_iff in Hok as [Hok ?]).
  rewrite forallb_app in *.
  match goal with H : _ && _ = true |- _ => apply andb_true_iff in H as [_ Hrem] end.
  unfold value_groups. rewrite app_assoc. apply leads_Group. rewrite <- app_assoc.
  assert (forall cs0, leads (Seq (Opt (Group 5 (Plus dot))) (Opt (Group 6 a_quote)))
                            (remainder a ++ rest) cs0 rest ((5, remainder a) :: cs0))
    as Hrest5.
  { intros cs0.
    apply (leads_Seq (s1 := rest) (cs1 := (5, remainder a) :: cs0)).
    - apply leads_take, leads_Group. now apply leads_Plus.
    - apply leads_skip. intros i. cbn [ends]. rewrite a_quote_fails; [reflexivity|].
      now apply stops_dot_quote. }
  destruct (opening a) as [|c [|d op]]; [| |discriminate].
  - cbn [app]. apply (leads_Seq (s1 := remainder a ++ rest) (cs1 := cs)); [|apply Hrest5].
    apply leads_skip. intros i. cbn [ends]. rewrite a_quote_fails; [reflexivity|].
    destruct (remainder a); [discriminate | assumption].
  - cbn [app].
    apply (leads_Seq (s1 := remainder a ++ rest) (cs1 := (4, [c]) :: cs));
      [|apply Hrest5].
    apply leads_take. apply (leads_Group 4 [c]).
    now apply leads_a_quote.
Qed.

(** The first match in a text that starts with a line. *)
Lemma exec_line (a : attribute_line) (rest : jsstring) (i : nat) :
  line_ok a = true -> stops dot rest = true ->
  exec_from dataAttributesRE i (before a ++ line_match a ++ rest)
  = Some {| index := i + length (before a);
            matched := line_match a;
            groups := line_groups a |}.
Proof.
  intros Hok Hrest. pose proof Hok as Hok'. unfold line_ok in Hok'.
  repeat (apply andb_true_iff in Hok' as [Hok' ?]).
  apply negb_true_iff in Hok'.
  rewrite exec_from_skips.
  - apply exec_from_leads with (t := rest); [reflexivity|].
    unfold dataAttributesRE, line_groups, line_match. rewrite <- !app_assoc.
    apply leads_attribute; try assumption.
    + intros u w Huw.
      apply (@last_separator (opening a ++ remainder a) rest u w);
        [now apply negb_true_iff | assumption | now rewrite <- app_assoc].
    + now apply leads_value.
  - intros u1 u2 Hb Hu2. unfold dataAttributesRE. rewrite ends_Seq.
    cbn [ends]. rewrite Lit_fails; [reflexivity|]. cbn [RegExp.rest].
    rewrite Hb in Hok'. apply includes_false in Hok'. unfold line_match.
    destruct u2 as [|c1 [|c2 [|c3 [|c4 [|c5 u2]]]]]; [contradiction| | | | |];
      change (lit "data-") with [100; 97; 116; 97; 45]%N in *;
      cbn [app prefixb] in Hok' |- *; try exact Hok';
      cbn; rewrite ?andb_false_r; reflexivity.
Qed.

End DataLines.

Lemma matchAll_step (fuel : nat) (r : RegExp.regex) (i : nat)
      (pre text rest : jsstring) (gs : list (nat * jsstring)) :
  RegExp.exec_from r i (pre ++ text ++ rest)
  = Some {| RegExp.index := i + length pre; RegExp.matched := text;
            RegExp.groups := gs |} ->
  nonempty text = true ->
  matchAll_loop (S fuel) r i (pre ++ text ++ rest)
  = {| RegExp.index := i + length pre; RegExp.matched := text;
       RegExp.groups := gs |}
      :: matchAll_loop fuel r (i + length pre + length text) rest.
Proof.
  intros E Hne. cbn [matchAll_loop]. rewrite E. cbn [RegExp.index RegExp.matched].
  destruct text as [|c text]; [discriminate|]. f_equal. f_equal.
  replace (i + length pre - i) with (length pre) by lia.
  rewrite skipn_app, skipn_all2 by lia.
  replace (length pre + length (c :: text) - length pre)
    with (length (c :: text)) by lia.
  now rewrite skipn_app, Nat.sub_diag, skipn_all.
Qed.

Lemma data_attribute_of_line (a : attribute_line) (i : nat) (text : jsstring) :
  data_attribute_of
    {| RegExp.index := i; RegExp.matched := text; RegExp.groups := line_groups a |}
  = Ok (read_attribute a).
Proof.
  unfold data_attribute_of, read_attribute, item_group, line_groups, value_groups.
  cbn [RegExp.groups]. destruct (opening a); reflexivity.
Qed.

Lemma matchAll_lines (ls : list attribute_line) (tail : jsstring) :
  lines_ok ls tail = true ->
  forall fuel i,
    length (lines_text ls tail) < fuel ->
    map_R data_attribute_of
      (matchAll_loop fuel dataAttributesRE i (lines_text ls tail))
    = Ok (List.map read_attribute ls).
Proof.
  induction ls as [|a ls IH]; intros Hok fuel i Hlen;
    (destruct fuel as [|fuel]; [lia|]); cbn [lines_ok] in Hok.
  - cbn [lines_text matchAll_loop]. unfold dataAttributesRE.
    apply negb_true_iff in Hok. now rewrite (@literal_absent _ _ _ _ _ _ Hok).
  - apply andb_true_iff in Hok as [Hok Hls].
    apply andb_true_iff in Hok as [Ha Hstop].
    cbn [lines_text] in Hlen |- *. unfold line_text in Hlen |- *.
    rewrite <- app_assoc in Hlen |- *.
    rewrite (@matchAll_step fuel dataAttributesRE i (before a) (line_match a)
               (lines_text ls tail) (line_groups a)
               (@exec_line a (lines_text ls tail) i Ha Hstop) eq_refl).
    cbn [map_R]. rewrite data_attribute_of_line, IH; [reflexivity|assumption|].
    rewrite !length_app in Hlen. assert (0 < length (line_match a)) by (cbn; lia).
    lia.
Qed.

(** X17. The data attributes of a form tag are read one per line of the
    arguments. In a line that holds [data-], the attribute runs from the
    first [data-] to the last colon and blank of the line, whatever stands
    between them; a quote right after them marks the value as a literal,
    and is left out; the value is the rest of the line, a closing quote
    included, with a final comma (and a quote before it) removed. *)
Theorem form_data_attributes (ls : list attribute_line) (tail : jsstring) :
  lines_ok ls tail = true ->
  nonempty (lines_text ls tail) = true ->
  form_arguments (lines_text ls tail)
  = Ok (form_class (lines_text ls tail), Some (List.map read_attribute ls)).
Proof.
  intros Hok Hne. unfold form_arguments. rewrite Hne.
  pose proof (@matchAll_lines ls tail Hok (S (length (lines_text ls tail))) 0
                (Nat.lt_succ_diag_r _)) as E.
  fold (matchAll dataAttributesRE (lines_text ls tail)) in E.
  destruct (matchAll dataAttributesRE (lines_text ls tail)) as [|m ms] eqn:Em.
  - cbn [length Nat.ltb Nat.leb]. cbn [map_R] in E. injection E as <-.
    reflexivity.
  - change (0 <? length (m :: ms)) with true. cbv iota. now rewrite E.
Qed.

Lemma form_data_attributes_witness :
  form_arguments
    (lit "'contact', data-a: 'x', data-b: 'y'" ++ [10%N]
       ++ lit "  data-id: product.id,")
  = Ok (Null,
        Some [ {| attribute := Str (lit "data-a: 'x', data-b");
                  attribute_value := lit "y'";
                  variable := false |};
               {| attribute := Str (lit "data-id");
                  attribute_value := lit "product.id";
                  variable := true |} ]).
Proof.
  exact (@form_data_attributes
           [ {| before := lit "'contact', ";
                attribute_name := lit "a: 'x', data-b";
                opening := lit "'";
                remainder := lit "y'" |};
             {| before := [10%N] ++ lit "  ";
                attribute_name := lit "id";
                opening := [];
                remainder := lit "product.id," |} ]
           [] eq_refl eq_refl).
Defined.

(** ** The value of a data attribute *)

Section TrailingComma.

Import RegExp.

Lemma in_ends_trailingComma (i : nat) (s : jsstring) (cs : list (nat * jsstring))
      (y : mstate) :
  In y (ends trailingComma (MState i s cs)) ->
  s = lit "," \/ s = lit "'" ++ lit ",".
Proof.
  unfold trailingComma. rewrite ends_Seq. intros H.
  apply in_flat_map in H as (st1 & H1 & H).
  rewrite ends_Seq in H. apply in_flat_map in H as (st2 & H2 & H).
  apply in_ends_Cls in H2 as (c & s' & Hs & Hc & ->).
  cbn [ends advance rest] in H. destruct s' as [|d s']; [|destruct H].
  apply N.eqb_eq in Hc. subst c.
  unfold Opt in H1. cbn [ends] in H1. apply in_app_or in H1 as [H1|H1].
  - change (In st1 (ends (Cls (only (ch "'"))) (MState i s cs))) in H1.
    apply in_ends_Cls in H1 as (c & s'' & Hs' & Hc & ->).
    cbn [rest advance] in Hs, Hs'. apply N.eqb_eq in Hc. subst c s'' s. now right.
  - destruct H1 as [<-|[]]. cbn [rest] in Hs. subst s. now left.
Qed.

Lemma trailingComma_fails (i : nat) (s : jsstring) :
  s <> lit "," -> s <> lit "'" ++ lit "," ->
  ends trailingComma (MState i s []) = [].
Proof.
  intros H1 H2. destruct (ends trailingComma (MState i s [])) as [|y l] eqn:E;
    [reflexivity|].
  destruct (@in_ends_trailingComma i s [] y); [rewrite E; now left| |]; contradiction.
Qed.

Lemma replace_found (r : regex) (pre text : jsstring) :
  exec r (pre ++ text)
  = Some {| index := length pre; matched := text; groups := [] |} ->
  replace_1 r (fun _ => []) (pre ++ text) = pre.
Proof.
  intros E. unfold replace_1. rewrite E. cbn [index matched app].
  rewrite firstn_app, Nat.sub_diag, firstn_all, skipn_all2
    by (rewrite length_app; lia).
  cbn [firstn]. now rewrite !app_nil_r.
Qed.

End TrailingComma.

(** X18. The value of a data attribute loses a final comma, with the single
    quote before it when there is one, and nothing else: a text that does
    not end in a comma is left as it is, its closing quote included. *)
Theorem attribute_value_strips_comma (v : jsstring) :
  (forall v0, v = v0 ++ lit "'" ++ lit "," ->
              RegExp.replace_1 trailingComma (fun _ => []) v = v0)
  /\ (forall v0, v = v0 ++ lit "," -> (forall t, v0 <> t ++ lit "'") ->
                 RegExp.replace_1 trailingComma (fun _ => []) v = v0)
  /\ ((forall v0, v <> v0 ++ lit ",") ->
      RegExp.replace_1 trailingComma (fun _ => []) v = v).
Proof.
  assert (forall (u2 t a : jsstring),
             u2 <> [] -> length a < length t -> u2 ++ t <> a) as Hlonger.
  { intros u2 t a Hu2 Hlen H. apply (f_equal (@length jschar)) in H.
    rewrite length_app in H. lia. }
  repeat split.
  - intros v0 ->. apply replace_found. unfold RegExp.exec.
    rewrite <- (app_nil_r (v0 ++ lit "'" ++ lit ",")), <- app_assoc.
    rewrite exec_from_skips.
    + apply exec_from_leads with (t := []); [reflexivity|].
      intros i. now eexists _, _.
    + intros u1 u2 -> Hu2. rewrite app_nil_r. apply trailingComma_fails.
      * apply Hlonger; [assumption | cbn; lia].
      * intros H. apply (f_equal (@length jschar)) in H.
        rewrite length_app in H. destruct u2; [contradiction|]. cbn in H. lia.
  - intros v0 -> Hv0. apply replace_found. unfold RegExp.exec.
    rewrite <- (app_nil_r (v0 ++ lit ",")), <- app_assoc.
    rewrite exec_from_skips.
    + apply exec_from_leads with (t := []); [reflexivity|].
      intros i. now eexists _, _.
    + intros u1 u2 -> Hu2. rewrite app_nil_r. apply trailingComma_fails.
      * intros H. apply (f_equal (@length jschar)) in H.
        rewrite length_app in H. destruct u2; [contradiction|]. cbn in H. lia.
      * intros H. apply (app_inj_tail u2 (lit "'")) in H as [-> _].
        now apply (Hv0 u1).
  - intros Hv. unfold RegExp.replace_1, RegExp.exec.
    assert (RegExp.exec_from trailingComma 0 v = None) as ->; [|reflexivity].
    apply exec_from_none. intros pre suf ->. apply trailingComma_fails.
    + intros ->. now apply (Hv pre).
    + intros ->. apply (Hv (pre ++ lit "'")). now rewrite <- app_assoc.
Qed.

Lemma attribute_value_strips_comma_witness :
  RegExp.replace_1 trailingComma (fun _ => []) (lit "x'" ++ lit ",") = lit "x"
  /\ RegExp.replace_1 trailingComma (fun _ => []) (lit "x.id" ++ lit ",") = lit "x.id"
  /\ RegExp.replace_1 trailingComma (fun _ => []) (lit "x'") = lit "x'".
Proof.
  split; [|split].
  - apply (proj1 (attribute_value_strips_comma (lit "x'" ++ lit ","))). reflexivity.
  - apply (proj1 (proj2 (attribute_value_strips_comma (lit "x.id" ++ lit ",")))).
    + reflexivity.
    + intros t H. apply (f_equal (@rev jschar)) in H. rewrite rev_app_distr in H.
      discriminate.
  - apply (proj2 (proj2 (attribute_value_strips_comma (lit "x'")))).
    intros v0 H. apply (f_equal (@rev jschar)) in H. rewrite rev_app_distr in H.
    discriminate.
Defined.

(** ** The class of a form tag *)

Section FormClass.

Import RegExp.

Lemma quote_free_after (post rest u w : jsstring) (q2 : jschar) :
  forallb (fun x => dot x && negb (is_quote x)) post = true ->
  stops dot rest = true ->
  q2 :: post ++ rest = u ++ w -> u <> [] -> forallb dot u = true ->
  stops is_quote w = true.
Proof.
  intros Hpost Hrest Huw Hu Hdot. destruct u as [|c u']; [contradiction|].
  cbn [app] in Huw. injection Huw as _ Huw. cbn [forallb] in Hdot.
  apply andb_true_iff in Hdot as [_ Hdot].
  apply app_eq_app in Huw as [l [[Hp Hw] | [Hu' Hr]]].
  - subst w post. destruct l as [|d l'].
    + now apply stops_dot_quote.
    + rewrite forallb_app in Hpost. apply andb_true_iff in Hpost as [_ Hpost].
      cbn [forallb] in Hpost. apply andb_true_iff in Hpost as [Hd _].
      apply andb_true_iff in Hd as [_ Hd]. exact Hd.
  - destruct l as [|d l'].
    + cbn [app] in Hr. subst w. now apply stops_dot_quote.
    + exfalso. subst rest u'. cbn [app stops] in Hrest.
      rewrite forallb_app in Hdot. apply andb_true_iff in Hdot as [_ Hdot].
      cbn [forallb] in Hdot. apply andb_true_iff in Hdot as [Hd _].
      now rewrite Hd in Hrest.
Qed.

Lemma quote_not_blank (q : jschar) : is_quote q = true -> only (ch " ") q = false.
Proof.
  unfold is_quote, only. intros H. apply orb_true_iff in H as [H|H];
    apply N.eqb_eq in H; now subst q.
Qed.

(** The class runs from the quote after [class:] to the last quote of the
    line: the greedy group gives back units down to it. *)
Lemma leads_class (L sp cls post rest : jsstring) (q1 q2 : jschar) :
  sp = [] \/ sp = lit " " ->
  is_quote q1 = true -> is_quote q2 = true ->
  nonempty cls = true -> forallb dot cls = true ->
  forallb (fun x => dot x && negb (is_quote x)) post = true ->
  stops dot rest = true ->
  leads (Seq (Group 1 (Seq (Lit L)
                         (Seq (Opt (Cls (only (ch " ")))) (Group 2 a_quote))))
             (Seq (Group 3 (Plus dot)) (Group 4 (Group 5 a_quote))))
        ((L ++ sp ++ [q1]) ++ cls ++ q2 :: post ++ rest) []
        (post ++ rest)
        [(4, [q2]); (5, [q2]); (3, cls); (1, L ++ sp ++ [q1]); (2, [q1])].
Proof.
  intros Hsp Hq1 Hq2 Hne Hcls Hpost Hrest.
  apply (leads_Seq (s1 := cls ++ q2 :: post ++ rest)
                   (cs1 := [(1, L ++ sp ++ [q1]); (2, [q1])])).
  - apply leads_Group. rewrite <- !app_assoc.
    apply (leads_Seq (s1 := sp ++ [q1] ++ cls ++ q2 :: post ++ rest) (cs1 := []));
      [apply leads_Lit|].
    apply (leads_Seq (s1 := [q1] ++ cls ++ q2 :: post ++ rest) (cs1 := [])).
    + destruct Hsp as [-> | ->].
      * apply leads_skip. intros i. apply Cls_alone_fails. cbn [app stops].
        now rewrite quote_not_blank.
      * apply leads_take. now apply leads_Cls.
    + apply (leads_Group 2 [q1]). now apply leads_a_quote.
  - apply leads_backtrack
      with (mid := q2 :: post ++ rest) (cs' := [(3, cls); (1, L ++ sp ++ [q1]); (2, [q1])])
           (bad := fun w => exists u, q2 :: post ++ rest = u ++ w /\ u <> []
                                      /\ forallb dot u = true).
    + apply reaches_Group. now apply reaches_Plus.
    + intros [j w cs0] (u & Huw & Hu & Hdot). cbn [RegExp.rest] in Huw.
      cbn [ends]. rewrite a_quote_fails; [reflexivity|].
      now apply (@quote_free_after post rest u w q2).
    + apply (leads_Group 4 [q2]). apply (leads_Group 5 [q2]).
      now apply leads_a_quote.
Qed.

End FormClass.

(** X19. The class of a form tag is the text between the quote that follows
    the first [class:] (a blank may stand between them) and the last quote
    of that line, whatever stands between them, quotes included. *)
Theorem form_class_to_last_quote (pre sp cls post rest : jsstring) (q1 q2 : jschar) :
  includes (lit "class:") pre = false ->
  sp = [] \/ sp = lit " " ->
  is_quote q1 = true -> is_quote q2 = true ->
  nonempty cls = true -> forallb RegExp.dot cls = true ->
  forallb (fun x => RegExp.dot x && negb (is_quote x)) post = true ->
  stops RegExp.dot rest = true ->
  form_class (pre ++ (lit "class:" ++ sp ++ [q1]) ++ cls ++ q2 :: post ++ rest)
  = Str cls.
Proof.
  intros Hpre Hsp Hq1 Hq2 Hne Hcls Hpost Hrest.
  unfold form_class, RegExp.exec. rewrite exec_from_skips.
  - rewrite (@exec_from_leads formClassRE _
               [(4, [q2]); (5, [q2]); (3, cls);
                (1, lit "class:" ++ sp ++ [q1]); (2, [q1])]
               (post ++ rest) _
               ((lit "class:" ++ sp ++ [q1]) ++ cls ++ [q2])).
    + reflexivity.
    + now rewrite <- !app_assoc.
    + unfold formClassRE. now apply leads_class.
  - intros u1 u2 Hb Hu2. unfold formClassRE. rewrite ends_Seq.
    cbn [RegExp.ends]. rewrite Lit_fails; [reflexivity|]. cbn [RegExp.rest].
    rewrite Hb in Hpre. apply includes_false in Hpre. rewrite <- !app_assoc.
    destruct u2 as [|c1 [|c2 [|c3 [|c4 [|c5 [|c6 u2]]]]]]; [contradiction| | | | | |];
      change (lit "class:") with [99; 108; 97; 115; 115; 58]%N in *;
      cbn [app prefixb] in Hpre |- *; try exact Hpre;
      cbn; rewrite ?andb_false_r; reflexivity.
Qed.

Lemma form_class_witness :
  form_class (lit "'contact', class: 'a', data-x: 'y'") = Str (lit "a', data-x: 'y").
Proof.
  exact (@form_class_to_last_quote (lit "'contact', ") (lit " ")
           (lit "a', data-x: 'y") [] [] (ch "'") (ch "'")
           eq_refl (or_intror eq_refl) eq_refl eq_refl eq_refl eq_refl eq_refl
           eq_refl).
Defined.

(** ** The slug of a slug *)

Section SlugAgain.

Import RegExp.

Lemma double_hyphen (a t : jsstring) :
  no_double_hyphen (a ++ hyphen :: hyphen :: t) = false.
Proof.
  induction a as [|c a IH]; [reflexivity|]. cbn [app no_double_hyphen].
  destruct (a ++ hyphen :: hyphen :: t) as [|d r] eqn:E.
  - now destruct a.
  - rewrite IH. apply andb_false_r.
Qed.

Lemma kept_outside_is_hyphen (run : jsstring) :
  forallb (fun x => slug_unit x || only hyphen x) run = true ->
  forallb not_slug_char run = true ->
  forallb (only hyphen) run = true.
Proof.
  induction run as [|c run IH]; [reflexivity|]. cbn [forallb]. intros Hk Hn.
  apply andb_true_iff in Hk as [Hc Hk]. apply andb_true_iff in Hn as [Hc' Hn].
  rewrite (IH Hk Hn), andb_true_r.
  unfold not_slug_char in Hc'. apply negb_true_iff in Hc'.
  unfold slug_unit in Hc. now rewrite Hc' in Hc.
Qed.

(** The first replacement leaves a text of slug units and single hyphens as
    it is. *)
Lemma collapse_fixed (fuel : nat) (u : jsstring) (i : nat) :
  length u < fuel ->
  forallb (fun x => slug_unit x || only hyphen x) u = true ->
  no_double_hyphen u = true ->
  replace_loop fuel nonWordRun (fun _ => [hyphen]) i u = u.
Proof.
  revert u i. induction fuel as [|fuel IH]; intros u i Hlen Hk Hnd; [lia|].
  unfold nonWordRun.
  destruct (first_run not_slug_char u)
    as [Hfree | (a & run & t & -> & Ha & Hne & Hrun & Ht)].
  - now apply replace_loop_Plus_none.
  - rewrite replace_loop_Plus by assumption. fold nonWordRun.
    rewrite !forallb_app in Hk. apply andb_true_iff in Hk as [_ Hk].
    apply andb_true_iff in Hk as [Hkrun Hkt].
    pose proof (kept_outside_is_hyphen _ Hkrun Hrun) as Hhy.
    destruct run as [|x [|y run]]; [discriminate| |].
    + cbn [forallb] in Hhy. rewrite andb_true_r in Hhy. apply hy_eq in Hhy.
      subst x. rewrite IH; [reflexivity| |assumption|].
      * rewrite !length_app in Hlen. cbn [length] in Hlen. lia.
      * apply no_double_tail in Hnd. now apply no_double_tail in Hnd.
    + exfalso. cbn [forallb] in Hhy. apply andb_true_iff in Hhy as [Hx Hhy].
      apply andb_true_iff in Hhy as [Hy _]. apply hy_eq in Hx, Hy. subst x y.
      cbn [app] in Hnd. now rewrite double_hyphen in Hnd.
Qed.

(** The second replacement leaves a text without a hyphen at either end as
    it is. *)
Lemma trim_fixed (u : jsstring) :
  (forall t, u <> hyphen :: t) -> (forall t, u <> t ++ [hyphen]) ->
  replace_g edgeHyphens (fun _ => []) u = u.
Proof.
  intros Hs He.
  destruct (replace_edge_hyphens u)
    as (lead & c0 & tl & Hu & Hlead & Htl & _ & _ & ->).
  destruct lead as [|x lead].
  - cbn [app] in Hu.
    destruct tl as [|y tl]; [now rewrite Hu, app_nil_r|]. exfalso.
    destruct (@all_hyphens_last (y :: tl) eq_refl Htl) as [t' Ht'].
    apply (He (c0 ++ t')). now rewrite Hu, Ht', app_assoc.
  - exfalso. cbn [forallb] in Hlead. apply andb_true_iff in Hlead as [Hx _].
    apply hy_eq in Hx. subst x. now apply (Hs (lead ++ c0 ++ tl)).
Qed.

End SlugAgain.

(** X20. The slug of a slug is that slug, on a host whose lower-casing
    leaves the slug as it is: the handle filter applied to its own result
    returns it unchanged. *)
Theorem slug_idempotent (h : Host) (s : jsstring) :
  toLowerCase h (slug h s) = slug h s ->
  slug h (slug h s) = slug h s
  /\ handle h (Str (slug h s)) = Ok (Str (slug h s)).
Proof.
  intros Hlow.
  assert (slug h (slug h s) = slug h s) as Hagain.
  { destruct (slug_shape h s) as (Hk & Hnd & Hs & He).
    unfold slug at 1. rewrite Hlow.
    change (RegExp.replace_g nonWordRun (fun _ => lit "-") (slug h s))
      with (RegExp.replace_loop (S (length (slug h s))) nonWordRun
              (fun _ => [hyphen]) 0 (slug h s)).
    rewrite collapse_fixed; [|lia|assumption|assumption].
    now apply trim_fixed. }
  split; [exact Hagain|].
  unfold handle. destruct (truthy (Str (slug h s))); [|reflexivity].
  now rewrite Hagain.
Qed.

Lemma slug_idempotent_witness :
  slug Demo.host (lit "Hello, World!") = lit "hello-world"
  /\ handle Demo.host (Str (slug Demo.host (lit "Hello, World!")))
     = Ok (Str (slug Demo.host (lit "Hello, World!"))).
Proof.
  split; [reflexivity|].
  apply (slug_idempotent Demo.host (lit "Hello, World!")). reflexivity.
Defined.
